(** * Zykov branch-and-bound graph colouring: model and properties

    A shallow embedding of [graph.cpp], [branch_and_bound.cpp] and the
    sequential core of [main.cpp].

    Conventions of the embedding.
    - A C++ [int] is a [Z].  Every integer the program computes is a vertex
      index, a colour, a degree or a sum of two degrees, all bounded by the
      size of a vector held in memory, so no wrap-around is written out.
    - A [std::vector<T>] is a [list T], read with [nth_Z] and written with
      [upd_Z].  These agree with [operator[]] for an index inside the
      vector, which is where every access of the pure routines falls on a
      well-formed graph ([wf]).  The functions that the program calls with
      indices it has not checked ([addEdge], the component list and the
      colouring of a component in [main]) use the checked accessors and
      return [None] on an access outside the vector.
    - A [std::unordered_set<int>] is a [gset Z].  Iterating over it is
      iterating over [elements]; the order is left open by the C++ library
      and no property below depends on it. *)

From stdpp Require Import base numbers list sets gmap sorting.

Open Scope Z_scope.

(** ** Vectors indexed by [int] *)

Definition nth_Z {A} `{Inhabited A} (l : list A) (i : Z) : A :=
  l !!! Z.to_nat i.

Definition upd_Z {A} (l : list A) (i : Z) (x : A) : list A :=
  <[Z.to_nat i := x]> l.

Definition in_bounds {A} (l : list A) (i : Z) : bool :=
  (0 <=? i) && (i <? Z.of_nat (length l)).

Definition size_Z {A} (l : list A) : Z := Z.of_nat (length l).

(** ** graph.hpp *)

Definition INF : Z := 1000000000.

Record ColoringSolution := mkSolution {
  numColors : Z;
  coloring : list Z
}.

(** [ColoringSolution::ColoringSolution()] *)
Definition ColoringSolution_default : ColoringSolution :=
  {| numColors := INF; coloring := [] |}.

Record Graph := mkGraph {
  n : Z;
  orig_n : Z;
  adj : list (gset Z);
  mapping : list (list Z)
}.

(** [Graph::Graph(int n_)]: [n_] isolated vertices, vertex [i] standing for
    the original vertex [i]. *)
Definition Graph_of_size (n_ : Z) : Graph :=
  {| n := n_; orig_n := n_;
     adj := replicate (Z.to_nat n_) ∅;
     mapping := (λ i, [i]) <$> seqZ 0 n_ |}.

(** [Graph::Graph()] *)
Definition Graph_empty : Graph :=
  {| n := 0; orig_n := 0; adj := []; mapping := [] |}.

(** [v[i].insert(x)] on a vector of sets, the index taken as it comes. *)
Definition set_insert_at (a : list (gset Z)) (i x : Z) : list (gset Z) :=
  upd_Z a i ({[x]} ∪ nth_Z a i).

(** The same with the access checked: [None] when [i] is outside [a]. *)
Definition set_insert_checked (a : list (gset Z)) (i x : Z)
  : option (list (gset Z)) :=
  if in_bounds a i then Some (set_insert_at a i x) else None.

(** [Graph::addEdge].  The guard of the source is [i < n && j < n]. *)
Definition addEdge (g : Graph) (i j : Z) : option Graph :=
  if (i <? n g) && (j <? n g) then
    a1 ← set_insert_checked (adj g) i j;
    a2 ← set_insert_checked a1 j i;
    Some {| n := n g; orig_n := orig_n g; adj := a2; mapping := mapping g |}
  else Some g.

(** A graph value as the constructors build it: both vectors have [n]
    entries and every neighbour is a current vertex. *)
Record wf (g : Graph) : Prop := mkWf {
  wf_n : 0 <= n g;
  wf_adj : size_Z (adj g) = n g;
  wf_mapping : size_Z (mapping g) = n g;
  wf_range : ∀ i x, 0 <= i < n g → x ∈ nth_Z (adj g) i → 0 <= x < n g
}.

Definition symmetric (g : Graph) : Prop :=
  ∀ i j, 0 <= i < n g → 0 <= j < n g →
         j ∈ nth_Z (adj g) i → i ∈ nth_Z (adj g) j.

Definition loop_free (g : Graph) : Prop :=
  ∀ i, 0 <= i < n g → i ∉ nth_Z (adj g) i.

(** The body of a loop over pairs [(a, b)] that links [a] and [b] when the
    test [c a b] holds: [if (c) { s[a].insert(b); s[b].insert(a); }]. *)
Definition insert_pairs_step (c : Z → Z → bool) (ad : list (gset Z))
    (p : Z * Z) : list (gset Z) :=
  if c p.1 p.2 then set_insert_at (set_insert_at ad p.1 p.2) p.2 p.1 else ad.

(** [Graph::mergeVertices]: the vertices other than [j], in order. *)
Definition merge_newIndices (g : Graph) (j : Z) : list Z :=
  filter (λ k, k ≠ j) (seqZ 0 (n g)).

(** The loop that fills [newG.mapping]. *)
Definition merge_mapping (g : Graph) (i j : Z) (newIndices : list Z)
    (m0 : list (list Z)) : list (list Z) :=
  foldl (λ m a,
           let oldIndex := nth_Z newIndices a in
           if oldIndex =? i
           then upd_Z m a (nth_Z (mapping g) i ++ nth_Z (mapping g) j)
           else upd_Z m a (nth_Z (mapping g) oldIndex))
        m0 (seqZ 0 (n g - 1)).

(** The value of [connected] for the old indices [origA], [origB]. *)
Definition merge_connected (g : Graph) (i j origA origB : Z) : bool :=
  if (origA =? i) || (origB =? i) then
    if origA =? i
    then bool_decide (origB ∈ nth_Z (adj g) i)
         || bool_decide (origB ∈ nth_Z (adj g) j)
    else bool_decide (i ∈ nth_Z (adj g) origA)
         || bool_decide (j ∈ nth_Z (adj g) origA)
  else bool_decide (origB ∈ nth_Z (adj g) origA).

(** All pairs [(a, b)] with [0 <= a < b < m], in the order in which the
    two nested [for] loops of the source visit them. *)
Definition scan_pairs (m : Z) : list (Z * Z) :=
  a ← seqZ 0 m; (λ b, (a, b)) <$> seqZ (a + 1) (m - (a + 1)).

(** The loop that rebuilds the adjacency. *)
Definition merge_adj (g : Graph) (i j : Z) (newIndices : list Z)
    (a0 : list (gset Z)) : list (gset Z) :=
  foldl (insert_pairs_step
           (λ a b, let origA := nth_Z newIndices a in
                   let origB := nth_Z newIndices b in
                   merge_connected g i j origA origB))
        a0 (scan_pairs (n g - 1)).

Definition mergeVertices (g : Graph) (i j : Z) : Graph :=
  let newG := Graph_of_size (n g - 1) in
  let newIndices := merge_newIndices g j in
  {| n := n newG;
     orig_n := orig_n g;
     adj := merge_adj g i j newIndices (adj newG);
     mapping := merge_mapping g i j newIndices (mapping newG) |}.

(** ** Bron-Kerbosch *)

(** [count] of the pivot loop: the members of [P] adjacent to [u]. *)
Definition pivot_count (ad : list (gset Z)) (P : list Z) (u : Z) : Z :=
  size_Z (filter (λ w, w ∈ nth_Z ad u) P).

Definition choose_pivot (ad : list (gset Z)) (P X : list Z) : Z :=
  (foldl (λ '(pivot, maxCount) u,
            let count := pivot_count ad P u in
            if count >? maxCount then (u, count) else (pivot, maxCount))
         (-1, -1) (P ++ X)).1.

(** The loop over [pWithoutPivot], given the recursive call [rec].  [P] and
    [X] are the caller's vectors, changed as the loop goes; [best] is the
    pair [(bestSize, bestClique)]. *)
Fixpoint bk_loop (rec : list Z → list Z → list Z → Z * list Z → option (Z * list Z))
    (ad : list (gset Z)) (R : list Z) (vs P X : list Z) (best : Z * list Z)
    : option (Z * list Z) :=
  match vs with
  | [] => Some best
  | v :: vs' =>
      let newP := filter (λ w, w ∈ nth_Z ad v) P in
      let newX := filter (λ w, w ∈ nth_Z ad v) X in
      best' ← rec (R ++ [v]) newP newX best;
      let P' := filter (λ w, w ≠ v) P in
      let X' := X ++ [v] in
      if bool_decide (P' = []) then Some best'
      else bk_loop rec ad R vs' P' X' best'
  end.

(** [bronKerbosch], with the depth of the recursion bounded by [fuel];
    [None] when the bound is reached. *)
Fixpoint bronKerbosch (fuel : nat) (ad : list (gset Z)) (R P X : list Z)
    (best : Z * list Z) : option (Z * list Z) :=
  match fuel with
  | O => None
  | S fuel' =>
      if bool_decide (P = []) && bool_decide (X = []) then
        if size_Z R >? best.1 then Some (size_Z R, R) else Some best
      else
        let pivot := choose_pivot ad P X in
        let pWithoutPivot := filter (λ v, v ∉ nth_Z ad pivot) P in
        bk_loop (bronKerbosch fuel' ad) ad R pWithoutPivot P X best
  end.

(** [Graph::heuristicMaxClique].  Every recursive call gets a [P] strictly
    shorter than its caller's, so [|P| + 1] levels are enough
    (lemma [bronKerbosch_returns]). *)
Definition heuristicMaxClique (g : Graph) : option (Z * list Z) :=
  let P := seqZ 0 (size_Z (adj g)) in
  bronKerbosch (S (length P)) (adj g) [] P [] (0, []).

(** ** DSATUR *)

Record DsaturState := mkDsatur {
  color : list Z;
  saturation : list Z
}.

(** The body of the loop of the lambda [pickNextVertex], on the triple
    [(bestV, bestSat, bestDeg)]. *)
Definition pick_step (color saturation degree : list Z)
    (st : Z * Z * Z) (v : Z) : Z * Z * Z :=
  let '(bestV, bestSat, bestDeg) := st in
  if nth_Z color v =? -1 then
    if (nth_Z saturation v >? bestSat)
       || ((nth_Z saturation v =? bestSat) && (nth_Z degree v >? bestDeg))
    then (v, nth_Z saturation v, nth_Z degree v)
    else (bestV, bestSat, bestDeg)
  else (bestV, bestSat, bestDeg).

Definition pickNextVertex (nLocal : Z) (color saturation degree : list Z) : Z :=
  (foldl (pick_step color saturation degree) (-1, -1, -1) (seqZ 0 nLocal)).1.1.

(** [while (c < nLocal && used[c]) c++], started at [c] on the part of
    [used] from index [c] on. *)
Fixpoint first_free (used : list bool) (c : Z) : Z :=
  match used with
  | [] => c
  | u :: rest => if u then first_free rest (c + 1) else c
  end.

Definition mark_used (nLocal : Z) (color : list Z) (nbrs : list Z) : list bool :=
  foldl (λ used w,
           if negb (nth_Z color w =? -1) then upd_Z used (nth_Z color w) true
           else used)
        (replicate (Z.to_nat nLocal) false) nbrs.

(** The inner scan [for (int x : adj[w]) if (color[x] == c) ...]. *)
Definition seesC (g : Graph) (color : list Z) (w c : Z) : bool :=
  existsb (λ x, nth_Z color x =? c) (elements (nth_Z (adj g) w)).

Definition update_saturation (g : Graph) (color saturation : list Z)
    (v c : Z) : list Z :=
  foldl (λ sat w,
           if nth_Z color w =? -1 then
             if negb (seesC g color w c) then upd_Z sat w (nth_Z sat w + 1)
             else sat
           else sat)
        saturation (elements (nth_Z (adj g) v)).

(** One pass of the body of the [step] loop; [None] is the [break]. *)
Definition dsatur_step (g : Graph) (degree : list Z) (st : DsaturState)
    : option DsaturState :=
  let nLocal := n g in
  let v := pickNextVertex nLocal (color st) (saturation st) degree in
  if v =? -1 then None
  else
    let used := mark_used nLocal (color st) (elements (nth_Z (adj g) v)) in
    let c := first_free used 0 in
    let color' := upd_Z (color st) v c in
    Some {| color := color';
            saturation := update_saturation g color' (saturation st) v c |}.

Fixpoint dsatur_loop (steps : nat) (g : Graph) (degree : list Z)
    (st : DsaturState) : DsaturState :=
  match steps with
  | O => st
  | S k =>
      match dsatur_step g degree st with
      | None => st
      | Some st' => dsatur_loop k g degree st'
      end
  end.

Definition dsatur_init (g : Graph) : DsaturState :=
  {| color := replicate (Z.to_nat (n g)) (-1);
     saturation := replicate (Z.to_nat (n g)) 0 |}.

Definition dsatur_degree (g : Graph) : list Z :=
  (λ i, Z.of_nat (size (nth_Z (adj g) i))) <$> seqZ 0 (n g).

Definition used_colors (nLocal : Z) (color : list Z) : Z :=
  foldl (λ usedColors v, Z.max usedColors (nth_Z color v + 1)) 0 (seqZ 0 nLocal).

(** [Graph::heuristicColoring] *)
Definition heuristicColoring (g : Graph) : Z * list Z :=
  let st := dsatur_loop (Z.to_nat (n g)) g (dsatur_degree g) (dsatur_init g) in
  (used_colors (n g) (color st), color st).

(** [findConnectedComponents]: the body of [for (int w : g.adj[v])], on
    the triple [(Q, visited, comp)]. *)
Definition bfs_visit (st : list Z * list bool * list Z) (w : Z)
    : list Z * list bool * list Z :=
  let '(Q1, visited1, comp1) := st in
  if negb (nth_Z visited1 w)
  then (Q1 ++ [w], upd_Z visited1 w true, comp1 ++ [w])
  else (Q1, visited1, comp1).

(** The [while (!Q.empty())] loop.  Every pass pops one vertex and a
    vertex is pushed once at most, so the number of passes is bounded by
    [fuel]; [None] when the bound is reached (it is not, on a well-formed
    graph: lemma [findConnectedComponents_returns]). *)
Fixpoint bfs_loop (fuel : nat) (g : Graph) (Q : list Z) (visited : list bool)
    (comp : list Z) : option (list bool * list Z) :=
  match fuel with
  | O => None
  | S fuel' =>
      match Q with
      | [] => Some (visited, comp)
      | v :: Q' =>
          let '(Q'', visited', comp') :=
            foldl bfs_visit (Q', visited, comp) (elements (nth_Z (adj g) v)) in
          bfs_loop fuel' g Q'' visited' comp'
      end
  end.

Definition findConnectedComponents (g : Graph) : option (list (list Z)) :=
  r ← foldl (λ acc start,
               '(components, visited) ← acc;
               if negb (nth_Z visited start) then
                 '(visited', comp) ←
                   bfs_loop (S (Z.to_nat (n g))) g [start]
                            (upd_Z visited start true) [start];
                 Some (components ++ [comp], visited')
               else Some (components, visited))
            (Some ([], replicate (Z.to_nat (n g)) false))
            (seqZ 0 (n g));
  Some r.1.

(** [extractSubgraph] *)
Definition extractSubgraph (fullG : Graph) (vertices : list Z) : Graph :=
  let subG := Graph_of_size (size_Z vertices) in
  let mapping1 :=
    foldl (λ m i, upd_Z m i (nth_Z (mapping fullG) (nth_Z vertices i)))
          (mapping subG) (seqZ 0 (size_Z vertices)) in
  let adj1 :=
    foldl (insert_pairs_step
             (λ i j, let oldi := nth_Z vertices i in
                     let oldj := nth_Z vertices j in
                     bool_decide (oldj ∈ nth_Z (adj fullG) oldi)))
          (adj subG) (scan_pairs (size_Z vertices)) in
  {| n := n subG; orig_n := orig_n fullG; adj := adj1; mapping := mapping1 |}.

(** ** branch_and_bound.cpp *)

Definition MIN_VERTICES_FOR_TASK : Z := 30.
Definition MAX_TASK_DEPTH : Z := 4.
Definition DECOMP_DEPTH : Z := 2.

Definition degree_of (g : Graph) (i : Z) : Z :=
  Z.of_nat (size (nth_Z (adj g) i)).

(** The body of the two nested loops of [selectBranchingPair], on the
    triple [(v1, v2, bestScore)]. *)
Definition select_step (g : Graph) (degrees : list Z)
    (st : Z * Z * Z) (p : Z * Z) : Z * Z * Z :=
  let '(v1, v2, bestScore) := st in
  let '(i, j) := p in
  if bool_decide (j ∉ nth_Z (adj g) i) then
    let score := nth_Z degrees i + nth_Z degrees j in
    if score >? bestScore then (i, j, score) else (v1, v2, bestScore)
  else (v1, v2, bestScore).

(** [selectBranchingPair] *)
Definition selectBranchingPair (g : Graph) : Z * Z :=
  let degrees := degree_of g <$> seqZ 0 (n g) in
  let '(v1, v2, _) :=
    foldl (select_step g degrees) (-1, -1, -1) (scan_pairs (n g)) in
  (v1, v2).

(** The inner loop of the lifting: every original vertex of [mapping[i]]
    receives the colour of the current vertex [i]. *)
Definition lift_vertex (g : Graph) (coloring : list Z) (out : list Z) (i : Z)
    : list Z :=
  foldl (λ out orig, upd_Z out orig (nth_Z coloring i)) out (nth_Z (mapping g) i).

(** The lifting of a colouring of the current graph to the original
    vertices, as the critical section of [branchAndBound] does it. *)
Definition lift_coloring (g : Graph) (coloring : list Z) : list Z :=
  foldl (lift_vertex g coloring)
        (replicate (Z.to_nat (orig_n g)) (-1)) (seqZ 0 (n g)).

(** The critical section that updates the best solution. *)
Definition update_best (g : Graph) (ub : Z) (coloring : list Z)
    (bestSolution : ColoringSolution) : ColoringSolution :=
  if ub <? numColors bestSolution
  then {| numColors := ub; coloring := lift_coloring g coloring |}
  else bestSolution.

Section Search.

(** The clock.  [seconds] stands for [double]; [time_ge a b] is the
    comparison [a >= b] on it, and [elapsed k] is the value of
    [steady_clock::now() - startTime] at the [k]-th reading of the
    clock.  Nothing is assumed about any of them. *)
Context {seconds : Type}.
Variable time_ge : seconds → seconds → bool.
Variable elapsed : nat → seconds.

Record LogLine := mkLogLine {
  log_time : seconds;
  log_depth : Z;
  log_lb : Z;
  log_clique : list Z;
  log_ub : Z;
  log_coloring : list Z
}.

(** The global variables of [globals.cpp] that the search touches, with
    the number of clock readings made so far. *)
Record Globals := mkGlobals {
  searchCompleted : bool;
  logStream : list LogLine;
  clock_reads : nat
}.

Definition globals_init : Globals :=
  {| searchCompleted := true; logStream := []; clock_reads := 0 |}.

Definition read_clock (w : Globals) : seconds * Globals :=
  (elapsed (clock_reads w),
   {| searchCompleted := searchCompleted w;
      logStream := logStream w;
      clock_reads := S (clock_reads w) |}).

Definition set_searchCompleted (b : bool) (w : Globals) : Globals :=
  {| searchCompleted := b; logStream := logStream w;
     clock_reads := clock_reads w |}.

Definition write_log (l : LogLine) (w : Globals) : Globals :=
  {| searchCompleted := searchCompleted w;
     logStream := logStream w ++ [l];
     clock_reads := clock_reads w |}.

(** [branchAndBound].  [bestSolution] is the reference parameter, passed
    in and returned.  The two OpenMP tasks of a branching are run one
    after the other, in program order.  [fuel] bounds the depth of the
    recursion; [None] when the bound is reached or an access is out of
    bounds (neither happens when [fuel] exceeds the number of pairs left
    to branch on: lemma [branchAndBound_returns]). *)
Fixpoint branchAndBound (fuel : nat) (g : Graph)
    (bestSolution : ColoringSolution) (timeLimit : seconds) (depth : Z)
    (w : Globals) : option (ColoringSolution * Globals) :=
  match fuel with
  | O => None
  | S fuel' =>
      let '(now, w) := read_clock w in
      if time_ge now timeLimit then
        Some (bestSolution, set_searchCompleted false w)
      else
        '(lb, clique) ← heuristicMaxClique g;
        let '(ub, coloring) := heuristicColoring g in
        let '(currentTime, w) := read_clock w in
        let w := write_log (mkLogLine currentTime depth lb clique ub coloring) w in
        let bestSolution := update_best g ub coloring bestSolution in
        if lb =? ub then Some (bestSolution, w)
        else if lb >=? numColors bestSolution then Some (bestSolution, w)
        else
          let '(v1, v2) := selectBranchingPair g in
          if v1 =? -1 then Some (bestSolution, w)
          else
            let childMerge := mergeVertices g v1 v2 in
            childEdge ← addEdge g v1 v2;
            let doParallel :=
              (n g >=? MIN_VERTICES_FOR_TASK) && (depth <? MAX_TASK_DEPTH) in
            if doParallel then
              '(bestSolution, w) ←
                branchAndBound fuel' childMerge bestSolution timeLimit (depth + 1) w;
              branchAndBound fuel' childEdge bestSolution timeLimit (depth + 1) w
            else
              '(bestSolution, w) ←
                branchAndBound fuel' childMerge bestSolution timeLimit (depth + 1) w;
              branchAndBound fuel' childEdge bestSolution timeLimit (depth + 1) w
  end.

(** [decomposeBnb], with the same bound on the depth of the recursion. *)
Fixpoint decomposeBnb (fuel : nat) (g : Graph) (depth decompDepth : Z)
    (tasks : list Graph) (timeLimit : seconds)
    (dummySolution : ColoringSolution) (w : Globals)
    : option (list Graph * Globals) :=
  match fuel with
  | O => None
  | S fuel' =>
      let '(now, w) := read_clock w in
      if time_ge now timeLimit then Some (tasks, w)
      else if depth >=? decompDepth then Some (tasks ++ [g], w)
      else
        '(lb, clique) ← heuristicMaxClique g;
        let '(ub, coloring) := heuristicColoring g in
        if lb =? ub then Some (tasks, w)
        else if lb >=? numColors dummySolution then Some (tasks, w)
        else
          let '(v1, v2) := selectBranchingPair g in
          if v1 =? -1 then Some (tasks, w)
          else
            let childMerge := mergeVertices g v1 v2 in
            childEdge ← addEdge g v1 v2;
            '(tasks, w) ←
              decomposeBnb fuel' childMerge (depth + 1) decompDepth tasks
                           timeLimit dummySolution w;
            decomposeBnb fuel' childEdge (depth + 1) decompDepth tasks
                         timeLimit dummySolution w
  end.

(** ** main.cpp, one MPI process *)

(** [v[i]] with the access checked. *)
Definition at_checked {A} (l : list A) (i : Z) : option A :=
  if in_bounds l i then l !! Z.to_nat i else None.

(** The part of [main] between reading the graph and writing the
    report, for [mpiSize = 1] and [mpiRank = 0] (every reduction and
    broadcast is then the identity).  The result is
    [(globalBestColors, globalColoring)]. *)
Definition solve (fuel : nat) (fullGraph : Graph) (timeLimit : seconds)
    (w : Globals) : option (Z * list Z * Globals) :=
  components ← findConnectedComponents fullGraph;
  let globalColoring := replicate (Z.to_nat (orig_n fullGraph)) (-1) in
  if size_Z components >? 1 then
    '(localBestColors, localColoring, w) ←
      foldl (λ acc comp,
               '(localBestColors, localColoring, w) ← acc;
               let subG := extractSubgraph fullGraph comp in
               '(compBest, w) ←
                 branchAndBound fuel subG ColoringSolution_default timeLimit 0 w;
               localColoring ←
                 foldl (λ acc v,
                          lc ← acc;
                          c ← at_checked (coloring compBest) v;
                          if in_bounds lc v then Some (upd_Z lc v c) else None)
                       (Some localColoring) comp;
               Some (Z.max localBestColors (numColors compBest),
                     localColoring, w))
            (Some (0, replicate (Z.to_nat (orig_n fullGraph)) (-1), w))
            components;
    Some (localBestColors, localColoring, w)
  else
    comp0 ← at_checked components 0;
    let subG := extractSubgraph fullGraph comp0 in
    let dummy := {| numColors := INF; coloring := [] |} in
    '(tasks, w) ← decomposeBnb fuel subG 0 2 [] timeLimit dummy w;
    let tasks := if bool_decide (tasks = []) then [subG] else tasks in
    '(localBest, w) ←
      foldl (λ acc task,
               '(localBest, w) ← acc;
               branchAndBound fuel task localBest timeLimit 2 w)
            (Some (ColoringSolution_default, w)) tasks;
    Some (numColors localBest, coloring localBest, w).

End Search.

(** ** Concrete graphs *)

(** Two vertices joined by an edge. *)
Definition K2 : Graph :=
  {| n := 2; orig_n := 2; adj := [ {[1]} ; {[0]} ]; mapping := [[0]; [1]] |}.

(** ** Executable checks of the data-model conditions *)

Definition wfb (g : Graph) : bool :=
  (0 <=? n g) && (size_Z (adj g) =? n g) && (size_Z (mapping g) =? n g)
  && forallb (λ i, forallb (λ x, (0 <=? x) && (x <? n g))
                           (elements (nth_Z (adj g) i)))
             (seqZ 0 (n g)).

Definition symmetricb (g : Graph) : bool :=
  forallb (λ i, forallb (λ j, bool_decide (i ∈ nth_Z (adj g) j))
                        (elements (nth_Z (adj g) i)))
          (seqZ 0 (n g)).

Definition loop_freeb (g : Graph) : bool :=
  forallb (λ i, bool_decide (i ∉ nth_Z (adj g) i)) (seqZ 0 (n g)).

(** The path 0 - 1 - 2. *)
Definition P3 : Graph :=
  {| n := 3; orig_n := 3; adj := [ {[1]} ; {[0; 2]} ; {[1]} ];
     mapping := [[0]; [1]; [2]] |}.

(** The cycle on five vertices. *)
Definition C5 : Graph :=
  {| n := 5; orig_n := 5;
     adj := [ {[1; 4]} ; {[0; 2]} ; {[1; 3]} ; {[2; 4]} ; {[3; 0]} ];
     mapping := [[0]; [1]; [2]; [3]; [4]] |}.

(** The test and the score of [selectBranchingPair] on a pair. *)
Definition select_passes (g : Graph) (p : Z * Z) : Prop :=
  p.2 ∉ nth_Z (adj g) p.1.

Definition select_score (degrees : list Z) (p : Z * Z) : Z :=
  nth_Z degrees p.1 + nth_Z degrees p.2.

(** The order of the scan: first component, then second. *)
Definition lex_lt (p q : Z * Z) : Prop :=
  p.1 < q.1 ∨ (p.1 = q.1 ∧ p.2 < q.2).

Definition lex_le (p q : Z * Z) : Prop := p = q ∨ lex_lt p q.

(** Every two distinct vertices are adjacent. *)
Definition complete (g : Graph) : Prop :=
  ∀ i j, 0 <= i < n g → 0 <= j < n g → i ≠ j → j ∈ nth_Z (adj g) i.

(** ** The invariants of the data model *)

(** The sets [mapping[i]] partition the original vertices [0 .. orig_n). *)
Definition mapping_partition (g : Graph) : Prop :=
  mjoin (mapping g) ≡ₚ seqZ 0 (orig_n g).

(** [sum |mapping[i]|] *)
Definition sum_mapping (g : Graph) : Z :=
  foldr (λ m s, size_Z m + s) 0 (mapping g).

Record graph_inv (g : Graph) : Prop := mkInv {
  inv_wf : wf g;
  inv_symmetric : symmetric g;
  inv_loop_free : loop_free g;
  inv_partition : mapping_partition g;
  inv_n_le : n g <= orig_n g
}.

Definition graph_invb (g : Graph) : bool :=
  wfb g && symmetricb g && loop_freeb g
  && bool_decide (mjoin (mapping g) ≡ₚ seqZ 0 (orig_n g))
  && (n g <=? orig_n g).

(** The index that the merged vertex [i] has after [j] is removed. *)
Definition merged_index (i j : Z) : Z := if i <? j then i else i - 1.

(** The old index of the new vertex [a] after [j] is removed. *)
Definition old_index (j a : Z) : Z := if a <? j then a else a + 1.

(** ** The saturation rule in the words of the specification *)

(** [w] has a neighbour other than [v] that carries the colour [c]. *)
Definition other_neighbor_has (g : Graph) (color : list Z) (v w c : Z) : bool :=
  existsb (λ x, negb (x =? v) && (nth_Z color x =? c))
          (elements (nth_Z (adj g) w)).

(** After [v] has received [c]: every uncoloured neighbour [w] of [v] with
    no other neighbour carrying [c] has its saturation raised by one, and
    nothing else changes. *)
Definition spec_update_saturation (g : Graph) (color saturation : list Z)
    (v c : Z) : list Z :=
  foldl (λ sat w,
           if (nth_Z color w =? -1) && negb (other_neighbor_has g color v w c)
           then upd_Z sat w (nth_Z sat w + 1)
           else sat)
        saturation (elements (nth_Z (adj g) v)).

(** ** Colourings and cliques *)

(** The endpoints of every edge of [g] get different entries of [col]. *)
Definition proper_coloring (g : Graph) (col : list Z) : Prop :=
  ∀ u v, 0 <= u < n g → 0 <= v < n g →
         v ∈ nth_Z (adj g) u → nth_Z col u ≠ nth_Z col v.

(** The same among the vertices coloured so far. *)
Definition proper_partial (g : Graph) (col : list Z) : Prop :=
  ∀ u v, 0 <= u < n g → 0 <= v < n g → v ∈ nth_Z (adj g) u →
         nth_Z col u ≠ -1 → nth_Z col v ≠ -1 → nth_Z col u ≠ nth_Z col v.

(** Number of coloured entries. *)
Definition colored_count (col : list Z) : nat :=
  length (filter (λ c, c ≠ -1) col).

(** [C] is a set of distinct vertices of [g], adjacent two by two. *)
Definition is_clique (g : Graph) (C : list Z) : Prop :=
  NoDup C
  ∧ (∀ v, v ∈ C → 0 <= v < n g)
  ∧ (∀ u v, u ∈ C → v ∈ C → u ≠ v → v ∈ nth_Z (adj g) u).

(** The state of the DSATUR loop after [s] passes. *)
Record dsatur_inv (g : Graph) (s : Z) (st : DsaturState) : Prop := mkDsaturInv {
  di_size : size_Z (color st) = n g;
  di_sat : saturation st = replicate (Z.to_nat (n g)) 0;
  di_range : ∀ v, 0 <= v < n g → -1 <= nth_Z (color st) v < s;
  di_proper : proper_partial g (color st);
  di_count : Z.of_nat (colored_count (color st)) = s
}.

(** Every candidate is a vertex adjacent to every member of [R]. *)
Definition candidates (g : Graph) (P R : list Z) : Prop :=
  ∀ p, p ∈ P → 0 <= p < n g ∧ ∀ r, r ∈ R → p ∈ nth_Z (adj g) r.

(** The pair [(bestSize, bestClique)] is a clique with its size. *)
Definition best_ok (g : Graph) (best : Z * list Z) : Prop :=
  best.1 = size_Z best.2 ∧ is_clique g best.2.

(** ** The search tree *)

(** The graph as [readGraphFromCOLFile] builds it from a simple graph:
    vertex [i] stands for the original vertex [i]. *)
Record input_graph (g0 : Graph) : Prop := mkInput {
  in_wf : wf g0;
  in_symmetric : symmetric g0;
  in_loop_free : loop_free g0;
  in_orig_n : orig_n g0 = n g0;
  in_mapping : mapping g0 = (λ i, [i]) <$> seqZ 0 (n g0)
}.

Definition input_graphb (g0 : Graph) : bool :=
  wfb g0 && symmetricb g0 && loop_freeb g0
  && (orig_n g0 =? n g0)
  && bool_decide (mapping g0 = (λ i, [i]) <$> seqZ 0 (n g0)).

(** The graphs that the branching operators produce from [g0], each
    applied to two distinct non-adjacent vertices. *)
Inductive reachable (g0 : Graph) : Graph → Prop :=
| reach_root : reachable g0 g0
| reach_merge g i j :
    reachable g0 g → 0 <= i < n g → 0 <= j < n g → i ≠ j →
    j ∉ nth_Z (adj g) i →
    reachable g0 (mergeVertices g i j)
| reach_addEdge g g' i j :
    reachable g0 g → 0 <= i < n g → 0 <= j < n g → i ≠ j →
    j ∉ nth_Z (adj g) i →
    addEdge g i j = Some g' →
    reachable g0 g'.

(** Two original vertices joined in [g0] lie in adjacent vertices of [g]. *)
Definition edge_sound (g0 g : Graph) : Prop :=
  ∀ a b i j, 0 <= a < n g0 → 0 <= b < n g0 → b ∈ nth_Z (adj g0) a →
             0 <= i < n g → 0 <= j < n g →
             a ∈ nth_Z (mapping g) i → b ∈ nth_Z (mapping g) j →
             j ∈ nth_Z (adj g) i.

Record reach_inv (g0 g : Graph) : Prop := mkReachInv {
  ri_inv : graph_inv g;
  ri_orig : orig_n g = n g0;
  ri_sound : edge_sound g0 g
}.

(** The old vertices that the new vertex [p] stands for after the merge
    of [i] and [j]. *)
Definition in_class (i j p x : Z) : Prop :=
  x = old_index j p ∨ (old_index j p = i ∧ x = j).

(** A stored solution colours the original graph properly within its
    number of colours. *)
Definition solution_ok (g0 : Graph) (b : ColoringSolution) : Prop :=
  size_Z (coloring b) = n g0
  ∧ proper_coloring g0 (coloring b)
  ∧ ∀ v, 0 <= v < n g0 → 0 <= nth_Z (coloring b) v < numColors b.

(** The pairs [i < j] of vertices that are not adjacent: the pairs left
    to branch on. *)
Definition open_pairs (g : Graph) : list (Z * Z) :=
  filter (λ p, p.2 ∉ nth_Z (adj g) p.1) (scan_pairs (n g)).

(** Number of [false] entries of [visited]. *)
Definition unvisited_count (visited : list bool) : nat :=
  length (filter (λ b, b = false) visited).

(** ** Colourability *)

(** [g] has a proper colouring with the colours [0 .. k). *)
Definition colorable (g : Graph) (k : Z) : Prop :=
  0 <= k
  ∧ ∃ f : Z → Z,
      (∀ u v, 0 <= u < n g → 0 <= v < n g →
              v ∈ nth_Z (adj g) u → f u ≠ f v)
      ∧ (∀ v, 0 <= v < n g → 0 <= f v < k).

(** The new index of the old vertex [x] after the merge of [i] and [j]. *)
Definition new_index (i j x : Z) : Z :=
  if x =? j then merged_index i j else if x <? j then x else x - 1.

(** ** Connected components *)

(** [w] can be reached from [u] along edges of [g]. *)
Inductive connected_to (g : Graph) (u : Z) : Z → Prop :=
| conn_refl : connected_to g u u
| conn_step v w :
    connected_to g u v → 0 <= v < n g → w ∈ nth_Z (adj g) v →
    connected_to g u w.

(** Every neighbour of a member of [c] is a member of [c]. *)
Definition closed_under_adj (g : Graph) (c : list Z) : Prop :=
  ∀ v w, v ∈ c → w ∈ nth_Z (adj g) v → w ∈ c.

(** What holds of one component. *)
Definition component_ok (g : Graph) (c : list Z) : Prop :=
  (∃ start rest, c = start :: rest ∧ ∀ v, v ∈ c → connected_to g start v)
  ∧ (∀ v, v ∈ c → 0 <= v < n g)
  ∧ closed_under_adj g c.

(** ** Building the input graph *)

(** The test that [readGraphFromCOLFile] makes on an edge before it
    stores it. *)
Definition edge_in_range (n_ : Z) (u v : Z) : bool :=
  (0 <=? u) && (u <? n_) && (0 <=? v) && (v <? n_).

(** [readGraphFromCOLFile] after the parse: the graph built from the
    vertex count [n_] of the [p] line and the pairs [(u - 1, v - 1)] of the
    [e] lines, in the order of the file. *)
Definition graph_from_edges (n_ : Z) (edges : list (Z * Z)) : Graph :=
  let g := Graph_of_size n_ in
  {| n := n g; orig_n := orig_n g;
     adj := foldl (insert_pairs_step (edge_in_range n_)) (adj g) edges;
     mapping := mapping g |}.

(** Every vertex has, for each colour below its own, a neighbour of that
    colour (uncoloured vertices carry [-1]). *)
Definition greedy_coloring (g : Graph) (col : list Z) : Prop :=
  ∀ v c, 0 <= v < n g → 0 <= c < nth_Z col v →
         ∃ w, w ∈ nth_Z (adj g) v ∧ nth_Z col w = c.

(** ** The branch of [main] for one component *)

(** The [else] branch of [main] once [subG] has been extracted, for one
    MPI process: decomposition to depth 2, then [branchAndBound] on every
    task with the shared [localBest]. *)
Definition solve_single {seconds : Type} (time_ge : seconds → seconds → bool)
    (elapsed : nat → seconds) (fuel : nat) (subG : Graph)
    (timeLimit : seconds) (w : Globals) : option (Z * list Z * Globals) :=
  let dummy := {| numColors := INF; coloring := [] |} in
  '(tasks, w) ← decomposeBnb time_ge elapsed fuel subG 0 2 [] timeLimit dummy w;
  let tasks := if bool_decide (tasks = []) then [subG] else tasks in
  '(localBest, w) ←
    foldl (λ acc task,
             '(localBest, w) ← acc;
             branchAndBound time_ge elapsed fuel task localBest timeLimit 2 w)
          (Some (ColoringSolution_default, w)) tasks;
  Some (numColors localBest, coloring localBest, w).


(** ** Invariants of the breadth-first search *)

(** The state of one breadth-first pass: [done] are the vertices of the
    components found before, [start] is the vertex the pass began at. *)
Record bfs_inv (g : Graph) (done : list Z) (start : Z) (Q : list Z)
    (visited : list bool) (comp : list Z) : Prop := mkBfsInv {
  bi_size : size_Z visited = n g;
  bi_visited : ∀ v, 0 <= v < n g →
                    (nth_Z visited v = true ↔ v ∈ done ++ comp);
  bi_nodup : NoDup (done ++ comp);
  bi_range : ∀ v, v ∈ comp → 0 <= v < n g;
  bi_queue : ∀ v, v ∈ Q → v ∈ comp;
  bi_scanned : ∀ v w, v ∈ comp → v ∉ Q → w ∈ nth_Z (adj g) v →
                      nth_Z visited w = true;
  bi_start : ∃ rest, comp = start :: rest;
  bi_conn : ∀ v, v ∈ comp → connected_to g start v
}.

(** The state between two passes. *)
Record components_inv (g : Graph) (seen : list Z) (components : list (list Z))
    (visited : list bool) : Prop := mkCompInv {
  ci_size : size_Z visited = n g;
  ci_visited : ∀ v, 0 <= v < n g →
                    (nth_Z visited v = true ↔ v ∈ mjoin components);
  ci_nodup : NoDup (mjoin components);
  ci_ok : ∀ c, c ∈ components → component_ok g c;
  ci_seen : ∀ s, s ∈ seen → nth_Z visited s = true
}.



(** ** Subgraphs and their original vertices *)

(** [h] with its original vertex [k] renamed to [nth_Z c k], among [N]
    original vertices.  Only [orig_n] and [mapping] change. *)
Definition relabel (c : list Z) (N : Z) (h : Graph) : Graph :=
  {| n := n h; orig_n := N; adj := adj h;
     mapping := (λ cls : list Z, nth_Z c <$> cls) <$> mapping h |}.

(** [g] as a root of its own: every vertex stands for itself. *)
Definition unmapped (g : Graph) : Graph :=
  {| n := n g; orig_n := n g; adj := adj g;
     mapping := (λ i, [i]) <$> seqZ 0 (n g) |}.

(** [cg] holds the entries of [ch] at the places [c], and [-1] at the
    other places below [N]. *)
Record scattered (c : list Z) (N : Z) (cg ch : list Z) : Prop :=
  mkScattered {
  sc_size : size_Z cg = N;
  sc_in : ∀ k, 0 <= k < size_Z c → nth_Z cg (nth_Z c k) = nth_Z ch k;
  sc_out : ∀ v, 0 <= v < N → v ∉ c → nth_Z cg v = -1
}.

Definition best_rel (c : list Z) (N : Z) (bg bh : ColoringSolution) : Prop :=
  numColors bg = numColors bh
  ∧ ((coloring bg = [] ∧ coloring bh = [])
     ∨ scattered c N (coloring bg) (coloring bh)).

Definition run_rel {W : Type} (c : list Z) (N : Z)
    (rg rh : option (ColoringSolution * W)) : Prop :=
  match rg, rh with
  | Some (bg, wg), Some (bh, wh) => wg = wh ∧ best_rel c N bg bh
  | None, None => True
  | _, _ => False
  end.


(** Two disjoint edges: a graph with two components. *)
Definition two_edges : Graph :=
  {| n := 4; orig_n := 4; adj := [ {[1]} ; {[0]} ; {[3]} ; {[2]} ];
     mapping := [[0]; [1]; [2]; [3]] |}.


(** ** The loop of [main] over the components *)

(** The body of the loop [for (size_t i = 0; i < components.size(); i++)]
    of [main], on [(localBestColors, localColoring)] and the globals. *)
Definition component_step {seconds : Type}
    (time_ge : seconds → seconds → bool) (elapsed : nat → seconds)
    (fuel : nat) (fullGraph : Graph) (timeLimit : seconds)
    (acc : option (Z * list Z * Globals)) (comp : list Z)
    : option (Z * list Z * Globals) :=
  '(localBestColors, localColoring, w) ← acc;
  let subG := extractSubgraph fullGraph comp in
  '(compBest, w) ←
    branchAndBound time_ge elapsed fuel subG ColoringSolution_default
                   timeLimit 0 w;
  localColoring ←
    foldl (λ acc v,
             lc ← acc;
             c ← at_checked (coloring compBest) v;
             if in_bounds lc v then Some (upd_Z lc v c) else None)
          (Some localColoring) comp;
  Some (Z.max localBestColors (numColors compBest), localColoring, w).

(** What holds of [(localBestColors, localColoring)] once the components
    [cs] have been searched without time-out. *)
Record components_done (g : Graph) (cs : list (list Z)) (lbc : Z)
    (lc : list Z) : Prop := mkDone {
  cd_nonneg : 0 <= lbc;
  cd_range : ∀ u, u ∈ mjoin cs → 0 <= nth_Z lc u < lbc;
  cd_proper : ∀ u v, u ∈ mjoin cs → v ∈ nth_Z (adj g) u →
                     nth_Z lc u ≠ nth_Z lc v;
  cd_optimal : ∀ k, colorable g k → lbc <= k
}.


(** ** Completeness of the clique search *)

(** Some member of [X] is adjacent to every member of [K]. *)
Definition dominated (g : Graph) (K X : list Z) : Prop :=
  ∃ x, x ∈ X ∧ ∀ y, y ∈ K → y ∈ nth_Z (adj g) x.

(** What a call of [bronKerbosch] on [(R, P, X)] reaches: every clique
    between [R] and [R ∪ P] has at most [b] members, unless a member of
    [X] extends it. *)
Definition bk_covers (g : Graph) (R P X : list Z) (b : Z) : Prop :=
  ∀ K, is_clique g K → (∀ r, r ∈ R → r ∈ K) →
       (∀ k, k ∈ K → k ∈ R ∨ k ∈ P) →
       size_Z K <= b ∨ dominated g K X.


(** ** The report of [main] *)

(** The edge count that [main] writes to the output file:
    [edgeCount += fullGraph.adj[i].size()] over the vertices, then
    [edgeCount /= 2] (a division of non-negative [int]s). *)
Definition edgeCount (g : Graph) : Z :=
  Z.quot (foldl (λ acc i, acc + Z.of_nat (size (nth_Z (adj g) i)))
                0 (seqZ 0 (n g)))
         2.

(** The pairs [a < b] of adjacent vertices. *)
Definition edges_of (g : Graph) : list (Z * Z) :=
  filter (λ p, p.2 ∈ nth_Z (adj g) p.1) (scan_pairs (n g)).


(** * Properties *)

(** Case analysis on the integer comparisons of a goal. *)
Ltac zcmp :=
  rewrite ?Z.gtb_ltb, ?Z.geb_leb in *;
  repeat match goal with
    | |- context [?a <? ?b] => destruct (Z.ltb_spec a b)
    | |- context [?a <=? ?b] => destruct (Z.leb_spec a b)
    | |- context [?a =? ?b] => destruct (Z.eqb_spec a b)
    end;
  simpl; try lia; try done.

(** ** The model on small graphs *)

Example addEdge_P3 :
  addEdge P3 0 2 =
    Some {| n := 3; orig_n := 3; adj := [ {[1; 2]} ; {[0; 2]} ; {[0; 1]} ];
            mapping := [[0]; [1]; [2]] |}.
Proof. reflexivity. Qed.

Example mergeVertices_P3 :
  mergeVertices P3 0 2 =
    {| n := 2; orig_n := 3; adj := [ {[1]} ; {[0]} ];
       mapping := [[0; 2]; [1]] |}.
Proof. reflexivity. Qed.

Example mergeVertices_C5 :
  mergeVertices C5 3 1 =
    {| n := 4; orig_n := 5;
       adj := [ {[2; 3]} ; {[2]} ; {[0; 1; 3]} ; {[0; 2]} ];
       mapping := [[0]; [2]; [3; 1]; [4]] |}.
Proof. reflexivity. Qed.

Example heuristicColoring_C5 : heuristicColoring C5 = (3, [0; 1; 0; 1; 2]).
Proof. reflexivity. Qed.

Example heuristicMaxClique_C5 : heuristicMaxClique C5 = Some (2, [0; 1]).
Proof. reflexivity. Qed.

Example selectBranchingPair_C5 : selectBranchingPair C5 = (0, 2).
Proof. reflexivity. Qed.

Example selectBranchingPair_K2 : selectBranchingPair K2 = (-1, -1).
Proof. reflexivity. Qed.

Example solve_C5 :
  (λ r, r.1.1) <$> solve Z.geb (λ _, 0) 100 C5 10 globals_init = Some 3.
Proof. vm_compute. reflexivity. Qed.

(** ** Vectors *)

Section Vectors.
Context {A : Type} `{Inhabited A}.
Implicit Types (l : list A) (i j : Z) (x : A).

Lemma size_upd_Z l i x : size_Z (upd_Z l i x) = size_Z l.
Proof. unfold size_Z, upd_Z. by rewrite length_insert. Qed.

Lemma length_upd_Z l i x : length (upd_Z l i x) = length l.
Proof. unfold upd_Z. by rewrite length_insert. Qed.

Lemma nth_upd_eq l i x :
  0 <= i < size_Z l → nth_Z (upd_Z l i x) i = x.
Proof.
  unfold nth_Z, upd_Z, size_Z. intros Hi.
  apply list_lookup_total_insert_eq. lia.
Qed.

Lemma nth_upd_ne l i j x :
  0 <= i → 0 <= j → i ≠ j → nth_Z (upd_Z l i x) j = nth_Z l j.
Proof.
  unfold nth_Z, upd_Z. intros Hi Hj Hne.
  apply list_lookup_total_insert_ne. lia.
Qed.

Lemma nth_upd l i j x :
  0 <= i < size_Z l → 0 <= j →
  nth_Z (upd_Z l i x) j = if decide (i = j) then x else nth_Z l j.
Proof.
  intros Hi Hj. case_decide as Hd.
  - subst. by apply nth_upd_eq.
  - apply nth_upd_ne; lia.
Qed.

Lemma upd_nth_same l i : upd_Z l i (nth_Z l i) = l.
Proof.
  unfold upd_Z, nth_Z.
  destruct (decide (Z.to_nat i < length l)%nat) as [Hlt|Hge].
  - apply list_insert_id. by apply list_lookup_lookup_total_lt.
  - apply list_insert_ge. lia.
Qed.

Lemma nth_replicate (k : nat) x i :
  0 <= i < Z.of_nat k → nth_Z (replicate k x) i = x.
Proof.
  unfold nth_Z. intros Hi. apply lookup_total_replicate_2. lia.
Qed.

Lemma in_bounds_true l i : in_bounds l i = true ↔ 0 <= i < size_Z l.
Proof. unfold in_bounds, size_Z. zcmp; intuition (lia || done). Qed.

Lemma nth_lookup l i :
  0 <= i < size_Z l → l !! Z.to_nat i = Some (nth_Z l i).
Proof.
  unfold size_Z, nth_Z. intros Hi.
  apply list_lookup_lookup_total_lt. lia.
Qed.

Lemma nth_elem_of l i : 0 <= i < size_Z l → nth_Z l i ∈ l.
Proof. intros Hi. eapply list_elem_of_lookup_2, nth_lookup, Hi. Qed.

Lemma elem_of_nth l x : x ∈ l → ∃ i, 0 <= i < size_Z l ∧ nth_Z l i = x.
Proof.
  intros [k Hk]%list_elem_of_lookup_1. exists (Z.of_nat k).
  pose proof (lookup_lt_Some _ _ _ Hk). unfold size_Z, nth_Z.
  split; [lia|]. rewrite Nat2Z.id. by apply list_lookup_total_correct.
Qed.
End Vectors.

Lemma nth_fmap_seqZ {B} `{Inhabited B} (f : Z → B) (m i : Z) :
  0 <= i < m → nth_Z (f <$> seqZ 0 m) i = f i.
Proof.
  intros Hi. unfold nth_Z.
  apply list_lookup_total_correct.
  rewrite list_lookup_fmap, lookup_seqZ_lt by lia.
  simpl. do 2 f_equal. lia.
Qed.

Lemma size_seqZ (m k : Z) : 0 <= k → size_Z (seqZ m k) = k.
Proof. intros Hk. unfold size_Z. rewrite length_seqZ. lia. Qed.

(** ** Sets in a vector *)

Lemma size_set_insert_at (a : list (gset Z)) i x :
  size_Z (set_insert_at a i x) = size_Z a.
Proof. apply size_upd_Z. Qed.

Lemma elem_of_set_insert_at (a : list (gset Z)) i x p q :
  0 <= i < size_Z a → 0 <= p →
  q ∈ nth_Z (set_insert_at a i x) p ↔ q ∈ nth_Z a p ∨ (p = i ∧ q = x).
Proof.
  intros Hi Hp. unfold set_insert_at. rewrite nth_upd by done.
  case_decide; subst; set_solver.
Qed.

Lemma set_insert_at_present (a : list (gset Z)) i x :
  x ∈ nth_Z a i → set_insert_at a i x = a.
Proof.
  intros Hin. unfold set_insert_at.
  replace ({[x]} ∪ nth_Z a i) with (nth_Z a i) by set_solver.
  apply upd_nth_same.
Qed.

(** ** [addEdge] *)

Lemma addEdge_in_range g i j :
  size_Z (adj g) = n g → 0 <= i < n g → 0 <= j < n g →
  addEdge g i j =
    Some {| n := n g; orig_n := orig_n g;
            adj := set_insert_at (set_insert_at (adj g) i j) j i;
            mapping := mapping g |}.
Proof.
  intros Hsz Hi Hj. unfold addEdge, set_insert_checked. zcmp.
  replace (in_bounds (adj g) i) with true
    by (symmetry; apply in_bounds_true; lia).
  simpl.
  replace (in_bounds (set_insert_at (adj g) i j) j) with true; [done|].
  symmetry. apply in_bounds_true. rewrite size_set_insert_at. lia.
Qed.

(** When one index is [n] or more the guard fails and the graph comes
    back as it is. *)
Lemma addEdge_guard_fails g i j :
  n g <= i ∨ n g <= j → addEdge g i j = Some g.
Proof.
  intros Hout. unfold addEdge. zcmp.
Qed.

(** C9: on vertices of the graph, [addEdge] returns a graph on which a
    second [addEdge] of the same pair changes nothing, with [n], [orig_n]
    and [mapping] kept; and when the edge is there already (each endpoint
    in the other's set) the result is the graph itself. *)
Theorem addEdge_idempotent g i j :
  size_Z (adj g) = n g → 0 <= i < n g → 0 <= j < n g →
  ∃ g', addEdge g i j = Some g' ∧ addEdge g' i j = Some g' ∧
        n g' = n g ∧ orig_n g' = orig_n g ∧ mapping g' = mapping g ∧
        (j ∈ nth_Z (adj g) i → i ∈ nth_Z (adj g) j → g' = g).
Proof.
  intros Hsz Hi Hj. eexists. split; [by apply addEdge_in_range|].
  set (a2 := set_insert_at (set_insert_at (adj g) i j) j i).
  assert (Hsz2 : size_Z a2 = n g)
    by (unfold a2; by rewrite !size_set_insert_at).
  assert (Hji : j ∈ nth_Z a2 i).
  { unfold a2. rewrite !elem_of_set_insert_at
      by (rewrite ?size_set_insert_at; lia). tauto. }
  assert (Hij : i ∈ nth_Z a2 j).
  { unfold a2. rewrite !elem_of_set_insert_at
      by (rewrite ?size_set_insert_at; lia). tauto. }
  split; [|repeat split; try done].
  - rewrite addEdge_in_range by done. simpl.
    rewrite (set_insert_at_present a2 i j) by done.
    by rewrite (set_insert_at_present a2 j i).
  - intros Hp1 Hp2. destruct g as [gn go ga gm]. simpl in *. f_equal.
    unfold a2. rewrite (set_insert_at_present ga i j) by done.
    by rewrite (set_insert_at_present ga j i).
Qed.

Lemma addEdge_idempotent_witness :
  ∃ g', addEdge K2 0 1 = Some g' ∧ addEdge g' 0 1 = Some g' ∧
        n g' = n K2 ∧ orig_n g' = orig_n K2 ∧ mapping g' = mapping K2 ∧
        (1 ∈ nth_Z (adj K2) 0 → 0 ∈ nth_Z (adj K2) 1 → g' = K2).
Proof. apply (addEdge_idempotent K2 0 1); [reflexivity | simpl; lia | simpl; lia]. Defined.

(** C10: with [i = -1] the guard [i < n && j < n] holds and the write to
    [adj[i]] is outside the vector. *)
Theorem addEdge_negative_index_out_of_bounds :
  addEdge (Graph_of_size 1) (-1) 0 = None.
Proof. reflexivity. Qed.

(** ** The checks are sound *)

Lemma forallb_seqZ (f : Z → bool) (m i : Z) :
  forallb f (seqZ 0 m) = true → 0 <= i < m → f i = true.
Proof.
  intros Hall Hi. rewrite forallb_forall in Hall. apply Hall.
  apply list_elem_of_In, elem_of_seqZ. lia.
Qed.

Lemma forallb_elements (f : Z → bool) (s : gset Z) x :
  forallb f (elements s) = true → x ∈ s → f x = true.
Proof.
  intros Hall Hx. rewrite forallb_forall in Hall. apply Hall.
  by apply list_elem_of_In, elem_of_elements.
Qed.

Lemma wfb_sound g : wfb g = true → wf g.
Proof.
  unfold wfb. rewrite !andb_true_iff.
  intros [[[H0 Ha] Hm] Hr]. split; [lia..|].
  intros i x Hi Hx.
  pose proof (forallb_elements _ _ _ (forallb_seqZ _ _ _ Hr Hi) Hx) as Hb.
  apply andb_true_iff in Hb. lia.
Qed.

Lemma symmetricb_sound g : symmetricb g = true → symmetric g.
Proof.
  intros Hs i j Hi Hj Hin.
  pose proof (forallb_elements _ _ _ (forallb_seqZ _ _ _ Hs Hi) Hin) as Hb.
  by apply bool_decide_eq_true in Hb.
Qed.

Lemma loop_freeb_sound g : loop_freeb g = true → loop_free g.
Proof.
  intros Hs i Hi. pose proof (forallb_seqZ _ _ _ Hs Hi) as Hb.
  by apply bool_decide_eq_true in Hb.
Qed.

(** ** The scan over pairs *)

Lemma elem_of_scan_pairs m a b :
  (a, b) ∈ scan_pairs m ↔ 0 <= a < b ∧ b < m.
Proof.
  unfold scan_pairs. rewrite list_elem_of_bind. split.
  - intros (x & Hin & Hx).
    apply list_elem_of_fmap in Hin as (y & Heq & Hy).
    injection Heq as -> ->. apply elem_of_seqZ in Hx, Hy. lia.
  - intros Hab. exists a. split.
    + apply list_elem_of_fmap. exists b. split; [done|].
      apply elem_of_seqZ. lia.
    + apply elem_of_seqZ. lia.
Qed.

Lemma seqZ_sorted m (k : nat) : StronglySorted Z.lt (seqZ m (Z.of_nat k)).
Proof.
  induction k as [|k IH].
  - constructor.
  - rewrite seqZ_S. apply StronglySorted_app_2; [|done|repeat constructor].
    intros x y Hx Hy. apply elem_of_seqZ in Hx.
    apply list_elem_of_singleton in Hy. lia.
Qed.

Lemma seqZ_sorted' m k : StronglySorted Z.lt (seqZ m k).
Proof.
  destruct (decide (0 <= k)) as [Hk|Hk].
  - rewrite <- (Z2Nat.id k) by done. apply seqZ_sorted.
  - replace (seqZ m k) with (@nil Z); [constructor|].
    symmetry. apply length_zero_iff_nil. rewrite length_seqZ. lia.
Qed.

Lemma scan_pairs_sorted m : StronglySorted lex_lt (scan_pairs m).
Proof.
  unfold scan_pairs.
  assert (Hgen : ∀ l : list Z, StronglySorted Z.lt l →
    StronglySorted lex_lt
      (l ≫= λ a, (λ b, (a, b)) <$> seqZ (a + 1) (m - (a + 1)))).
  { induction l as [|a l IH]; intros Hs; [constructor|].
    apply StronglySorted_cons in Hs as [Hall Hs].
    rewrite bind_cons. apply StronglySorted_app_2; [| |by apply IH].
    - intros [a1 b1] [a2 b2] H1 H2.
      apply list_elem_of_fmap in H1 as (y & Heq & Hy).
      injection Heq as -> ->.
      apply list_elem_of_bind in H2 as (x & Hin & Hx).
      apply list_elem_of_fmap in Hin as (z & Heq & Hz).
      injection Heq as -> ->.
      rewrite Forall_forall in Hall. left. simpl. by apply Hall.
    - eapply StronglySorted_fmap; [|apply seqZ_sorted'].
      intros x y Hxy. right. simpl. done. }
  apply Hgen, seqZ_sorted'.
Qed.

(** ** [selectBranchingPair] *)

Section Select.
Variable g : Graph.
Variable degrees : list Z.

Local Abbreviation passes := (select_passes g).
Local Abbreviation score := (select_score degrees).

(** The fold keeps the first pair of greatest score among those that
    pass the test. *)
Lemma select_fold (l : list (Z * Z)) v1 v2 best :
  (∀ p, p ∈ l → 0 <= score p) →
  foldl (select_step g degrees) (-1, -1, -1) l = (v1, v2, best) →
  (v1 = -1 ∧ v2 = -1 ∧ best = -1 ∧ ∀ p, p ∈ l → ¬ passes p)
  ∨ (∃ l1 l2, l = l1 ++ (v1, v2) :: l2 ∧ passes (v1, v2)
       ∧ best = score (v1, v2)
       ∧ (∀ p, p ∈ l1 → passes p → score p < best)
       ∧ (∀ p, p ∈ l2 → passes p → score p <= best)).
Proof.
  revert v1 v2 best.
  induction l as [|[i j] l IH] using rev_ind; intros v1 v2 best Hpos Hf.
  { left. simpl in Hf. injection Hf as <- <- <-.
    repeat split; try done. intros p Hp. by apply elem_of_nil in Hp. }
  rewrite foldl_snoc in Hf.
  destruct (foldl (select_step g degrees) (-1, -1, -1) l)
    as [[u1 u2] b] eqn:Hprev.
  assert (Hpos' : ∀ p, p ∈ l → 0 <= score p).
  { intros p Hp. apply Hpos, elem_of_app. by left. }
  assert (Hposij : 0 <= score (i, j)).
  { apply Hpos, elem_of_app. right. by apply list_elem_of_singleton. }
  specialize (IH u1 u2 b Hpos' eq_refl).
  unfold select_step in Hf. case_bool_decide as Hpass.
  - change (score (i, j)) with (nth_Z degrees i + nth_Z degrees j) in Hposij.
    change (passes (i, j)) with (j ∉ nth_Z (adj g) i).
    destruct (Z.gtb_spec (nth_Z degrees i + nth_Z degrees j) b) as [Hgt|Hle].
    + injection Hf as <- <- <-. right. exists l, []. repeat split; try done.
      * intros p Hp Hpp.
        destruct IH as [(_ & _ & _ & Hnone)|(l1 & l2 & -> & _ & -> & H1 & H2)].
        { by apply Hnone in Hp. }
        apply elem_of_app in Hp as [Hp|Hp].
        { specialize (H1 p Hp Hpp). lia. }
        apply elem_of_cons in Hp as [->|Hp]; [lia|].
        specialize (H2 p Hp Hpp). lia.
      * intros p Hp. by apply elem_of_nil in Hp.
    + injection Hf as <- <- <-.
      destruct IH as [(_ & _ & -> & _)|(l1 & l2 & -> & Hp12 & -> & H1 & H2)];
        [lia|].
      right. exists l1, (l2 ++ [(i, j)]). repeat split; try done.
      * by rewrite <- app_assoc.
      * intros p Hp Hpp. apply elem_of_app in Hp as [Hp|Hp]; [by apply H2|].
        apply list_elem_of_singleton in Hp as ->. done.
  - injection Hf as <- <- <-.
    destruct IH as [(-> & -> & -> & Hnone)|(l1 & l2 & -> & Hp12 & -> & H1 & H2)].
    + left. repeat split; try done. intros p Hp.
      apply elem_of_app in Hp as [Hp|Hp]; [by apply Hnone|].
      apply list_elem_of_singleton in Hp as ->. intros Hq. by apply Hq.
    + right. exists l1, (l2 ++ [(i, j)]). repeat split; try done.
      * by rewrite <- app_assoc.
      * intros p Hp Hpp. apply elem_of_app in Hp as [Hp|Hp]; [by apply H2|].
        apply list_elem_of_singleton in Hp as ->. by destruct Hpp.
Qed.
End Select.

Lemma degree_of_nonneg g i : 0 <= degree_of g i.
Proof. unfold degree_of. lia. Qed.

Lemma select_fold_scan g v1 v2 best :
  foldl (select_step g (degree_of g <$> seqZ 0 (n g))) (-1, -1, -1)
        (scan_pairs (n g)) = (v1, v2, best) →
  (v1 = -1 ∧ v2 = -1
   ∧ ∀ i j, 0 <= i < j → j < n g → j ∈ nth_Z (adj g) i)
  ∨ (0 <= v1 < v2 ∧ v2 < n g ∧ (v2 ∉ nth_Z (adj g) v1)
     ∧ (∀ i j, 0 <= i < j → j < n g → j ∉ nth_Z (adj g) i →
          degree_of g i + degree_of g j <= degree_of g v1 + degree_of g v2)
     ∧ (∀ i j, 0 <= i < j → j < n g → j ∉ nth_Z (adj g) i →
          degree_of g i + degree_of g j = degree_of g v1 + degree_of g v2 →
          lex_le (v1, v2) (i, j))).
Proof.
  intros Hf.
  assert (Hsc : ∀ i j, (i, j) ∈ scan_pairs (n g) →
    nth_Z (degree_of g <$> seqZ 0 (n g)) i
    + nth_Z (degree_of g <$> seqZ 0 (n g)) j
    = degree_of g i + degree_of g j).
  { intros i j Hin%elem_of_scan_pairs. by rewrite !nth_fmap_seqZ by lia. }
  apply select_fold in Hf.
  2:{ intros [i j] Hin. unfold select_score. simpl. rewrite Hsc by done.
      pose proof (degree_of_nonneg g i). pose proof (degree_of_nonneg g j). lia. }
  destruct Hf as [(-> & -> & _ & Hnone)|(l1 & l2 & Hl & Hpass & -> & H1 & H2)].
  - left. repeat split; try done. intros i j Hij Hj.
    destruct (decide (j ∈ nth_Z (adj g) i)) as [|Hn]; [done|].
    exfalso. apply (Hnone (i, j)); [|done]. apply elem_of_scan_pairs. lia.
  - right.
    assert (Hv : (v1, v2) ∈ scan_pairs (n g)).
    { rewrite Hl. apply elem_of_app. right. by left. }
    pose proof Hv as Hv'. apply elem_of_scan_pairs in Hv'.
    unfold select_passes, select_score in Hpass, H1, H2.
    simpl in Hpass, H1, H2. rewrite (Hsc _ _ Hv) in H1, H2.
    assert (Hcase : ∀ i j, 0 <= i < j → j < n g →
      (i, j) ∈ l1 ∨ (i, j) = (v1, v2) ∨ (i, j) ∈ l2).
    { intros i j Hij Hj.
      assert (Hin : (i, j) ∈ scan_pairs (n g)) by (apply elem_of_scan_pairs; lia).
      rewrite Hl in Hin. apply elem_of_app in Hin as [?|Hin]; [by left|].
      apply elem_of_cons in Hin as [?|?]; auto. }
    assert (Hin12 : ∀ p, p ∈ l1 ∨ p ∈ l2 → p ∈ scan_pairs (n g)).
    { intros p Hp. rewrite Hl. apply elem_of_app.
      destruct Hp; [by left|right; by right]. }
    split; [lia|]. split; [lia|]. split; [done|]. split.
    + intros i j Hij Hj Hnadj.
      destruct (Hcase i j Hij Hj) as [Hin|[Heq|Hin]].
      * specialize (H1 _ Hin Hnadj). simpl in H1.
        rewrite Hsc in H1 by auto. lia.
      * injection Heq as -> ->. lia.
      * specialize (H2 _ Hin Hnadj). simpl in H2.
        rewrite Hsc in H2 by auto. lia.
    + intros i j Hij Hj Hnadj Heq.
      destruct (Hcase i j Hij Hj) as [Hin|[Heq'|Hin]].
      * specialize (H1 _ Hin Hnadj). simpl in H1.
        rewrite Hsc in H1 by auto. lia.
      * injection Heq' as -> ->. by left.
      * right. pose proof (scan_pairs_sorted (n g)) as Hs. rewrite Hl in Hs.
        apply StronglySorted_app_1_r, StronglySorted_cons in Hs as [Hall _].
        rewrite Forall_forall in Hall. by apply Hall.
Qed.

(** C8: on a graph with symmetric adjacency, [selectBranchingPair] returns
    the sentinel [(-1, -1)] exactly when the graph is complete; otherwise
    it returns two distinct non-adjacent vertices [v1 < v2] whose degree sum
    is the greatest among all non-adjacent pairs and which come first, in
    the order of the scan, among the non-adjacent pairs of that degree
    sum. *)
Theorem selectBranchingPair_spec g v1 v2 :
  symmetric g →
  selectBranchingPair g = (v1, v2) →
  ((v1 = -1 ∧ v2 = -1) ↔ complete g)
  ∧ (¬ complete g →
     0 <= v1 < v2 ∧ v2 < n g
     ∧ (v2 ∉ nth_Z (adj g) v1) ∧ (v1 ∉ nth_Z (adj g) v2)
     ∧ (∀ i j, 0 <= i < n g → 0 <= j < n g → i ≠ j →
          j ∉ nth_Z (adj g) i →
          degree_of g i + degree_of g j <= degree_of g v1 + degree_of g v2)
     ∧ (∀ i j, 0 <= i < j → j < n g → j ∉ nth_Z (adj g) i →
          degree_of g i + degree_of g j = degree_of g v1 + degree_of g v2 →
          lex_le (v1, v2) (i, j))).
Proof.
  intros Hsym Hsel. unfold selectBranchingPair in Hsel.
  destruct (foldl _ _ _) as [[u1 u2] best] eqn:Hf.
  injection Hsel as -> ->.
  apply select_fold_scan in Hf.
  destruct Hf as [(-> & -> & Hall)|(H12 & H2 & Hn12 & Hmax & Hfirst)].
  - assert (Hc : complete g).
    { intros i j Hi Hj Hne. destruct (decide (i < j)).
      - apply Hall; lia.
      - apply Hsym; [lia..|]. apply Hall; lia. }
    split; [done|]. intros Hnc. by destruct Hnc.
  - assert (Hnc : ¬ complete g).
    { intros Hc. apply Hn12, Hc; lia. }
    split; [split; [lia|done]|]. intros _.
    assert (Hn21 : v1 ∉ nth_Z (adj g) v2).
    { intros Hin. apply Hn12, Hsym; [lia..|done]. }
    repeat split; try done; try lia.
    intros i j Hi Hj Hne Hnadj. destruct (decide (i < j)).
    + apply Hmax; [lia..|done].
    + rewrite (Z.add_comm (degree_of g i)). apply Hmax; [lia..|].
      intros Hin. apply Hnadj, Hsym; [lia..|done].
Qed.

Lemma selectBranchingPair_spec_witness :
  symmetric P3 ∧ selectBranchingPair P3 = (0, 2)
  ∧ ((0 = -1 ∧ 2 = -1) ↔ complete P3)
  ∧ (¬ complete P3 →
     0 <= 0 < 2 ∧ 2 < n P3
     ∧ (2 ∉ nth_Z (adj P3) 0) ∧ (0 ∉ nth_Z (adj P3) 2)
     ∧ (∀ i j, 0 <= i < n P3 → 0 <= j < n P3 → i ≠ j →
          j ∉ nth_Z (adj P3) i →
          degree_of P3 i + degree_of P3 j <= degree_of P3 0 + degree_of P3 2)
     ∧ (∀ i j, 0 <= i < j → j < n P3 → j ∉ nth_Z (adj P3) i →
          degree_of P3 i + degree_of P3 j = degree_of P3 0 + degree_of P3 2 →
          lex_le (0, 2) (i, j))).
Proof.
  assert (Hs : symmetric P3) by (apply symmetricb_sound; reflexivity).
  assert (He : selectBranchingPair P3 = (0, 2)) by reflexivity.
  split; [exact Hs|]. split; [exact He|].
  exact (selectBranchingPair_spec P3 0 2 Hs He).
Defined.

Lemma graph_invb_sound g : graph_invb g = true → graph_inv g.
Proof.
  unfold graph_invb. rewrite !andb_true_iff.
  intros [[[[Hw Hs] Hl] Hp] Hn]. split.
  - by apply wfb_sound.
  - by apply symmetricb_sound.
  - by apply loop_freeb_sound.
  - by apply bool_decide_eq_true in Hp.
  - lia.
Qed.

(** ** Loops that fill a vector *)

(** A loop [for a in l: m[a] = f(a)]. *)
Lemma foldl_upd_size {A} (step : list A → Z → list A) (f : Z → A) l m0 :
  (∀ m a, step m a = upd_Z m a (f a)) →
  size_Z (foldl step m0 l) = size_Z m0.
Proof.
  intros Hstep. revert m0. induction l as [|a l IH]; intros m0; [done|].
  simpl. by rewrite IH, Hstep, size_upd_Z.
Qed.

Lemma foldl_upd_nth {A} `{Inhabited A} (step : list A → Z → list A)
    (f : Z → A) l m0 p :
  (∀ m a, step m a = upd_Z m a (f a)) →
  (∀ a, a ∈ l → 0 <= a < size_Z m0) →
  0 <= p →
  nth_Z (foldl step m0 l) p = if decide (p ∈ l) then f p else nth_Z m0 p.
Proof.
  intros Hstep. revert m0.
  induction l as [|a l IH] using rev_ind; intros m0 Hl Hp.
  { rewrite decide_False; [done|]. by intros ?%elem_of_nil. }
  rewrite foldl_snoc, Hstep.
  assert (Ha : 0 <= a < size_Z m0).
  { apply Hl, elem_of_app. right. by apply list_elem_of_singleton. }
  rewrite nth_upd by (rewrite ?(foldl_upd_size step f) by done; lia).
  destruct (decide (a = p)) as [->|Hap].
  - rewrite decide_True; [done|].
    apply elem_of_app. right. by apply list_elem_of_singleton.
  - rewrite IH; [|intros; apply Hl, elem_of_app; by left|done].
    destruct (decide (p ∈ l)) as [Hin|Hnin].
    + rewrite decide_True; [done|]. apply elem_of_app. by left.
    + rewrite decide_False; [done|].
      intros [?|?%list_elem_of_singleton]%elem_of_app; congruence.
Qed.

(** A loop [for (a, b) in l: if c(a, b) { s[a].insert(b); s[b].insert(a) }]. *)
Section InsertPairs.
Variable c : Z → Z → bool.
Local Abbreviation insert_pairs_step := (insert_pairs_step c).

Lemma insert_pairs_size l a0 :
  size_Z (foldl insert_pairs_step a0 l) = size_Z a0.
Proof.
  revert a0. induction l as [|p l IH]; intros a0; [done|].
  simpl. rewrite IH. unfold insert_pairs_step.
  destruct (c p.1 p.2); by rewrite ?size_set_insert_at.
Qed.

Lemma insert_pairs_elem l a0 p q :
  (∀ a b, (a, b) ∈ l → 0 <= a < size_Z a0 ∧ 0 <= b < size_Z a0) →
  0 <= p →
  q ∈ nth_Z (foldl insert_pairs_step a0 l) p ↔
  q ∈ nth_Z a0 p
  ∨ ∃ a b, (a, b) ∈ l ∧ c a b = true ∧ ((p = a ∧ q = b) ∨ (p = b ∧ q = a)).
Proof.
  revert a0. induction l as [|[a b] l IH]; intros a0 Hl Hp.
  { simpl. split; [by left|]. intros [?|(a & b & Hin & _)]; [done|].
    by apply elem_of_nil in Hin. }
  simpl.
  destruct (Hl a b) as [Ha Hb]; [by left|].
  rewrite IH; [| |done].
  2:{ intros a' b' Hin. unfold insert_pairs_step.
      destruct (c _ _); rewrite ?size_set_insert_at; apply Hl; by right. }
  unfold insert_pairs_step. simpl. destruct (c a b) eqn:Hc.
  - rewrite !elem_of_set_insert_at by (rewrite ?size_set_insert_at; lia).
    split.
    + intros [[[?|[-> ->]]|[-> ->]]|(a' & b' & Hin & Hc' & Hpq)].
      * by left.
      * right. exists a, b. split; [by left|]. tauto.
      * right. exists a, b. split; [by left|]. tauto.
      * right. exists a', b'. split; [by right|]. tauto.
    + intros [?|(a' & b' & Hin & Hc' & Hpq)]; [tauto|].
      apply elem_of_cons in Hin as [Heq|Hin].
      * injection Heq as -> ->. left. tauto.
      * right. exists a', b'. tauto.
  - split.
    + intros [?|(a' & b' & Hin & Hc' & Hpq)]; [tauto|].
      right. exists a', b'. split; [by right|]. tauto.
    + intros [?|(a' & b' & Hin & Hc' & Hpq)]; [tauto|].
      apply elem_of_cons in Hin as [Heq|Hin].
      * injection Heq as -> ->. congruence.
      * right. exists a', b'. tauto.
Qed.
End InsertPairs.

(** ** [mergeVertices] *)

Lemma filter_all {A} (P : A → Prop) `{∀ x, Decision (P x)} (l : list A) :
  (∀ x, x ∈ l → P x) → filter P l = l.
Proof.
  induction l as [|x l IH]; intros Hall; [done|].
  rewrite filter_cons_True by (apply Hall; by left).
  f_equal. apply IH. intros y Hy. apply Hall. by right.
Qed.

Lemma merge_newIndices_eq g j :
  0 <= j < n g →
  merge_newIndices g j = seqZ 0 j ++ seqZ (j + 1) (n g - j - 1).
Proof.
  intros Hj. unfold merge_newIndices.
  replace (n g) with (j + (n g - j)) at 1 by lia.
  rewrite seqZ_app by lia.
  rewrite (seqZ_cons (0 + j)) by lia.
  rewrite filter_app, filter_cons_False by (simpl; intros Hne; by apply Hne).
  rewrite !filter_all.
  - repeat f_equal; lia.
  - intros x Hx%elem_of_seqZ. lia.
  - intros x Hx%elem_of_seqZ. lia.
Qed.

Lemma merge_newIndices_size g j :
  0 <= j < n g → size_Z (merge_newIndices g j) = n g - 1.
Proof.
  intros Hj. rewrite merge_newIndices_eq by done.
  unfold size_Z. rewrite length_app, !length_seqZ. lia.
Qed.

Lemma merge_newIndices_nth g j a :
  0 <= j < n g → 0 <= a < n g - 1 →
  nth_Z (merge_newIndices g j) a = old_index j a.
Proof.
  intros Hj Ha. rewrite merge_newIndices_eq by done.
  unfold nth_Z, old_index. destruct (Z.ltb_spec a j).
  - rewrite lookup_total_app_l by (rewrite length_seqZ; lia).
    rewrite lookup_total_seqZ_lt by lia. lia.
  - rewrite lookup_total_app_r by (rewrite length_seqZ; lia).
    rewrite length_seqZ, lookup_total_seqZ_lt by lia. lia.
Qed.

Lemma old_index_range j m a :
  0 <= j < m → 0 <= a < m - 1 →
  0 <= old_index j a < m ∧ old_index j a ≠ j.
Proof. unfold old_index. intros. destruct (Z.ltb_spec a j); lia. Qed.

Lemma old_index_inj j a b : old_index j a = old_index j b → a = b.
Proof.
  unfold old_index. destruct (Z.ltb_spec a j), (Z.ltb_spec b j); lia.
Qed.

Lemma old_index_mono j a b : a < b → old_index j a < old_index j b.
Proof.
  unfold old_index. destruct (Z.ltb_spec a j), (Z.ltb_spec b j); lia.
Qed.

Lemma old_index_merged i j :
  i ≠ j → old_index j (merged_index i j) = i.
Proof.
  unfold old_index, merged_index. intros.
  destruct (Z.ltb_spec i j); [destruct (Z.ltb_spec i j)|
                              destruct (Z.ltb_spec (i - 1) j)]; lia.
Qed.

Lemma merged_index_range i j m :
  0 <= i < m → 0 <= j < m → i ≠ j → 0 <= merged_index i j < m - 1.
Proof. unfold merged_index. intros. destruct (Z.ltb_spec i j); lia. Qed.

(** What [mapping[a]] is after the merge. *)
Lemma merge_mapping_size g i j :
  0 <= n g - 1 →
  size_Z (mapping (mergeVertices g i j)) = n g - 1.
Proof.
  intros Hn. simpl. unfold merge_mapping.
  erewrite (foldl_upd_size _
    (λ a, if nth_Z (merge_newIndices g j) a =? i
          then nth_Z (mapping g) i ++ nth_Z (mapping g) j
          else nth_Z (mapping g) (nth_Z (merge_newIndices g j) a))).
  - unfold size_Z. rewrite length_fmap, length_seqZ. lia.
  - intros m a. simpl. by destruct (_ =? _).
Qed.

Lemma merge_mapping_nth g i j a :
  0 <= j < n g → 0 <= a < n g - 1 →
  nth_Z (mapping (mergeVertices g i j)) a =
    if decide (old_index j a = i)
    then nth_Z (mapping g) i ++ nth_Z (mapping g) j
    else nth_Z (mapping g) (old_index j a).
Proof.
  intros Hj Ha. simpl. unfold merge_mapping.
  erewrite (foldl_upd_nth _
    (λ a, if nth_Z (merge_newIndices g j) a =? i
          then nth_Z (mapping g) i ++ nth_Z (mapping g) j
          else nth_Z (mapping g) (nth_Z (merge_newIndices g j) a))).
  - rewrite decide_True by (apply elem_of_seqZ; lia).
    rewrite merge_newIndices_nth by done.
    destruct (Z.eqb_spec (old_index j a) i); by case_decide.
  - intros m b. simpl. by destruct (_ =? _).
  - intros b Hb%elem_of_seqZ. unfold size_Z.
    rewrite length_fmap, length_seqZ. lia.
  - lia.
Qed.

(** What the adjacency is after the merge. *)
Lemma merge_adj_size g i j :
  0 <= n g - 1 → size_Z (adj (mergeVertices g i j)) = n g - 1.
Proof.
  intros Hn. simpl. unfold merge_adj. rewrite insert_pairs_size.
  unfold size_Z. rewrite length_replicate. lia.
Qed.

Lemma merge_adj_elem g i j p q :
  0 <= j < n g → 0 <= p →
  q ∈ nth_Z (adj (mergeVertices g i j)) p ↔
  ∃ a b, 0 <= a < b ∧ b < n g - 1
         ∧ merge_connected g i j (old_index j a) (old_index j b) = true
         ∧ ((p = a ∧ q = b) ∨ (p = b ∧ q = a)).
Proof.
  intros Hj Hp. simpl. unfold merge_adj.
  rewrite insert_pairs_elem; [|
    |done].
  2:{ intros a b Hab%elem_of_scan_pairs. unfold size_Z.
      rewrite length_replicate. lia. }
  split.
  - intros [Hin|(a & b & Hab & Hc & Hpq)].
    + destruct (decide (p < n g - 1)).
      * rewrite nth_replicate in Hin by lia. set_solver.
      * unfold nth_Z in Hin.
        rewrite list_lookup_total_alt, (proj1 (lookup_replicate_None _ _ _)) in Hin
          by lia.
        set_solver.
    + apply elem_of_scan_pairs in Hab. exists a, b.
      rewrite !merge_newIndices_nth in Hc by lia. tauto.
  - intros (a & b & Hab & Hb & Hc & Hpq). right. exists a, b.
    split; [apply elem_of_scan_pairs; lia|].
    rewrite !merge_newIndices_nth by lia. tauto.
Qed.

Lemma list_as_fmap_nth {A} `{Inhabited A} (l : list A) :
  l = nth_Z l <$> seqZ 0 (size_Z l).
Proof.
  apply list_eq. intros k. rewrite list_lookup_fmap.
  destruct (decide (k < length l)%nat) as [Hlt|Hge].
  - rewrite lookup_seqZ_lt by (unfold size_Z; lia). simpl.
    unfold nth_Z. replace (Z.to_nat (0 + Z.of_nat k)) with k by lia.
    by apply list_lookup_lookup_total_lt.
  - rewrite lookup_seqZ_ge by (unfold size_Z; lia).
    apply lookup_ge_None. lia.
Qed.

Lemma list_eq_nth {A} `{Inhabited A} (l : list A) (f : Z → A) m :
  size_Z l = m → (∀ a, 0 <= a < m → nth_Z l a = f a) →
  l = f <$> seqZ 0 m.
Proof.
  intros Hsz Hnth. rewrite (list_as_fmap_nth l), Hsz.
  apply list_fmap_ext. intros k a Hk%lookup_seqZ. apply Hnth. lia.
Qed.

Lemma sum_mapping_length g : sum_mapping g = size_Z (mjoin (mapping g)).
Proof.
  unfold sum_mapping, size_Z. induction (mapping g) as [|m l IH]; [done|].
  simpl. rewrite IH, length_app. lia.
Qed.

Lemma partition_sum g : mapping_partition g → 0 <= orig_n g →
  sum_mapping g = orig_n g.
Proof.
  intros Hp Ho. rewrite sum_mapping_length. unfold size_Z.
  unfold mapping_partition in Hp. rewrite Hp, length_seqZ. lia.
Qed.

(** The merge moves the entries of [mapping[j]] behind those of
    [mapping[i]] and leaves every entry in place otherwise. *)
Lemma merge_mapping_perm g i j :
  size_Z (mapping g) = n g → 0 <= i < n g → 0 <= j < n g → i ≠ j →
  mjoin (mapping (mergeVertices g i j)) ≡ₚ mjoin (mapping g).
Proof.
  intros Hsz Hi Hj Hne.
  set (m := nth_Z (mapping g)).
  set (F := λ k, if decide (k = i) then m i ++ m j else m k).
  assert (Hnew : mapping (mergeVertices g i j) = F <$> merge_newIndices g j).
  { rewrite (list_eq_nth (merge_newIndices g j) (old_index j) (n g - 1))
      by auto using merge_newIndices_size, merge_newIndices_nth.
    rewrite <- list_fmap_compose.
    apply list_eq_nth; [apply merge_mapping_size; lia|].
    intros a Ha. rewrite merge_mapping_nth by done. done. }
  assert (Hold : mapping g = m <$> seqZ 0 (n g)).
  { by apply list_eq_nth. }
  assert (Hperm : seqZ 0 (n g) ≡ₚ j :: merge_newIndices g j).
  { rewrite merge_newIndices_eq by done.
    replace (n g) with (j + (n g - j)) at 1 by lia.
    rewrite seqZ_app, (seqZ_cons (0 + j)) by lia.
    rewrite <- Permutation_middle.
    replace (Z.succ (0 + j)) with (j + 1) by lia.
    by replace (Z.pred (n g - j)) with (n g - j - 1) by lia. }
  assert (Hin : i ∈ merge_newIndices g j).
  { apply list_elem_of_filter. split; [done|]. apply elem_of_seqZ. lia. }
  apply elem_of_Permutation in Hin as [rest Hrest].
  assert (Hnd : NoDup (i :: rest)).
  { rewrite <- Hrest. apply NoDup_filter, NoDup_seqZ. }
  apply NoDup_cons in Hnd as [Hnotin _].
  assert (HF : F <$> rest = m <$> rest).
  { apply list_fmap_ext. intros k x Hx%list_elem_of_lookup_2.
    unfold F. rewrite decide_False; [done|]. by intros ->. }
  rewrite Hnew, Hold, Hperm, Hrest. simpl.
  change (list_fmap Z (list Z) F rest) with (F <$> rest).
  rewrite HF. unfold F. rewrite decide_True by done.
  rewrite (app_assoc (m j)).
  apply Permutation_app; [apply app_Permutation_comm|done].
Qed.

Lemma merge_wf g i j :
  0 <= i < n g → 0 <= j < n g → i ≠ j → wf (mergeVertices g i j).
Proof.
  intros Hi Hj Hne. split.
  - simpl. lia.
  - rewrite merge_adj_size by lia. done.
  - rewrite merge_mapping_size by lia. done.
  - intros p q Hp Hq. simpl in Hp |- *.
    apply merge_adj_elem in Hq as (a & b & Hab & Hb & _ & Hpq); [|done|lia].
    lia.
Qed.

Lemma merge_symmetric g i j :
  0 <= j < n g → symmetric (mergeVertices g i j).
Proof.
  intros Hj p q Hp Hq Hin.
  apply merge_adj_elem in Hin as (a & b & Hab & Hb & Hc & Hpq); [|done|lia].
  apply merge_adj_elem; [done|lia|]. exists a, b. tauto.
Qed.

Lemma merge_loop_free g i j :
  0 <= j < n g → loop_free (mergeVertices g i j).
Proof.
  intros Hj p Hp Hin.
  apply merge_adj_elem in Hin as (a & b & Hab & Hb & Hc & Hpq); [|done|lia].
  lia.
Qed.

Lemma merge_graph_inv g i j :
  graph_inv g → 0 <= i < n g → 0 <= j < n g → i ≠ j →
  graph_inv (mergeVertices g i j).
Proof.
  intros [Hwf Hsym Hlf Hpart Hle] Hi Hj Hne. split.
  - by apply merge_wf.
  - by apply merge_symmetric.
  - by apply merge_loop_free.
  - unfold mapping_partition.
    rewrite merge_mapping_perm by (done || apply Hwf). done.
  - simpl. lia.
Qed.

Lemma addEdge_graph_inv g i j :
  graph_inv g → 0 <= i < n g → 0 <= j < n g → i ≠ j →
  ∃ g', addEdge g i j = Some g' ∧ n g' = n g ∧ orig_n g' = orig_n g
        ∧ mapping g' = mapping g
        ∧ (∀ p q, 0 <= p →
             q ∈ nth_Z (adj g') p ↔
             q ∈ nth_Z (adj g) p ∨ (p = i ∧ q = j) ∨ (p = j ∧ q = i))
        ∧ graph_inv g'.
Proof.
  intros [Hwf Hsym Hlf Hpart Hle] Hi Hj Hne.
  pose proof (wf_adj _ Hwf) as Hsz.
  eexists. split; [by apply addEdge_in_range|]. simpl.
  assert (Helem : ∀ p q, 0 <= p →
    q ∈ nth_Z (set_insert_at (set_insert_at (adj g) i j) j i) p ↔
    q ∈ nth_Z (adj g) p ∨ (p = i ∧ q = j) ∨ (p = j ∧ q = i)).
  { intros p q Hp.
    rewrite !elem_of_set_insert_at by (rewrite ?size_set_insert_at; lia).
    tauto. }
  do 3 (split; [done|]). split; [exact Helem|]. split; simpl.
  - split; simpl.
    + apply Hwf.
    + by rewrite !size_set_insert_at.
    + apply Hwf.
    + intros p q Hp [Hin|[[-> ->]|[-> ->]]]%Helem; try lia.
      by apply (wf_range _ Hwf p).
  - intros p q Hp Hq [Hin|[[-> ->]|[-> ->]]]%Helem; try lia;
      apply Helem; try lia; auto.
  - intros p Hp [Hin|[[-> ->]|[-> ->]]]%Helem; try lia.
    by apply (Hlf p).
  - done.
  - done.
Qed.

(** C5: on a graph that satisfies the invariants of the data model and two
    distinct vertices [i], [j] of it, [mergeVertices] returns a graph with
    one vertex less and the same [orig_n], in which the merged vertex
    stands for the original vertices of [i] followed by those of [j] and
    every other vertex keeps its own, the sizes of the mappings still sum
    to [orig_n], no vertex is adjacent to itself, and all the invariants
    hold; [addEdge] returns a graph with the same [n], [orig_n] and
    [mapping] that satisfies the invariants. *)
Theorem merge_addEdge_invariants g i j :
  graph_inv g → 0 <= i < n g → 0 <= j < n g → i ≠ j →
  (n (mergeVertices g i j) = n g - 1
   ∧ orig_n (mergeVertices g i j) = orig_n g
   ∧ nth_Z (mapping (mergeVertices g i j)) (merged_index i j)
     = nth_Z (mapping g) i ++ nth_Z (mapping g) j
   ∧ (∀ a, 0 <= a < n g - 1 → a ≠ merged_index i j →
        nth_Z (mapping (mergeVertices g i j)) a
        = nth_Z (mapping g) (old_index j a))
   ∧ sum_mapping (mergeVertices g i j) = orig_n g
   ∧ loop_free (mergeVertices g i j)
   ∧ graph_inv (mergeVertices g i j))
  ∧ (∃ g', addEdge g i j = Some g' ∧ n g' = n g ∧ orig_n g' = orig_n g
           ∧ mapping g' = mapping g ∧ graph_inv g').
Proof.
  intros Hinv Hi Hj Hne.
  pose proof (merge_graph_inv g i j Hinv Hi Hj Hne) as Hinv'.
  split.
  - split; [done|]. split; [done|]. split; [|split; [|split; [|split]]].
    + rewrite merge_mapping_nth by auto using merged_index_range.
      by rewrite decide_True by by apply old_index_merged.
    + intros a Ha Hna. rewrite merge_mapping_nth by done.
      rewrite decide_False; [done|]. intros Heq. apply Hna.
      apply (old_index_inj j). by rewrite old_index_merged.
    + change (orig_n g) with (orig_n (mergeVertices g i j)).
      apply partition_sum; [apply (inv_partition _ Hinv')|]. simpl.
      destruct Hinv as [[Hn _ _ _] _ _ _ Hle]. lia.
    + apply (inv_loop_free _ Hinv').
    + done.
  - destruct (addEdge_graph_inv g i j Hinv Hi Hj Hne)
      as (g' & He & Hn & Ho & Hm & _ & Hg').
    by exists g'.
Qed.

Lemma merge_addEdge_invariants_witness :
  (n (mergeVertices P3 0 2) = n P3 - 1
   ∧ orig_n (mergeVertices P3 0 2) = orig_n P3
   ∧ nth_Z (mapping (mergeVertices P3 0 2)) (merged_index 0 2)
     = nth_Z (mapping P3) 0 ++ nth_Z (mapping P3) 2
   ∧ (∀ a, 0 <= a < n P3 - 1 → a ≠ merged_index 0 2 →
        nth_Z (mapping (mergeVertices P3 0 2)) a
        = nth_Z (mapping P3) (old_index 2 a))
   ∧ sum_mapping (mergeVertices P3 0 2) = orig_n P3
   ∧ loop_free (mergeVertices P3 0 2)
   ∧ graph_inv (mergeVertices P3 0 2))
  ∧ (∃ g', addEdge P3 0 2 = Some g' ∧ n g' = n P3 ∧ orig_n g' = orig_n P3
           ∧ mapping g' = mapping P3 ∧ graph_inv g').
Proof.
  apply (merge_addEdge_invariants P3 0 2).
  - apply graph_invb_sound. vm_compute. reflexivity.
  - simpl. lia.
  - simpl. lia.
  - lia.
Defined.

(** ** DSATUR *)

Section Pick.
Variable nLocal : Z.
Variables col sat deg : list Z.

Local Abbreviation pick_step := (pick_step col sat deg).

Lemma pick_fold (l : list Z) bV bS bD :
  (∀ v, v ∈ l → 0 <= v ∧ 0 <= nth_Z sat v) →
  foldl pick_step (-1, -1, -1) l = (bV, bS, bD) →
  (bV = -1 ∧ bS = -1 ∧ ∀ v, v ∈ l → nth_Z col v ≠ -1)
  ∨ (bV ∈ l ∧ nth_Z col bV = -1).
Proof.
  revert bV bS bD. induction l as [|v l IH] using rev_ind;
    intros bV bS bD Hl Hf.
  { simpl in Hf. injection Hf as <- <- <-. left.
    repeat split; try done. by intros v ?%elem_of_nil. }
  rewrite foldl_snoc in Hf.
  destruct (foldl pick_step (-1, -1, -1) l) as [[pV pS] pD] eqn:Hprev.
  assert (Hl' : ∀ v, v ∈ l → 0 <= v ∧ 0 <= nth_Z sat v).
  { intros x Hx. apply Hl, elem_of_app. by left. }
  assert (Hv : 0 <= v ∧ 0 <= nth_Z sat v).
  { apply Hl, elem_of_app. right. by apply list_elem_of_singleton. }
  specialize (IH pV pS pD Hl' eq_refl).
  assert (Hlast : v ∈ l ++ [v]).
  { apply elem_of_app. right. by apply list_elem_of_singleton. }
  unfold pick_step in Hf.
  destruct (Z.eqb_spec (nth_Z col v) (-1)) as [Hunc|Hcol].
  - destruct ((nth_Z sat v >? pS) || _) eqn:Hcmp.
    + injection Hf as <- <- <-. right. done.
    + injection Hf as <- <- <-.
      destruct IH as [(-> & -> & _)|[Hin Hc]].
      * exfalso. apply orb_false_iff in Hcmp as [Hgt _].
        rewrite Z.gtb_ltb in Hgt. apply Z.ltb_ge in Hgt. lia.
      * right. split; [|done]. apply elem_of_app. by left.
  - injection Hf as <- <- <-.
    destruct IH as [(-> & -> & Hall)|[Hin Hc]].
    + left. repeat split; try done.
      intros x [Hx|Hx%list_elem_of_singleton]%elem_of_app; subst; auto.
    + right. split; [|done]. apply elem_of_app. by left.
Qed.
End Pick.

(** [pickNextVertex] finds an uncoloured vertex whenever there is one. *)
Lemma pickNextVertex_spec nLocal col sat deg :
  (∀ v, 0 <= v < nLocal → 0 <= nth_Z sat v) →
  let v := pickNextVertex nLocal col sat deg in
  (v = -1 ∧ ∀ u, 0 <= u < nLocal → nth_Z col u ≠ -1)
  ∨ (0 <= v < nLocal ∧ nth_Z col v = -1).
Proof.
  intros Hsat. unfold pickNextVertex.
  destruct (foldl _ _ _) as [[bV bS] bD] eqn:Hf. simpl.
  apply pick_fold in Hf.
  - destruct Hf as [(-> & _ & Hall)|[Hin%elem_of_seqZ Hc]].
    + left. split; [done|]. intros u Hu. apply Hall, elem_of_seqZ. lia.
    + right. split; [lia|done].
  - intros v Hv%elem_of_seqZ. split; [lia|]. apply Hsat. lia.
Qed.

(** [first_free]: the least index not marked, or the size of the vector. *)
Lemma first_free_spec used c0 :
  let c := first_free used c0 in
  c0 <= c <= c0 + size_Z used
  ∧ (∀ k, c0 <= k < c → nth_Z used (k - c0) = true)
  ∧ (c < c0 + size_Z used → nth_Z used (c - c0) = false).
Proof.
  revert c0. induction used as [|u rest IH]; intros c0; simpl.
  { unfold size_Z. simpl. repeat split; lia. }
  unfold size_Z in *. simpl length. destruct u.
  - specialize (IH (c0 + 1)). simpl in IH.
    destruct IH as (Hr & Hall & Hfree). repeat split; try lia.
    + intros k Hk. destruct (decide (k = c0)) as [->|Hne].
      * by rewrite Z.sub_diag.
      * specialize (Hall k ltac:(lia)). unfold nth_Z in *.
        replace (Z.to_nat (k - c0)) with (S (Z.to_nat (k - (c0 + 1)))) by lia.
        done.
    + intros Hlt. specialize (Hfree ltac:(lia)). unfold nth_Z in *.
      replace (Z.to_nat (first_free rest (c0 + 1) - c0))
        with (S (Z.to_nat (first_free rest (c0 + 1) - (c0 + 1)))) by lia.
      done.
  - repeat split; try lia. intros _. by rewrite Z.sub_diag.
Qed.

(** [mark_used]: exactly the colours of the coloured neighbours are marked. *)
Lemma mark_used_spec nLocal col nbrs :
  0 <= nLocal →
  (∀ w, w ∈ nbrs → nth_Z col w ≠ -1 → 0 <= nth_Z col w < nLocal) →
  size_Z (mark_used nLocal col nbrs) = nLocal
  ∧ ∀ k, 0 <= k < nLocal →
      (nth_Z (mark_used nLocal col nbrs) k = true ↔
       ∃ w, w ∈ nbrs ∧ nth_Z col w ≠ -1 ∧ nth_Z col w = k).
Proof.
  intros Hn. unfold mark_used.
  induction nbrs as [|w nbrs IH] using rev_ind; intros Hcol.
  { simpl. split; [unfold size_Z; rewrite length_replicate; lia|].
    intros k Hk. rewrite nth_replicate by lia. split; [done|].
    by intros (w & ?%elem_of_nil & _). }
  rewrite foldl_snoc.
  destruct IH as [Hsz Hmark].
  { intros x Hx. apply Hcol, elem_of_app. by left. }
  assert (Hw : nth_Z col w ≠ -1 → 0 <= nth_Z col w < nLocal).
  { apply Hcol, elem_of_app. right. by apply list_elem_of_singleton. }
  destruct (Z.eqb_spec (nth_Z col w) (-1)) as [Hunc|Hc]; simpl.
  - split; [done|]. intros k Hk. rewrite Hmark by done. split.
    + intros (x & Hx & Hxc). exists x. split; [|done]. apply elem_of_app. by left.
    + intros (x & [Hx|Hx%list_elem_of_singleton]%elem_of_app & Hxc & Hxk);
        [|by subst]. by exists x.
  - split; [by rewrite size_upd_Z|]. intros k Hk.
    rewrite nth_upd by lia. case_decide as Hck.
    + split; [|done]. intros _. exists w. split; [|done].
      apply elem_of_app. right. by apply list_elem_of_singleton.
    + rewrite Hmark by done. split.
      * intros (x & Hx & Hxc). exists x. split; [|done].
        apply elem_of_app. by left.
      * intros (x & [Hx|Hx%list_elem_of_singleton]%elem_of_app & Hxc & Hxk);
          [|by subst]. by exists x.
Qed.

Lemma colored_count_upd col v c :
  0 <= v < size_Z col → nth_Z col v = -1 → c ≠ -1 →
  colored_count (upd_Z col v c) = S (colored_count col).
Proof.
  intros Hv Hunc Hc. unfold colored_count, upd_Z.
  pose proof (nth_lookup col v Hv) as Hlk. rewrite Hunc in Hlk.
  rewrite insert_take_drop by (unfold size_Z in Hv; lia).
  rewrite <- (take_drop_middle col (Z.to_nat v) (-1)) at 3 by done.
  rewrite !filter_app, !length_app.
  rewrite filter_cons_True, filter_cons_False by (simpl; tauto).
  simpl. lia.
Qed.

Lemma colored_count_full col :
  colored_count col = length col →
  ∀ v, 0 <= v < size_Z col → nth_Z col v ≠ -1.
Proof.
  intros Hcnt v Hv Hunc. unfold colored_count in Hcnt.
  pose proof (length_filter_lt (λ c, c ≠ -1) col (-1)) as Hlt.
  rewrite <- Hunc in Hlt at 1.
  specialize (Hlt (nth_elem_of col v Hv)). lia.
Qed.

Lemma colored_count_not_full col :
  (colored_count col < length col)%nat →
  ∃ v, 0 <= v < size_Z col ∧ nth_Z col v = -1.
Proof.
  intros Hcnt. unfold colored_count in Hcnt.
  destruct (decide (Forall (λ c, c ≠ -1) col)) as [Hall|Hnall].
  - rewrite filter_all in Hcnt; [lia|]. by apply Forall_forall.
  - apply not_Forall_Exists in Hnall; [|apply _].
    apply Exists_exists in Hnall as (c & Hin & Hc). simpl in Hc.
    apply elem_of_nth in Hin as (v & Hv & Hnth). exists v. split; [done|].
    rewrite Hnth. by apply dec_stable.
Qed.

(** On a symmetric graph the scan of [adj[w]] for the colour [c] meets
    [v] itself, which has just been given [c]: [seesC] is always true and
    no entry of [saturation] is ever changed. *)
Lemma seesC_just_colored g col v w c :
  wf g → symmetric g → size_Z col = n g →
  0 <= v < n g → w ∈ nth_Z (adj g) v →
  seesC g (upd_Z col v c) w c = true.
Proof.
  intros Hwf Hsym Hsz Hv Hw. unfold seesC.
  apply existsb_exists. exists v. split.
  - apply list_elem_of_In, elem_of_elements.
    apply Hsym; [done| |done]. by apply (wf_range _ Hwf v).
  - rewrite nth_upd_eq by lia. lia.
Qed.

Lemma update_saturation_unchanged g col sat v c :
  wf g → symmetric g → size_Z col = n g → 0 <= v < n g →
  update_saturation g (upd_Z col v c) sat v c = sat.
Proof.
  intros Hwf Hsym Hsz Hv. unfold update_saturation.
  assert (Hall : ∀ w, w ∈ elements (nth_Z (adj g) v) →
                      seesC g (upd_Z col v c) w c = true).
  { intros w Hw%elem_of_elements. by apply seesC_just_colored. }
  induction (elements (nth_Z (adj g) v)) as [|w l IH] using rev_ind; [done|].
  rewrite foldl_snoc, IH.
  - rewrite Hall; [by destruct (_ =? _)|].
    apply elem_of_app. right. by apply list_elem_of_singleton.
  - intros x Hx. apply Hall, elem_of_app. by left.
Qed.

Lemma dsatur_init_inv g : 0 <= n g → dsatur_inv g 0 (dsatur_init g).
Proof.
  intros Hn. split; simpl.
  - unfold size_Z. rewrite length_replicate. lia.
  - done.
  - intros v Hv. rewrite nth_replicate by lia. lia.
  - intros u v Hu Hv _ Hc. by rewrite nth_replicate in Hc by lia.
  - unfold colored_count.
    replace (filter _ _) with (@nil Z); [done|].
    symmetry. induction (Z.to_nat (n g)) as [|k IH]; [done|].
    simpl. by rewrite filter_cons_False by (simpl; tauto).
Qed.

(** One pass of the loop never breaks while a vertex is left, and keeps
    the colouring proper with colours below the number of passes. *)
Lemma dsatur_step_inv g deg s st :
  wf g → symmetric g → loop_free g →
  dsatur_inv g s st → 0 <= s < n g →
  ∃ st', dsatur_step g deg st = Some st' ∧ dsatur_inv g (s + 1) st'.
Proof.
  intros Hwf Hsym Hlf [Hsz Hsat Hrange Hprop Hcnt] Hs.
  unfold dsatur_step.
  assert (Hsat0 : ∀ u, 0 <= u < n g → 0 <= nth_Z (saturation st) u).
  { intros u Hu. rewrite Hsat, nth_replicate by lia. lia. }
  pose proof (pickNextVertex_spec (n g) (color st) (saturation st) deg Hsat0)
    as Hpick. simpl in Hpick.
  set (v := pickNextVertex (n g) (color st) (saturation st) deg) in *.
  destruct Hpick as [[_ Hall]|[Hv Hunc]].
  { exfalso.
    destruct (colored_count_not_full (color st)) as (u & Hu & Hcu).
    - unfold size_Z in Hsz. lia.
    - apply (Hall u); [lia|done]. }
  destruct (Z.eqb_spec v (-1)) as [|_]; [lia|].
  eexists. split; [done|].
  set (used := mark_used (n g) (color st) (elements (nth_Z (adj g) v))).
  destruct (mark_used_spec (n g) (color st) (elements (nth_Z (adj g) v)))
    as [Husz Hused]; [lia| |].
  { intros w Hw%elem_of_elements Hc.
    pose proof (wf_range _ Hwf v w Hv Hw) as Hwr.
    specialize (Hrange w Hwr). lia. }
  fold used in Husz, Hused.
  destruct (first_free_spec used 0) as (Hc0 & Hbelow & Hfree).
  set (c := first_free used 0) in *.
  assert (Hus : nth_Z used s = false).
  { destruct (nth_Z used s) eqn:Hu; [|done].
    apply Hused in Hu as (w & Hw%elem_of_elements & _ & Hws); [|lia].
    pose proof (wf_range _ Hwf v w Hv Hw) as Hwr.
    specialize (Hrange w Hwr). lia. }
  assert (Hcs : 0 <= c <= s).
  { split; [lia|]. destruct (decide (c <= s)); [done|].
    specialize (Hbelow s ltac:(lia)). rewrite Z.sub_0_r in Hbelow. congruence. }
  assert (Hcfree : nth_Z used c = false).
  { rewrite <- (Z.sub_0_r c). apply Hfree. lia. }
  assert (Hnbr : ∀ w, 0 <= w < n g → w ∈ nth_Z (adj g) v →
                      nth_Z (color st) w ≠ -1 → nth_Z (color st) w ≠ c).
  { intros w Hw Hin Hcw Heq.
    assert (nth_Z used c = true); [|congruence].
    apply Hused; [lia|]. exists w. by rewrite elem_of_elements. }
  split; simpl.
  - by rewrite size_upd_Z.
  - rewrite update_saturation_unchanged by done. done.
  - intros u Hu. rewrite nth_upd by lia. case_decide; [lia|].
    specialize (Hrange u Hu). lia.
  - intros u w Hu Hw Hin. rewrite !nth_upd by lia.
    destruct (decide (v = u)) as [Hvu|Hvu], (decide (v = w)) as [Hvw|Hvw].
    + exfalso. apply (Hlf u Hu). by rewrite <- Hvw, Hvu in Hin.
    + intros _ Hcw Heq. apply (Hnbr w); [done| |done|done].
      by rewrite Hvu.
    + intros Hcu _ Heq. apply (Hnbr u); [done| |done|done].
      apply Hsym; [done|lia|]. by rewrite Hvw.
    + by apply Hprop.
  - rewrite colored_count_upd by (done || lia). lia.
Qed.

Lemma dsatur_loop_inv g deg k s st :
  wf g → symmetric g → loop_free g →
  dsatur_inv g s st → 0 <= s → s + Z.of_nat k = n g →
  dsatur_inv g (n g) (dsatur_loop k g deg st).
Proof.
  intros Hwf Hsym Hlf. revert s st.
  induction k as [|k IH]; intros s st Hinv Hs Hk; simpl.
  - by replace (n g) with s by lia.
  - destruct (dsatur_step_inv g deg s st) as (st' & -> & Hinv');
      [done..|lia|].
    apply (IH (s + 1)); [done|lia|lia].
Qed.

Lemma used_colors_spec nLocal col :
  let k := used_colors nLocal col in
  0 <= k
  ∧ (∀ v, 0 <= v < nLocal → nth_Z col v + 1 <= k)
  ∧ (k = 0 ∨ ∃ v, 0 <= v < nLocal ∧ k = nth_Z col v + 1).
Proof.
  unfold used_colors.
  assert (Hgen : ∀ l : list Z,
    let k := foldl (λ u v, Z.max u (nth_Z col v + 1)) 0 l in
    0 <= k ∧ (∀ v, v ∈ l → nth_Z col v + 1 <= k)
    ∧ (k = 0 ∨ ∃ v, v ∈ l ∧ k = nth_Z col v + 1)).
  { induction l as [|x l IH] using rev_ind; simpl.
    - split; [done|]. split; [by intros v ?%elem_of_nil|by left].
    - rewrite foldl_snoc. destruct IH as (H0 & Hle & Hex).
      split; [lia|]. split.
      + intros v [Hv|Hv%list_elem_of_singleton]%elem_of_app.
        * specialize (Hle v Hv). lia.
        * subst. lia.
      + destruct (Z.max_spec (foldl (λ u v, Z.max u (nth_Z col v + 1)) 0 l)
                             (nth_Z col x + 1)) as [[_ ->]|[_ ->]].
        * right. exists x. split; [|done].
          apply elem_of_app. right. by apply list_elem_of_singleton.
        * destruct Hex as [?|(v & Hv & ?)]; [by left|].
          right. exists v. split; [|done]. apply elem_of_app. by left. }
  destruct (Hgen (seqZ 0 nLocal)) as (H0 & Hle & Hex).
  split; [done|]. split.
  - intros v Hv. apply Hle, elem_of_seqZ. lia.
  - destruct Hex as [?|(v & Hv%elem_of_seqZ & ?)]; [by left|].
    right. exists v. split; [lia|done].
Qed.

(** What [heuristicColoring] returns on a well-formed graph with symmetric
    adjacency and no loop. *)
Lemma heuristicColoring_spec g k colors :
  wf g → symmetric g → loop_free g →
  heuristicColoring g = (k, colors) →
  size_Z colors = n g
  ∧ proper_coloring g colors
  ∧ (∀ v, 0 <= v < n g → 0 <= nth_Z colors v < k)
  ∧ 0 <= k <= n g
  ∧ (n g = 0 → k = 0)
  ∧ (0 < n g → ∃ v, 0 <= v < n g ∧ nth_Z colors v + 1 = k).
Proof.
  intros Hwf Hsym Hlf Hh. unfold heuristicColoring in Hh.
  pose proof (wf_n _ Hwf) as Hn.
  pose proof (dsatur_loop_inv g (dsatur_degree g) (Z.to_nat (n g)) 0
                (dsatur_init g) Hwf Hsym Hlf (dsatur_init_inv g Hn)
                ltac:(lia) ltac:(lia)) as [Hsz _ Hrange Hprop Hcnt].
  injection Hh as <- <-.
  set (col := color _) in *.
  assert (Hcol : ∀ v, 0 <= v < n g → 0 <= nth_Z col v < n g).
  { intros v Hv. specialize (Hrange v Hv).
    pose proof (colored_count_full col) as Hfull.
    specialize (Hfull ltac:(unfold size_Z in Hsz; lia) v ltac:(lia)). lia. }
  destruct (used_colors_spec (n g) col) as (H0 & Hle & Hex).
  split; [done|]. split; [|split; [|split; [|split]]].
  - intros u v Hu Hv Hin. apply Hprop; try done.
    + specialize (Hcol u Hu). lia.
    + specialize (Hcol v Hv). lia.
  - intros v Hv. specialize (Hcol v Hv). specialize (Hle v Hv). lia.
  - split; [done|]. destruct Hex as [->|(v & Hv & ->)]; [done|].
    specialize (Hcol v Hv). lia.
  - intros Hz. destruct Hex as [?|(v & Hv & _)]; [done|lia].
  - intros Hpos. destruct Hex as [Hk0|(v & Hv & Hk)].
    + specialize (Hcol 0 ltac:(lia)). specialize (Hle 0 ltac:(lia)). lia.
    + exists v. by split.
Qed.

(** C3: on a graph with [n] vertices, symmetric adjacency and no loop,
    [heuristicColoring] returns [(k, colors)] where [colors] has an entry
    for every vertex, the endpoints of every edge get different colours,
    every colour lies in [0, k), [k <= n], and [k] is the greatest colour
    plus one ([0] when there is no vertex). *)
Theorem heuristicColoring_proper g k colors :
  wf g → symmetric g → loop_free g →
  heuristicColoring g = (k, colors) →
  size_Z colors = n g
  ∧ proper_coloring g colors
  ∧ (∀ v, 0 <= v < n g → 0 <= nth_Z colors v < k)
  ∧ 0 <= k <= n g
  ∧ (n g = 0 → k = 0)
  ∧ (0 < n g → ∃ v, 0 <= v < n g ∧ nth_Z colors v + 1 = k).
Proof. apply heuristicColoring_spec. Qed.

Lemma heuristicColoring_proper_witness :
  heuristicColoring C5 = (3, [0; 1; 0; 1; 2])
  ∧ size_Z [0; 1; 0; 1; 2] = n C5
  ∧ proper_coloring C5 [0; 1; 0; 1; 2]
  ∧ (∀ v, 0 <= v < n C5 → 0 <= nth_Z [0; 1; 0; 1; 2] v < 3)
  ∧ 0 <= 3 <= n C5
  ∧ (n C5 = 0 → 3 = 0)
  ∧ (0 < n C5 → ∃ v, 0 <= v < n C5 ∧ nth_Z [0; 1; 0; 1; 2] v + 1 = 3).
Proof.
  split; [reflexivity|].
  apply (heuristicColoring_proper C5 3 [0; 1; 0; 1; 2]).
  - apply wfb_sound. reflexivity.
  - apply symmetricb_sound. reflexivity.
  - apply loop_freeb_sound. reflexivity.
  - reflexivity.
Defined.

(** C1: on the graph of one edge [{0, 1}], the first pass colours vertex
    [0] with colour [0]; vertex [1] is an uncoloured neighbour of [0] whose
    only neighbour is [0] itself.  The rule of the specification raises
    [saturation[1]] to [1]; after the pass of the code it is still [0]. *)
Theorem dsatur_step_K2_saturation :
  dsatur_step K2 (dsatur_degree K2) (dsatur_init K2)
  = Some {| color := [0; -1]; saturation := [0; 0] |}
  ∧ nth_Z (adj K2) 0 = {[1]} ∧ nth_Z (adj K2) 1 = {[0]}
  ∧ spec_update_saturation K2 [0; -1] [0; 0] 0 0 = [0; 1]
  ∧ update_saturation K2 [0; -1] [0; 0] 0 0 = [0; 0].
Proof. repeat split; reflexivity. Qed.

(** ** Bron-Kerbosch *)

Lemma pivot_count_nonneg ad P u : 0 <= pivot_count ad P u.
Proof. unfold pivot_count, size_Z. lia. Qed.

(** The pivot has the greatest count among the members of [P ++ X]. *)
Lemma choose_pivot_max ad P X u :
  u ∈ P ++ X →
  pivot_count ad P u <= pivot_count ad P (choose_pivot ad P X).
Proof.
  unfold choose_pivot.
  assert (Hgen : ∀ l : list Z,
    let r := foldl (λ '(pivot, maxCount) u,
                      let count := pivot_count ad P u in
                      if count >? maxCount then (u, count) else (pivot, maxCount))
                   (-1, -1) l in
    (l = [] ∧ r = (-1, -1))
    ∨ (r.2 = pivot_count ad P r.1 ∧ ∀ u, u ∈ l → pivot_count ad P u <= r.2)).
  { induction l as [|x l IH] using rev_ind; [by left|].
    right. rewrite foldl_snoc. simpl in IH.
    destruct (foldl _ _ l) as [pv mc]. simpl.
    pose proof (pivot_count_nonneg ad P x) as Hx.
    destruct (Z.gtb_spec (pivot_count ad P x) mc) as [Hgt|Hle]; simpl.
    - split; [done|].
      intros v [Hv|Hv%list_elem_of_singleton]%elem_of_app; [|subst; lia].
      destruct IH as [[-> _]|[_ Hall]]; [by apply elem_of_nil in Hv|].
      specialize (Hall v Hv). simpl in Hall. lia.
    - destruct IH as [[_ Heq]|[Hmc Hall]].
      + injection Heq as -> ->. lia.
      + split; [done|].
        intros v [Hv|Hv%list_elem_of_singleton]%elem_of_app; [|subst; lia].
        by apply Hall. }
  intros Hu. destruct (Hgen (P ++ X)) as [[Hnil _]|[Heq Hall]].
  - rewrite Hnil in Hu. by apply elem_of_nil in Hu.
  - simpl in Heq. rewrite <- Heq. by apply Hall.
Qed.

Lemma length_filter_filter {A} (Q1 Q2 : A → Prop)
    `{∀ x, Decision (Q1 x)} `{∀ x, Decision (Q2 x)} (l : list A) :
  (length (filter Q1 (filter Q2 l)) <= length (filter Q1 l))%nat.
Proof.
  induction l as [|x l IH]; [done|].
  rewrite (filter_cons Q2). destruct (decide (Q2 x)).
  - rewrite !(filter_cons Q1). destruct (decide (Q1 x)); simpl; lia.
  - rewrite (filter_cons Q1). destruct (decide (Q1 x)); simpl; lia.
Qed.

Section BronKerbosch.
Variable g : Graph.
Hypothesis Hwf : wf g.
Hypothesis Hsym : symmetric g.
Hypothesis Hlf : loop_free g.

Lemma is_clique_snoc R v :
  is_clique g R → 0 <= v < n g → (∀ r, r ∈ R → v ∈ nth_Z (adj g) r) →
  is_clique g (R ++ [v]).
Proof.
  intros (Hnd & Hrange & Hadj) Hv Hvadj.
  assert (Hfresh : v ∉ R).
  { intros Hin. apply (Hlf v Hv). by apply Hvadj. }
  split; [|split].
  - apply NoDup_app. split; [done|]. split; [|apply NoDup_singleton].
    intros x Hx ->%list_elem_of_singleton. done.
  - intros x [Hx|Hx%list_elem_of_singleton]%elem_of_app; [auto|by subst].
  - intros x y [Hx|Hx%list_elem_of_singleton]%elem_of_app
               [Hy|Hy%list_elem_of_singleton]%elem_of_app Hne; subst.
    + by apply Hadj.
    + by apply Hvadj.
    + apply Hsym; [by apply Hrange|done|]. by apply Hvadj.
    + done.
Qed.

Lemma candidates_filter P R v :
  candidates g P R →
  candidates g (filter (λ w, w ∈ nth_Z (adj g) v) P) (R ++ [v]).
Proof.
  intros Hc p [Hadj Hp]%list_elem_of_filter.
  destruct (Hc p Hp) as [Hr Hall]. split; [done|].
  intros r [Hr'|Hr'%list_elem_of_singleton]%elem_of_app; [auto|by subst].
Qed.

(** The loop keeps [best] a clique when the recursive call does. *)
Lemma bk_loop_sound rec R :
  is_clique g R →
  (∀ R' P' X' b b', is_clique g R' → candidates g P' R' → best_ok g b →
     rec R' P' X' b = Some b' → best_ok g b') →
  ∀ vs P X best best',
    candidates g vs R → candidates g P R → best_ok g best →
    bk_loop rec (adj g) R vs P X best = Some best' → best_ok g best'.
Proof.
  intros HR Hrec. induction vs as [|v vs IH];
    intros P X best best' Hvs HP Hb Hrun; simpl in Hrun.
  { by injection Hrun as <-. }
  destruct (rec _ _ _ _) as [b1|] eqn:Hcall; simpl in Hrun; [|done].
  assert (Hb1 : best_ok g b1).
  { eapply Hrec; [| |exact Hb|exact Hcall].
    - destruct (Hvs v) as [Hv Hadj]; [by left|]. by apply is_clique_snoc.
    - by apply candidates_filter. }
  case_bool_decide; [by injection Hrun as <-|].
  eapply IH; [| |exact Hb1|exact Hrun].
  - intros p Hp. apply Hvs. by right.
  - intros p [_ Hp]%list_elem_of_filter. by apply HP.
Qed.

Lemma bronKerbosch_sound fuel :
  ∀ R P X best best',
    is_clique g R → candidates g P R → best_ok g best →
    bronKerbosch fuel (adj g) R P X best = Some best' → best_ok g best'.
Proof.
  induction fuel as [|fuel IH]; intros R P X best best' HR HP Hb Hrun;
    simpl in Hrun; [done|].
  destruct (bool_decide (P = []) && bool_decide (X = [])).
  - destruct (size_Z R >? best.1); injection Hrun as <-; [|done].
    by split.
  - eapply (bk_loop_sound _ R HR IH); [| |exact Hb|exact Hrun]; [|done].
    intros p [_ Hp]%list_elem_of_filter. by apply HP.
Qed.
End BronKerbosch.

(** The loop returns when the recursive call returns on every shorter [P]. *)
Lemma bk_loop_returns rec ad R (bound : nat) :
  (∀ R' P' X' b, (length P' < bound)%nat → is_Some (rec R' P' X' b)) →
  ∀ vs P X best,
    (∀ v, v ∈ vs → (length (filter (λ w, w ∈ nth_Z ad v) P) < bound)%nat) →
    is_Some (bk_loop rec ad R vs P X best).
Proof.
  intros Hrec. induction vs as [|v vs IH]; intros P X best Hvs; simpl; [done|].
  destruct (Hrec (R ++ [v]) (filter (λ w, w ∈ nth_Z ad v) P)
                 (filter (λ w, w ∈ nth_Z ad v) X) best) as [b1 ->].
  { apply Hvs. by left. }
  simpl. case_bool_decide; [done|]. apply IH.
  intros u Hu. eapply Nat.le_lt_trans; [apply length_filter_filter|].
  apply Hvs. by right.
Qed.

(** [bronKerbosch] returns as soon as [fuel] exceeds the length of [P]. *)
Lemma bronKerbosch_returns ad fuel :
  ∀ R P X best, (length P < fuel)%nat →
                is_Some (bronKerbosch fuel ad R P X best).
Proof.
  induction fuel as [|fuel IH]; intros R P X best Hlen; [lia|]. simpl.
  destruct (bool_decide (P = []) && bool_decide (X = [])).
  { by destruct (size_Z R >? best.1). }
  apply (bk_loop_returns _ ad R fuel IH).
  intros v [Hnadj Hv]%list_elem_of_filter.
  assert (Hle : pivot_count ad P v <= pivot_count ad P (choose_pivot ad P X)).
  { apply choose_pivot_max, elem_of_app. by left. }
  pose proof (length_filter_lt (λ w, w ∈ nth_Z ad (choose_pivot ad P X)) P v
                Hv Hnadj) as Hlt.
  unfold pivot_count, size_Z in Hle. lia.
Qed.

Lemma heuristicMaxClique_spec g :
  wf g → symmetric g → loop_free g →
  ∃ size C, heuristicMaxClique g = Some (size, C)
            ∧ is_clique g C ∧ size = size_Z C.
Proof.
  intros Hwf Hsym Hlf. unfold heuristicMaxClique.
  destruct (bronKerbosch_returns (adj g)
              (S (length (seqZ 0 (size_Z (adj g))))) []
              (seqZ 0 (size_Z (adj g))) [] (0, [])) as [[size C] Hrun]; [lia|].
  exists size, C. split; [done|].
  apply (bronKerbosch_sound g Hsym Hlf) in Hrun as [Hsize Hcl]; [done|..].
  - split; [constructor|]. split; [by intros v ?%elem_of_nil|].
    by intros u v ?%elem_of_nil.
  - intros p Hp%elem_of_seqZ. rewrite (wf_adj _ Hwf) in Hp. split; [lia|].
    by intros r ?%elem_of_nil.
  - split; [done|]. split; [constructor|]. split; [by intros v ?%elem_of_nil|].
    by intros u v ?%elem_of_nil.
Qed.

(** C4: on a well-formed graph with symmetric adjacency and no loop,
    [heuristicMaxClique] returns a pair [(size, C)] where the members of
    [C] are distinct vertices of the graph, adjacent two by two, and
    [size] is the number of members of [C]. *)
Theorem heuristicMaxClique_clique g :
  wf g → symmetric g → loop_free g →
  ∃ size C, heuristicMaxClique g = Some (size, C)
            ∧ is_clique g C ∧ size = size_Z C.
Proof. apply heuristicMaxClique_spec. Qed.

Lemma heuristicMaxClique_clique_witness :
  ∃ size C, heuristicMaxClique C5 = Some (size, C)
            ∧ is_clique C5 C ∧ size = size_Z C.
Proof.
  apply (heuristicMaxClique_clique C5).
  - apply wfb_sound. reflexivity.
  - apply symmetricb_sound. reflexivity.
  - apply loop_freeb_sound. reflexivity.
Defined.

(** ** Lifting a colouring to the original vertices *)

Lemma input_graphb_sound g0 : input_graphb g0 = true → input_graph g0.
Proof.
  unfold input_graphb. rewrite !andb_true_iff.
  intros [[[[Hw Hs] Hl] Ho] Hm]. split.
  - by apply wfb_sound.
  - by apply symmetricb_sound.
  - by apply loop_freeb_sound.
  - lia.
  - by apply bool_decide_eq_true in Hm.
Qed.

Lemma partition_range g i x :
  mapping_partition g → size_Z (mapping g) = n g →
  0 <= i < n g → x ∈ nth_Z (mapping g) i → 0 <= x < orig_n g.
Proof.
  intros Hp Hsz Hi Hx.
  assert (Hin : x ∈ mjoin (mapping g)).
  { apply list_elem_of_join. exists (nth_Z (mapping g) i). split; [done|].
    apply nth_elem_of. lia. }
  unfold mapping_partition in Hp. rewrite Hp in Hin.
  apply elem_of_seqZ in Hin. lia.
Qed.

Lemma partition_cover g x :
  mapping_partition g → size_Z (mapping g) = n g →
  0 <= x < orig_n g → ∃ i, 0 <= i < n g ∧ x ∈ nth_Z (mapping g) i.
Proof.
  intros Hp Hsz Hx.
  assert (Hin : x ∈ mjoin (mapping g)).
  { unfold mapping_partition in Hp. rewrite Hp. apply elem_of_seqZ. lia. }
  apply list_elem_of_join in Hin as (m & Hxm & Hm).
  apply elem_of_nth in Hm as (i & Hi & <-). exists i. split; [lia|done].
Qed.

Lemma lift_coloring_spec g col :
  0 <= orig_n g →
  (∀ i x, 0 <= i < n g → x ∈ nth_Z (mapping g) i → 0 <= x < orig_n g) →
  size_Z (lift_coloring g col) = orig_n g
  ∧ ∀ p, 0 <= p < orig_n g →
      (nth_Z (lift_coloring g col) p = -1
       ∧ ∀ i, 0 <= i < n g → p ∉ nth_Z (mapping g) i)
      ∨ (∃ i, 0 <= i < n g ∧ p ∈ nth_Z (mapping g) i
              ∧ nth_Z (lift_coloring g col) p = nth_Z col i).
Proof.
  intros Ho Hrange. unfold lift_coloring.
  set (inner := lift_vertex g col).
  set (out0 := replicate (Z.to_nat (orig_n g)) (-1)).
  assert (Hgen : ∀ l : list Z, (∀ i, i ∈ l → 0 <= i < n g) →
    size_Z (foldl inner out0 l) = orig_n g
    ∧ ∀ p, 0 <= p < orig_n g →
        (nth_Z (foldl inner out0 l) p = -1
         ∧ ∀ i, i ∈ l → p ∉ nth_Z (mapping g) i)
        ∨ (∃ i, i ∈ l ∧ p ∈ nth_Z (mapping g) i
                ∧ nth_Z (foldl inner out0 l) p = nth_Z col i)).
  { induction l as [|i l IH] using rev_ind; intros Hl.
    - simpl. split; [unfold out0, size_Z; rewrite length_replicate; lia|].
      intros p Hp. left. split; [unfold out0; by rewrite nth_replicate by lia|].
      by intros i ?%elem_of_nil.
    - destruct IH as [Hsz Hnth].
      { intros x Hx. apply Hl, elem_of_app. by left. }
      assert (Hi : 0 <= i < n g).
      { apply Hl, elem_of_app. right. by apply list_elem_of_singleton. }
      rewrite foldl_snoc. set (prev := foldl inner out0 l) in *.
      unfold inner, lift_vertex. split.
      + by rewrite (foldl_upd_size _ (λ _, nth_Z col i)).
      + intros p Hp.
        rewrite (foldl_upd_nth _ (λ _, nth_Z col i)); [|done| |lia].
        2:{ intros x Hx. rewrite Hsz. by apply (Hrange i). }
        case_decide as Hin.
        * right. exists i. split; [|done].
          apply elem_of_app. right. by apply list_elem_of_singleton.
        * destruct (Hnth p Hp) as [[Hm1 Hnone]|(k & Hk & Hpk & Hc)].
          -- left. split; [done|].
             intros k [Hk|Hk%list_elem_of_singleton]%elem_of_app;
               [by apply Hnone|by subst].
          -- right. exists k. split; [|done]. apply elem_of_app. by left. }
  destruct (Hgen (seqZ 0 (n g))) as [Hsz Hnth].
  { intros i Hi%elem_of_seqZ. lia. }
  split; [done|]. intros p Hp.
  destruct (Hnth p Hp) as [[Hm1 Hnone]|(k & Hk%elem_of_seqZ & Hpk & Hc)].
  - left. split; [done|]. intros i Hi. apply Hnone, elem_of_seqZ. lia.
  - right. exists k. split; [lia|done].
Qed.

Lemma join_NoDup_unique (l : list (list Z)) i k a b x :
  NoDup (mjoin l) → l !! i = Some a → l !! k = Some b →
  x ∈ a → x ∈ b → i = k.
Proof.
  revert i k. induction l as [|m l IH]; intros i k Hnd Hi Hk Ha Hb; [done|].
  simpl in Hnd. apply NoDup_app in Hnd as (_ & Hdisj & Hnd).
  destruct i as [|i], k as [|k]; simpl in Hi, Hk.
  - done.
  - injection Hi as ->. exfalso. apply (Hdisj x Ha).
    apply list_elem_of_join. exists b. split; [done|].
    by eapply list_elem_of_lookup_2.
  - injection Hk as ->. exfalso. apply (Hdisj x Hb).
    apply list_elem_of_join. exists a. split; [done|].
    by eapply list_elem_of_lookup_2.
  - f_equal. by apply IH.
Qed.

Lemma partition_unique g i k x :
  mapping_partition g → size_Z (mapping g) = n g →
  0 <= i < n g → 0 <= k < n g →
  x ∈ nth_Z (mapping g) i → x ∈ nth_Z (mapping g) k → i = k.
Proof.
  intros Hp Hsz Hi Hk Hxi Hxk.
  assert (Hnd : NoDup (mjoin (mapping g))).
  { unfold mapping_partition in Hp. rewrite Hp. apply NoDup_seqZ. }
  assert (Heq : Z.to_nat i = Z.to_nat k); [|lia].
  apply (join_NoDup_unique (mapping g) _ _ (nth_Z (mapping g) i)
           (nth_Z (mapping g) k) x); [done| | |done..];
    apply nth_lookup; lia.
Qed.

(** In the lifted colouring every original vertex of [mapping[i]] has the
    colour of [i]. *)
Lemma lift_coloring_nth g col i x :
  graph_inv g → 0 <= orig_n g → 0 <= i < n g → x ∈ nth_Z (mapping g) i →
  nth_Z (lift_coloring g col) x = nth_Z col i.
Proof.
  intros Hinv Ho Hi Hx.
  pose proof (inv_wf _ Hinv) as Hwf.
  pose proof (inv_partition _ Hinv) as Hpart.
  pose proof (wf_mapping _ Hwf) as Hsz.
  destruct (lift_coloring_spec g col Ho) as [_ Hlift].
  { intros k y Hk Hy. by apply (partition_range g k y). }
  destruct (Hlift x (partition_range g i x Hpart Hsz Hi Hx))
    as [[_ Hnone]|(k & Hk & Hxk & ->)].
  - by destruct (Hnone i Hi).
  - by rewrite (partition_unique g i k x).
Qed.

(** A proper colouring of a graph of the search tree lifts to a proper
    colouring of the root. *)
Lemma lift_coloring_proper g0 g col k :
  reach_inv g0 g → 0 <= n g0 →
  proper_coloring g col →
  (∀ v, 0 <= v < n g → 0 <= nth_Z col v < k) →
  size_Z (lift_coloring g col) = n g0
  ∧ proper_coloring g0 (lift_coloring g col)
  ∧ ∀ v, 0 <= v < n g0 → 0 <= nth_Z (lift_coloring g col) v < k.
Proof.
  intros [Hinv Horig Hsound] Hn0 Hprop Hrange.
  pose proof (inv_wf _ Hinv) as Hwf.
  pose proof (inv_partition _ Hinv) as Hpart.
  destruct (lift_coloring_spec g col) as [Hsz Hlift]; [lia| |].
  { intros i x Hi Hx. by apply (partition_range g i x Hpart (wf_mapping _ Hwf)). }
  rewrite Horig in Hsz, Hlift.
  assert (Hcov : ∀ p, 0 <= p < n g0 →
    ∃ i, 0 <= i < n g ∧ p ∈ nth_Z (mapping g) i
         ∧ nth_Z (lift_coloring g col) p = nth_Z col i).
  { intros p Hp. destruct (Hlift p Hp) as [[_ Hnone]|?]; [|done].
    destruct (partition_cover g p Hpart (wf_mapping _ Hwf)) as (i & Hi & Hin);
      [lia|].
    by destruct (Hnone i Hi). }
  split; [done|]. split.
  - intros a b Ha Hb Hab.
    destruct (Hcov a Ha) as (i & Hi & Hai & ->).
    destruct (Hcov b Hb) as (j & Hj & Hbj & ->).
    apply Hprop; [done..|]. by apply (Hsound a b).
  - intros v Hv. destruct (Hcov v Hv) as (i & Hi & _ & ->). by apply Hrange.
Qed.

(** ** The invariant of the search tree *)

Lemma join_singletons (l : list Z) : mjoin ((λ i, [i]) <$> l) = l.
Proof. induction l as [|x l IH]; [done|]. simpl. by f_equal. Qed.

Lemma input_graph_inv g0 : input_graph g0 → reach_inv g0 g0.
Proof.
  intros [Hwf Hsym Hlf Ho Hm]. split; [split|done|]; try done.
  - unfold mapping_partition. by rewrite Hm, join_singletons, Ho.
  - lia.
  - intros a b i j Ha Hb Hab Hi Hj Hai Hbj.
    rewrite Hm, nth_fmap_seqZ in Hai, Hbj by done.
    apply list_elem_of_singleton in Hai, Hbj. by subst.
Qed.

Lemma in_class_range g i j p x :
  0 <= i < n g → 0 <= j < n g → 0 <= p < n g - 1 →
  in_class i j p x → 0 <= x < n g.
Proof.
  intros Hi Hj Hp [->|[_ ->]]; [|done].
  by apply old_index_range.
Qed.

Lemma merge_mapping_class g i j p a :
  0 <= j < n g → 0 <= p < n g - 1 →
  a ∈ nth_Z (mapping (mergeVertices g i j)) p →
  ∃ x, in_class i j p x ∧ a ∈ nth_Z (mapping g) x.
Proof.
  intros Hj Hp. rewrite merge_mapping_nth by done. case_decide as Hd.
  - intros [Ha|Ha]%elem_of_app.
    + exists i. split; [by left|done].
    + exists j. split; [by right|done].
  - intros Ha. exists (old_index j p). split; [by left|done].
Qed.

Lemma merge_connected_class g i j p q x y :
  p ≠ q → in_class i j p x → in_class i j q y →
  y ∈ nth_Z (adj g) x →
  merge_connected g i j (old_index j p) (old_index j q) = true.
Proof.
  intros Hpq Hx Hy Hadj. unfold merge_connected.
  assert (Hinj : old_index j p ≠ old_index j q).
  { intros Heq. by apply Hpq, (old_index_inj j). }
  destruct (Z.eqb_spec (old_index j p) i) as [Hpi|Hpi]; simpl.
  - destruct Hy as [->|[Hqi _]]; [|congruence].
    apply orb_true_iff.
    destruct Hx as [->|[_ ->]].
    + left. apply bool_decide_eq_true. by rewrite <- Hpi.
    + right. by apply bool_decide_eq_true.
  - destruct Hx as [->|[? _]]; [|done].
    destruct (Z.eqb_spec (old_index j q) i) as [Hqi|Hqi]; simpl.
    + apply orb_true_iff. destruct Hy as [->|[_ ->]].
      * left. apply bool_decide_eq_true. by rewrite <- Hqi.
      * right. by apply bool_decide_eq_true.
    + destruct Hy as [->|[? _]]; [|done]. by apply bool_decide_eq_true.
Qed.

Lemma merge_adj_class g i j p q x y :
  symmetric g → 0 <= i < n g → 0 <= j < n g →
  0 <= p < n g - 1 → 0 <= q < n g - 1 → p ≠ q →
  in_class i j p x → in_class i j q y →
  y ∈ nth_Z (adj g) x →
  q ∈ nth_Z (adj (mergeVertices g i j)) p.
Proof.
  intros Hsym Hi Hj Hp Hq Hpq Hx Hy Hadj.
  apply merge_adj_elem; [done|lia|].
  destruct (decide (p < q)).
  - exists p, q. split; [lia|]. split; [lia|]. split; [|by left].
    by apply (merge_connected_class g i j p q x y).
  - exists q, p. split; [lia|]. split; [lia|]. split; [|by right].
    apply (merge_connected_class g i j q p y x); [done..|].
    apply Hsym; [by apply (in_class_range g i j p)
                |by apply (in_class_range g i j q)|done].
Qed.

Lemma merge_edge_sound g0 g i j :
  reach_inv g0 g → 0 <= i < n g → 0 <= j < n g → i ≠ j →
  j ∉ nth_Z (adj g) i →
  edge_sound g0 (mergeVertices g i j).
Proof.
  intros [Hinv Ho Hsound] Hi Hj Hne Hnadj a b p q Ha Hb Hab Hp Hq Hap Hbq.
  simpl in Hp, Hq.
  pose proof (inv_symmetric _ Hinv) as Hsym.
  pose proof (inv_loop_free _ Hinv) as Hlf.
  apply merge_mapping_class in Hap as (x & Hx & Hax); [|done..].
  apply merge_mapping_class in Hbq as (y & Hy & Hby); [|done..].
  pose proof (in_class_range g i j p x Hi Hj Hp Hx) as Hxr.
  pose proof (in_class_range g i j q y Hi Hj Hq Hy) as Hyr.
  assert (Hadj : y ∈ nth_Z (adj g) x) by by apply (Hsound a b).
  assert (Hxy : x ≠ y).
  { intros ->. by apply (Hlf y). }
  assert (Hpq : p ≠ q).
  { intros ->. destruct Hx as [->|[Hqi ->]], Hy as [->|[Hqi' ->]];
      try done.
    - rewrite Hqi' in Hadj. done.
    - rewrite Hqi in Hadj. apply Hnadj. by apply Hsym. }
  by apply (merge_adj_class g i j p q x y).
Qed.

Lemma merge_reach_inv g0 g i j :
  reach_inv g0 g → 0 <= i < n g → 0 <= j < n g → i ≠ j →
  j ∉ nth_Z (adj g) i →
  reach_inv g0 (mergeVertices g i j).
Proof.
  intros Hr Hi Hj Hne Hnadj. split.
  - apply merge_graph_inv; [apply (ri_inv _ _ Hr)|done..].
  - simpl. apply (ri_orig _ _ Hr).
  - by apply merge_edge_sound.
Qed.

Lemma addEdge_reach_inv g0 g g' i j :
  reach_inv g0 g → 0 <= i < n g → 0 <= j < n g → i ≠ j →
  addEdge g i j = Some g' →
  reach_inv g0 g'.
Proof.
  intros [Hinv Ho Hsound] Hi Hj Hne He.
  destruct (addEdge_graph_inv g i j Hinv Hi Hj Hne)
    as (g1 & He1 & Hn & Ho1 & Hm & Helem & Hinv1).
  rewrite He in He1. injection He1 as <-. split; [done|congruence|].
  intros a b p q Ha Hb Hab Hp Hq Hap Hbq. rewrite Hn in Hp, Hq.
  rewrite Hm in Hap, Hbq. apply Helem; [lia|]. left.
  by apply (Hsound a b).
Qed.

Lemma reachable_inv g0 g :
  input_graph g0 → reachable g0 g → reach_inv g0 g.
Proof.
  intros Hin Hreach.
  induction Hreach as [|g i j _ IH Hi Hj Hne Hnadj
                        |g g' i j _ IH Hi Hj Hne Hnadj He].
  - by apply input_graph_inv.
  - exact (merge_reach_inv g0 g i j IH Hi Hj Hne Hnadj).
  - exact (addEdge_reach_inv g0 g g' i j IH Hi Hj Hne He).
Qed.

(** C2: for a graph [g] of the search tree of an input graph [g0], when
    the DSATUR bound [ub] is below [bestSolution.numColors] the critical
    section stores [ub] and the lifted colouring, in which every original
    vertex of [mapping[i]] has the colour of the current vertex [i]; the
    stored colouring has one entry for every original vertex, gives
    different colours to the endpoints of every edge of [g0], and has all
    its entries in [0, numColors). *)
Theorem update_best_proper g0 g ub col best :
  input_graph g0 → reachable g0 g →
  heuristicColoring g = (ub, col) →
  ub < numColors best →
  numColors (update_best g ub col best) = ub
  ∧ (∀ i orig, 0 <= i < n g → orig ∈ nth_Z (mapping g) i →
       nth_Z (coloring (update_best g ub col best)) orig = nth_Z col i)
  ∧ size_Z (coloring (update_best g ub col best)) = n g0
  ∧ proper_coloring g0 (coloring (update_best g ub col best))
  ∧ ∀ v, 0 <= v < n g0 →
         0 <= nth_Z (coloring (update_best g ub col best)) v
           < numColors (update_best g ub col best).
Proof.
  intros Hin Hreach Hh Hlt.
  pose proof (reachable_inv g0 g Hin Hreach) as Hr.
  pose proof (ri_inv _ _ Hr) as Hinv.
  pose proof (wf_n _ (in_wf _ Hin)) as Hn0.
  destruct (heuristicColoring_spec g ub col (inv_wf _ Hinv)
              (inv_symmetric _ Hinv) (inv_loop_free _ Hinv) Hh)
    as (_ & Hprop & Hrange & _).
  destruct (lift_coloring_proper g0 g col ub Hr Hn0 Hprop Hrange)
    as (Hsz & Hp0 & Hr0).
  unfold update_best. destruct (Z.ltb_spec ub (numColors best)); [|lia].
  simpl. split; [done|]. split; [|done].
  intros i orig Hi Horig. apply lift_coloring_nth; [done| |done..].
  rewrite (ri_orig _ _ Hr). done.
Qed.

Lemma update_best_proper_witness :
  numColors (update_best (mergeVertices P3 0 2) 2 [0; 1] ColoringSolution_default) = 2
  ∧ (∀ i orig, 0 <= i < n (mergeVertices P3 0 2) →
       orig ∈ nth_Z (mapping (mergeVertices P3 0 2)) i →
       nth_Z (coloring (update_best (mergeVertices P3 0 2) 2 [0; 1]
                                    ColoringSolution_default)) orig
       = nth_Z [0; 1] i)
  ∧ size_Z (coloring (update_best (mergeVertices P3 0 2) 2 [0; 1]
                                  ColoringSolution_default)) = n P3
  ∧ proper_coloring P3
      (coloring (update_best (mergeVertices P3 0 2) 2 [0; 1]
                             ColoringSolution_default))
  ∧ ∀ v, 0 <= v < n P3 →
         0 <= nth_Z (coloring (update_best (mergeVertices P3 0 2) 2 [0; 1]
                                           ColoringSolution_default)) v
           < numColors (update_best (mergeVertices P3 0 2) 2 [0; 1]
                                    ColoringSolution_default).
Proof.
  apply (update_best_proper P3 (mergeVertices P3 0 2) 2 [0; 1]
           ColoringSolution_default).
  - apply input_graphb_sound. vm_compute. reflexivity.
  - apply reach_merge; [apply reach_root|simpl; lia|simpl; lia|lia|].
    vm_compute. intros H. discriminate H.
  - vm_compute. reflexivity.
  - vm_compute. reflexivity.
Defined.

(** ** The time gate and the empty graph *)

(** C6: when the clock read at the entry of [branchAndBound] is at or
    past [timeLimit], the call returns at once: [searchCompleted] is
    false, and [bestSolution] (both [numColors] and [coloring]) and the
    log are as they were. *)
Theorem branchAndBound_time_gate {seconds : Type}
    (time_ge : seconds → seconds → bool) (elapsed : nat → seconds)
    (fuel : nat) (g : Graph) (bestSolution : ColoringSolution)
    (timeLimit : seconds) (depth : Z) (w : Globals) :
  time_ge (elapsed (clock_reads w)) timeLimit = true →
  branchAndBound time_ge elapsed (S fuel) g bestSolution timeLimit depth w
  = Some (bestSolution,
          {| searchCompleted := false;
             logStream := logStream w;
             clock_reads := S (clock_reads w) |}).
Proof. intros Hgate. simpl. by rewrite Hgate. Qed.

Lemma branchAndBound_time_gate_witness :
  branchAndBound Z.geb (λ _, 5) 1 C5 ColoringSolution_default 3 0 globals_init
  = Some (ColoringSolution_default,
          {| searchCompleted := false; logStream := []; clock_reads := 1 |}).
Proof.
  apply (branchAndBound_time_gate Z.geb (λ _, 5) 0 C5 ColoringSolution_default
           3 0 globals_init).
  reflexivity.
Defined.

(** C7: on the graph without vertices the list of components is empty,
    the test [components.size() > 1] fails, and the branch for a single
    component reads [components[0]] outside the vector, whatever the
    clock and the time limit are. *)
Theorem solve_empty_graph_out_of_bounds {seconds : Type}
    (time_ge : seconds → seconds → bool) (elapsed : nat → seconds)
    (fuel : nat) (timeLimit : seconds) (w : Globals) :
  findConnectedComponents (Graph_of_size 0) = Some []
  ∧ at_checked (@nil (list Z)) 0 = None
  ∧ solve time_ge elapsed fuel (Graph_of_size 0) timeLimit w = None.
Proof. repeat split; reflexivity. Qed.

(** ** The whole search keeps the stored solution valid *)

Lemma update_best_ok g0 g ub col best :
  input_graph g0 → reachable g0 g →
  heuristicColoring g = (ub, col) →
  update_best g ub col best = best
  ∨ solution_ok g0 (update_best g ub col best).
Proof.
  intros Hin Hreach Hh. unfold update_best.
  destruct (Z.ltb_spec ub (numColors best)); [right|by left].
  pose proof (reachable_inv g0 g Hin Hreach) as Hr.
  pose proof (ri_inv _ _ Hr) as Hinv.
  destruct (heuristicColoring_spec g ub col (inv_wf _ Hinv)
              (inv_symmetric _ Hinv) (inv_loop_free _ Hinv) Hh)
    as (_ & Hprop & Hrange & _).
  exact (lift_coloring_proper g0 g col ub Hr (wf_n _ (in_wf _ Hin))
           Hprop Hrange).
Qed.

Lemma selectBranchingPair_valid g v1 v2 :
  selectBranchingPair g = (v1, v2) → v1 ≠ -1 →
  0 <= v1 < v2 ∧ v2 < n g ∧ v2 ∉ nth_Z (adj g) v1.
Proof.
  unfold selectBranchingPair.
  destruct (foldl _ _ _) as [[u1 u2] best] eqn:Hf.
  intros [= -> ->] Hne.
  by apply select_fold_scan in Hf as [(-> & _)|(H12 & H2 & Hn12 & _)].
Qed.

Section SearchValid.
Context {seconds : Type}.
Variable time_ge : seconds → seconds → bool.
Variable elapsed : nat → seconds.
Variable g0 : Graph.
Hypothesis Hin : input_graph g0.

Local Opaque heuristicColoring heuristicMaxClique selectBranchingPair
  mergeVertices addEdge update_best.

(** Whatever [branchAndBound] returns in [bestSolution] is either what it
    was given or a proper colouring of the input graph. *)
Lemma branchAndBound_solution_ok fuel :
  ∀ g best timeLimit depth (w : Globals) best' w',
    reachable g0 g →
    branchAndBound time_ge elapsed fuel g best timeLimit depth w
      = Some (best', w') →
    best' = best ∨ solution_ok g0 best'.
Proof.
  induction fuel as [|fuel IH];
    intros g best timeLimit depth w best' w' Hreach Hrun; [done|].
  simpl in Hrun.
  destruct (time_ge _ _); [injection Hrun as <- _; by left|].
  destruct (heuristicMaxClique g) as [[lb clique]|]; [|done]. simpl in Hrun.
  destruct (heuristicColoring g) as [ub col] eqn:Hh.
  set (best1 := update_best g ub col best) in *.
  assert (Hb1 : best1 = best ∨ solution_ok g0 best1)
    by by apply update_best_ok.
  destruct (lb =? ub); [by injection Hrun as <- _|].
  destruct (lb >=? numColors best1); [by injection Hrun as <- _|].
  destruct (selectBranchingPair g) as [v1 v2] eqn:Hsel.
  destruct (Z.eqb_spec v1 (-1)) as [|Hv1]; [by injection Hrun as <- _|].
  destruct (selectBranchingPair_valid g v1 v2 Hsel Hv1)
    as (H12 & H2 & Hnadj).
  assert (Hr1 : 0 <= v1 < n g) by lia.
  assert (Hr2 : 0 <= v2 < n g) by lia.
  assert (Hne : v1 ≠ v2) by lia.
  destruct (addEdge g v1 v2) as [childEdge|] eqn:He; [|done].
  simpl in Hrun.
  assert (Hboth : ∀ w0 r,
    (branchAndBound time_ge elapsed fuel (mergeVertices g v1 v2) best1
       timeLimit (depth + 1) w0 ≫=
     λ '(b, w1), branchAndBound time_ge elapsed fuel childEdge b
                   timeLimit (depth + 1) w1) = Some r →
    r.1 = best ∨ solution_ok g0 r.1).
  { clear Hrun. intros w0 [b3 w3] Hr. simpl.
    destruct (branchAndBound _ _ fuel (mergeVertices g v1 v2) _ _ _ _)
      as [[b2 w2]|] eqn:Hm; simpl in Hr; [|done].
    apply IH in Hm; [|exact (reach_merge g0 g v1 v2 Hreach Hr1 Hr2 Hne Hnadj)].
    apply IH in Hr;
      [|exact (reach_addEdge g0 g childEdge v1 v2 Hreach Hr1 Hr2 Hne Hnadj He)].
    destruct Hr as [->|?]; [|by right].
    destruct Hm as [->|?]; [|by right]. done. }
  destruct ((n g >=? MIN_VERTICES_FOR_TASK) && (depth <? MAX_TASK_DEPTH));
    by apply Hboth in Hrun.
Qed.

Local Transparent heuristicColoring heuristicMaxClique selectBranchingPair
  mergeVertices addEdge update_best.
End SearchValid.

(** X16: at every node of the search tree of an input graph, and whether
    or not the time limit cuts the run short, what [branchAndBound]
    leaves in [bestSolution] is what it was given or a proper colouring of
    the input graph with colours below [numColors]. *)
Theorem branchAndBound_anytime {seconds : Type}
    (time_ge : seconds → seconds → bool) (elapsed : nat → seconds)
    g0 fuel g best (timeLimit : seconds) depth (w : Globals) best' w' :
  input_graph g0 → reachable g0 g →
  branchAndBound time_ge elapsed fuel g best timeLimit depth w
    = Some (best', w') →
  best' = best ∨ solution_ok g0 best'.
Proof.
  intros Hin Hreach Hrun.
  exact (branchAndBound_solution_ok time_ge elapsed g0 Hin fuel g best
           timeLimit depth w best' w' Hreach Hrun).
Qed.


(** ** The search terminates *)

Lemma scan_pairs_NoDup m : NoDup (scan_pairs m).
Proof.
  pose proof (scan_pairs_sorted m) as Hs.
  induction Hs as [|p l _ IH Hall]; [constructor|].
  apply NoDup_cons. split; [|done].
  intros Hin. rewrite Forall_forall in Hall. specialize (Hall p Hin).
  unfold lex_lt in Hall. lia.
Qed.

Lemma elem_of_open_pairs g i j :
  (i, j) ∈ open_pairs g ↔ 0 <= i < j ∧ j < n g ∧ j ∉ nth_Z (adj g) i.
Proof.
  unfold open_pairs. rewrite list_elem_of_filter, elem_of_scan_pairs.
  simpl. tauto.
Qed.

Lemma open_pairs_NoDup g : NoDup (open_pairs g).
Proof. apply NoDup_filter, scan_pairs_NoDup. Qed.

(** A list without repetition that fits into another one, beside an element
    of the latter, is strictly shorter. *)
Lemma length_lt_by_inclusion (l k : list (Z * Z)) x :
  NoDup l → x ∉ l → x ∈ k → (∀ y, y ∈ l → y ∈ k) →
  (length l < length k)%nat.
Proof.
  intros Hnd Hx Hxk Hincl.
  assert (Hsub : x :: l ⊆+ k).
  { apply NoDup_submseteq; [by apply NoDup_cons|].
    intros y [->|Hy]%elem_of_cons; auto. }
  apply submseteq_length in Hsub. simpl in Hsub. lia.
Qed.

(** The branch "different colour" closes the pair it is applied to. *)
Lemma addEdge_open_pairs g g' i j :
  graph_inv g → 0 <= i < j → j < n g → j ∉ nth_Z (adj g) i →
  addEdge g i j = Some g' →
  (length (open_pairs g') < length (open_pairs g))%nat.
Proof.
  intros Hinv Hij Hj Hnadj He.
  destruct (addEdge_graph_inv g i j Hinv ltac:(lia) ltac:(lia) ltac:(lia))
    as (g1 & He1 & Hn & _ & _ & Helem & _).
  rewrite He in He1. injection He1 as <-.
  apply (length_lt_by_inclusion _ _ (i, j)).
  - apply open_pairs_NoDup.
  - rewrite elem_of_open_pairs. intros (_ & _ & Hn'). apply Hn'.
    apply Helem; [lia|]. right. by left.
  - by apply elem_of_open_pairs.
  - intros [a b]. rewrite !elem_of_open_pairs, Hn.
    intros (Hab & Hb & Hn'). split; [done|]. split; [done|].
    intros Hin. apply Hn', Helem; [lia|]. by left.
Qed.

Global Instance old_index_pair_inj j :
  Inj (=) (=) (λ p : Z * Z, (old_index j p.1, old_index j p.2)).
Proof.
  intros [a b] [c d] Heq. simpl in Heq. injection Heq as H1 H2.
  by rewrite (old_index_inj j a c H1), (old_index_inj j b d H2).
Qed.

(** The branch "same colour" closes the pair as well: every open pair of
    the merged graph comes from an open pair of [g] other than [(i, j)]. *)
Lemma merge_open_pairs g i j :
  graph_inv g → 0 <= i < j → j < n g → j ∉ nth_Z (adj g) i →
  (length (open_pairs (mergeVertices g i j)) < length (open_pairs g))%nat.
Proof.
  intros Hinv Hij Hj Hnadj.
  pose proof (inv_symmetric _ Hinv) as Hsym.
  set (φ := λ p : Z * Z, (old_index j p.1, old_index j p.2)).
  rewrite <- (length_fmap φ (open_pairs (mergeVertices g i j))).
  apply (length_lt_by_inclusion _ _ (i, j)).
  - apply (NoDup_fmap_2 φ), open_pairs_NoDup.
  - intros ([p q] & Heq & Hin)%list_elem_of_fmap.
    apply elem_of_open_pairs in Hin as (Hpq & Hq & _). simpl in Hq.
    unfold φ in Heq. simpl in Heq. injection Heq as _ Hjq.
    destruct (old_index_range j (n g) q); [lia..|]. congruence.
  - by apply elem_of_open_pairs.
  - intros [a b] ([p q] & Heq & Hin)%list_elem_of_fmap.
    apply elem_of_open_pairs in Hin as (Hpq & Hq & Hn'). simpl in Hq.
    unfold φ in Heq. simpl in Heq. injection Heq as -> ->.
    apply elem_of_open_pairs.
    destruct (old_index_range j (n g) p); [lia..|].
    destruct (old_index_range j (n g) q); [lia..|].
    pose proof (old_index_mono j p q ltac:(lia)).
    split; [lia|]. split; [lia|].
    intros Hadj. apply Hn'.
    apply (merge_adj_class g i j p q (old_index j p) (old_index j q));
      try done; try lia; by left.
Qed.

Section SearchReturns.
Context {seconds : Type}.
Variable time_ge : seconds → seconds → bool.
Variable elapsed : nat → seconds.

Local Opaque heuristicColoring heuristicMaxClique selectBranchingPair
  mergeVertices addEdge update_best.

(** [branchAndBound] returns as soon as [fuel] exceeds the number of open
    pairs of the graph. *)
Lemma branchAndBound_returns fuel :
  ∀ g best timeLimit depth (w : Globals),
    graph_inv g → (length (open_pairs g) < fuel)%nat →
    is_Some (branchAndBound time_ge elapsed fuel g best timeLimit depth w).
Proof.
  induction fuel as [|fuel IH]; intros g best timeLimit depth w Hinv Hlen;
    [lia|].
  simpl. destruct (time_ge _ _); [done|].
  destruct (heuristicMaxClique_spec g (inv_wf _ Hinv) (inv_symmetric _ Hinv)
              (inv_loop_free _ Hinv)) as (lb & clique & -> & _).
  simpl. destruct (heuristicColoring g) as [ub col].
  destruct (lb =? ub); [done|].
  destruct (lb >=? _); [done|].
  destruct (selectBranchingPair g) as [v1 v2] eqn:Hsel.
  destruct (Z.eqb_spec v1 (-1)) as [|Hv1]; [done|].
  destruct (selectBranchingPair_valid g v1 v2 Hsel Hv1) as (H12 & H2 & Hn12).
  destruct (addEdge_graph_inv g v1 v2 Hinv ltac:(lia) ltac:(lia) ltac:(lia))
    as (childEdge & He & _ & _ & _ & _ & HinvE).
  rewrite He. simpl.
  pose proof (merge_graph_inv g v1 v2 Hinv ltac:(lia) ltac:(lia) ltac:(lia))
    as HinvM.
  pose proof (merge_open_pairs g v1 v2 Hinv H12 H2 Hn12) as HlenM.
  pose proof (addEdge_open_pairs g childEdge v1 v2 Hinv H12 H2 Hn12 He)
    as HlenE.
  assert (Hboth : ∀ w0,
    is_Some (branchAndBound time_ge elapsed fuel (mergeVertices g v1 v2)
               (update_best g ub col best) timeLimit (depth + 1) w0 ≫=
             λ '(b, w1), branchAndBound time_ge elapsed fuel childEdge b
                           timeLimit (depth + 1) w1)).
  { intros w0.
    destruct (IH (mergeVertices g v1 v2) (update_best g ub col best)
                 timeLimit (depth + 1) w0 HinvM ltac:(lia)) as [[b2 w2] ->].
    simpl. apply IH; [done|lia]. }
  destruct ((n g >=? MIN_VERTICES_FOR_TASK) && (depth <? MAX_TASK_DEPTH));
    apply Hboth.
Qed.

Local Transparent heuristicColoring heuristicMaxClique selectBranchingPair
  mergeVertices addEdge update_best.
End SearchReturns.

(** ** The component pass terminates *)

Lemma unvisited_count_upd visited w :
  0 <= w < size_Z visited → nth_Z visited w = false →
  S (unvisited_count (upd_Z visited w true)) = unvisited_count visited.
Proof.
  intros Hw Hunv. unfold unvisited_count, upd_Z.
  pose proof (nth_lookup visited w Hw) as Hlk. rewrite Hunv in Hlk.
  rewrite insert_take_drop by (unfold size_Z in Hw; lia).
  rewrite <- (take_drop_middle visited (Z.to_nat w) false) at 3 by done.
  rewrite !filter_app, !length_app.
  rewrite filter_cons_False, filter_cons_True by done.
  simpl. lia.
Qed.

Lemma unvisited_count_le visited :
  (unvisited_count visited <= length visited)%nat.
Proof. apply length_filter. Qed.

(** The scan of the neighbours moves vertices from "unvisited" to the
    queue. *)
Lemma bfs_visit_fold (m : Z) ws Q visited comp :
  size_Z visited = m → (∀ w, w ∈ ws → 0 <= w < m) →
  (∀ v, v ∈ Q → 0 <= v < m) →
  ∃ Q' visited' comp',
    foldl bfs_visit (Q, visited, comp) ws = (Q', visited', comp')
    ∧ size_Z visited' = m
    ∧ (∀ v, v ∈ Q' → 0 <= v < m)
    ∧ (length Q' + unvisited_count visited'
       = length Q + unvisited_count visited)%nat.
Proof.
  intros Hsz Hws HQ. induction ws as [|w ws IH] using rev_ind.
  { by exists Q, visited, comp. }
  destruct IH as (Q1 & vis1 & comp1 & Hf & Hsz1 & HQ1 & Hcnt).
  { intros x Hx. apply Hws, elem_of_app. by left. }
  assert (Hw : 0 <= w < m).
  { apply Hws, elem_of_app. right. by apply list_elem_of_singleton. }
  rewrite foldl_snoc, Hf. simpl.
  destruct (nth_Z vis1 w) eqn:Hvis; simpl.
  - by exists Q1, vis1, comp1.
  - exists (Q1 ++ [w]), (upd_Z vis1 w true), (comp1 ++ [w]).
    split; [done|]. split; [by rewrite size_upd_Z|]. split.
    + intros v [Hv|Hv%list_elem_of_singleton]%elem_of_app; [auto|by subst].
    + pose proof (unvisited_count_upd vis1 w ltac:(lia) Hvis).
      rewrite length_app. simpl. lia.
Qed.

Lemma bfs_loop_returns g fuel :
  wf g →
  ∀ Q visited comp,
    size_Z visited = n g → (∀ v, v ∈ Q → 0 <= v < n g) →
    (length Q + unvisited_count visited < fuel)%nat →
    ∃ visited' comp',
      bfs_loop fuel g Q visited comp = Some (visited', comp')
      ∧ size_Z visited' = n g.
Proof.
  intros Hwf. induction fuel as [|fuel IH]; intros Q visited comp Hsz HQ Hlen;
    [lia|].
  destruct Q as [|v Q]; simpl.
  { by exists visited, comp. }
  assert (Hv : 0 <= v < n g) by (apply HQ; by left).
  assert (Hws : ∀ w, w ∈ elements (nth_Z (adj g) v) → 0 <= w < n g).
  { intros w Hw%elem_of_elements. by apply (wf_range _ Hwf v). }
  assert (HQ' : ∀ x, x ∈ Q → 0 <= x < n g).
  { intros x Hx. apply HQ. by right. }
  destruct (bfs_visit_fold (n g) (elements (nth_Z (adj g) v)) Q visited comp
              Hsz Hws HQ')
    as (Q1 & vis1 & comp1 & -> & Hsz1 & HQ1 & Hcnt).
  apply IH; [done..|]. simpl in Hlen. lia.
Qed.

Lemma findConnectedComponents_returns g :
  wf g → is_Some (findConnectedComponents g).
Proof.
  intros Hwf. unfold findConnectedComponents.
  remember (S (Z.to_nat (n g))) as fuel eqn:Hfuel.
  set (step := λ (acc : option (list (list Z) * list bool)) (start : Z), _).
  assert (Hgen : ∀ l : list Z, (∀ s, s ∈ l → 0 <= s < n g) →
    ∃ comps visited,
      foldl step (Some ([], replicate (Z.to_nat (n g)) false)) l
        = Some (comps, visited)
      ∧ size_Z visited = n g).
  { induction l as [|s l IH] using rev_ind; intros Hl.
    - eexists _, _. split; [done|].
      unfold size_Z. rewrite length_replicate. pose proof (wf_n _ Hwf). lia.
    - destruct IH as (comps & visited & Hf & Hsz).
      { intros x Hx. apply Hl, elem_of_app. by left. }
      assert (Hs : 0 <= s < n g).
      { apply Hl, elem_of_app. right. by apply list_elem_of_singleton. }
      rewrite foldl_snoc, Hf. unfold step. simpl.
      destruct (nth_Z visited s) eqn:Hvis; simpl; [by eexists _, _|].
      destruct (bfs_loop_returns g fuel Hwf [s]
                  (upd_Z visited s true) [s])
        as (vis' & comp' & -> & Hsz').
      + by rewrite size_upd_Z.
      + intros v ->%list_elem_of_singleton. done.
      + pose proof (unvisited_count_upd visited s ltac:(lia) Hvis).
        pose proof (unvisited_count_le visited).
        unfold size_Z in Hsz. simpl. lia.
      + simpl. by eexists _, _. }
  destruct (Hgen (seqZ 0 (n g))) as (comps & visited & -> & _).
  { intros s Hs%elem_of_seqZ. lia. }
  done.
Qed.

(** ** Colourability, cliques and the two branches *)

Lemma proper_coloring_colorable g col k :
  0 <= k → proper_coloring g col →
  (∀ v, 0 <= v < n g → 0 <= nth_Z col v < k) →
  colorable g k.
Proof. intros Hk Hp Hr. split; [done|]. by exists (nth_Z col). Qed.

(** A clique needs as many colours as it has members. *)
Lemma clique_le_colors g C k :
  is_clique g C → colorable g k → size_Z C <= k.
Proof.
  intros (Hnd & Hrange & Hadj) (Hk & f & Hprop & Hfr).
  assert (Hnd' : NoDup (f <$> C)).
  { apply NoDup_fmap_2_strong; [|done].
    intros x y Hx Hy Heq. destruct (decide (x = y)) as [|Hne]; [done|].
    exfalso. by apply (Hprop x y); auto. }
  assert (Hsub : f <$> C ⊆+ seqZ 0 k).
  { apply NoDup_submseteq; [done|].
    intros c (x & -> & Hx)%list_elem_of_fmap.
    apply elem_of_seqZ. specialize (Hfr x (Hrange x Hx)). lia. }
  apply submseteq_length in Hsub.
  rewrite length_fmap, length_seqZ in Hsub. unfold size_Z. lia.
Qed.

Lemma merge_connected_inv g i j a b :
  merge_connected g i j (old_index j a) (old_index j b) = true →
  ∃ x y, in_class i j a x ∧ in_class i j b y ∧ y ∈ nth_Z (adj g) x.
Proof.
  unfold merge_connected.
  destruct (Z.eqb_spec (old_index j a) i) as [Hai|Hai]; simpl.
  - intros [H|H]%orb_true_iff; apply bool_decide_eq_true in H.
    + exists i, (old_index j b). split; [by left|]. split; [by left|done].
    + exists j, (old_index j b). split; [by right|]. split; [by left|done].
  - destruct (Z.eqb_spec (old_index j b) i) as [Hbi|Hbi]; simpl.
    + intros [H|H]%orb_true_iff; apply bool_decide_eq_true in H.
      * exists (old_index j a), i. split; [by left|]. split; [by left|done].
      * exists (old_index j a), j. split; [by left|]. split; [by right|done].
    + intros H%bool_decide_eq_true.
      exists (old_index j a), (old_index j b). by repeat split; try left.
Qed.

Lemma new_index_range i j m x :
  0 <= i < m → 0 <= j < m → i ≠ j → 0 <= x < m →
  0 <= new_index i j x < m - 1.
Proof.
  intros Hi Hj Hne Hx. unfold new_index, merged_index.
  destruct (Z.eqb_spec x j), (Z.ltb_spec i j), (Z.ltb_spec x j); lia.
Qed.

Lemma new_index_class i j x :
  i ≠ j → in_class i j (new_index i j x) x.
Proof.
  intros Hne. unfold in_class, new_index.
  destruct (Z.eqb_spec x j) as [->|Hxj].
  - right. split; [by apply old_index_merged|done].
  - left. unfold old_index.
    destruct (Z.ltb_spec x j); [destruct (Z.ltb_spec x j)|
                                destruct (Z.ltb_spec (x - 1) j)]; lia.
Qed.

Lemma new_index_eq i j x y :
  i ≠ j → new_index i j x = new_index i j y →
  x = y ∨ (x = i ∧ y = j) ∨ (x = j ∧ y = i).
Proof.
  intros Hne. unfold new_index, merged_index.
  destruct (Z.eqb_spec x j), (Z.eqb_spec y j), (Z.ltb_spec i j),
    (Z.ltb_spec x j), (Z.ltb_spec y j); lia.
Qed.

(** A colouring of [g] that gives [i] and [j] the same colour is a
    colouring of the merged graph. *)
Lemma colorable_merge g i j k (f : Z → Z) :
  0 <= i < n g → 0 <= j < n g → i ≠ j → 0 <= k →
  (∀ u v, 0 <= u < n g → 0 <= v < n g → v ∈ nth_Z (adj g) u → f u ≠ f v) →
  (∀ v, 0 <= v < n g → 0 <= f v < k) →
  f i = f j →
  colorable (mergeVertices g i j) k.
Proof.
  intros Hi Hj Hne Hk Hprop Hfr Hij. split; [done|].
  exists (λ p, f (old_index j p)). simpl.
  assert (Hcls : ∀ p x, in_class i j p x → f x = f (old_index j p)).
  { intros p x [->|[Hp ->]]; [done|]. by rewrite Hp. }
  split.
  - intros p q Hp Hq Hin.
    apply merge_adj_elem in Hin as (a & b & Hab & Hb & Hc & Hpq); [|done|lia].
    apply merge_connected_inv in Hc as (x & y & Hx & Hy & Hadj).
    pose proof (in_class_range g i j a x Hi Hj ltac:(lia) Hx) as Hxr.
    pose proof (in_class_range g i j b y Hi Hj ltac:(lia) Hy) as Hyr.
    pose proof (Hprop x y Hxr Hyr Hadj) as Hxy.
    rewrite (Hcls a x Hx), (Hcls b y Hy) in Hxy.
    destruct Hpq as [[-> ->]|[-> ->]]; [done|by apply not_eq_sym].
  - intros p Hp. apply Hfr. by apply old_index_range.
Qed.

(** A colouring of the merged graph gives a colouring of [g] when [i] and
    [j] are not adjacent. *)
Lemma colorable_of_merge g i j k :
  symmetric g → loop_free g →
  0 <= i < n g → 0 <= j < n g → i ≠ j → j ∉ nth_Z (adj g) i →
  colorable (mergeVertices g i j) k → colorable g k.
Proof.
  intros Hsym Hlf Hi Hj Hne Hnadj (Hk & f & Hprop & Hfr). split; [done|].
  simpl in Hprop, Hfr.
  exists (λ x, f (new_index i j x)). split.
  - intros x y Hx Hy Hadj.
    pose proof (new_index_range i j (n g) x Hi Hj Hne Hx) as Hxr.
    pose proof (new_index_range i j (n g) y Hi Hj Hne Hy) as Hyr.
    assert (Hnew : new_index i j x ≠ new_index i j y).
    { intros [->|[[-> ->]|[-> ->]]]%new_index_eq; [|done| |done].
      - by apply (Hlf y).
      - apply Hnadj. by apply Hsym. }
    apply Hprop; [done..|].
    apply (merge_adj_class g i j _ _ x y); try done;
      by apply new_index_class.
  - intros x Hx. apply Hfr. by apply new_index_range.
Qed.

(** A colouring of [g] gives the two ends of the branching pair the same
    colour or different colours: it is a colouring of one of the two
    children. *)
Lemma colorable_children g i j k g_e :
  graph_inv g → 0 <= i < n g → 0 <= j < n g → i ≠ j →
  j ∉ nth_Z (adj g) i →
  addEdge g i j = Some g_e →
  colorable g k → colorable (mergeVertices g i j) k ∨ colorable g_e k.
Proof.
  intros Hinv Hi Hj Hne Hnadj He.
  destruct (addEdge_graph_inv g i j Hinv Hi Hj Hne)
    as (g1 & He1 & Hn & _ & _ & Helem & _).
  rewrite He in He1. injection He1 as <-.
  intros (Hk & f & Hprop & Hfr).
  destruct (decide (f i = f j)) as [Heq|Hneq].
  - left. by apply (colorable_merge g i j k f).
  - right. split; [done|]. exists f. rewrite Hn. split; [|done].
    intros u v Hu Hv [Hin|[[-> ->]|[-> ->]]]%Helem; [|lia| |lia|..];
      auto.
Qed.

(** A colouring of either child is a colouring of [g]. *)
Lemma colorable_of_children g i j k g_e :
  graph_inv g → 0 <= i < n g → 0 <= j < n g → i ≠ j →
  j ∉ nth_Z (adj g) i →
  addEdge g i j = Some g_e →
  colorable (mergeVertices g i j) k ∨ colorable g_e k → colorable g k.
Proof.
  intros Hinv Hi Hj Hne Hnadj He.
  destruct (addEdge_graph_inv g i j Hinv Hi Hj Hne)
    as (g1 & He1 & Hn & _ & _ & Helem & _).
  rewrite He in He1. injection He1 as <-.
  intros [Hm|(Hk & f & Hprop & Hfr)].
  - apply (colorable_of_merge g i j k); try done; apply Hinv.
  - split; [done|]. exists f. rewrite Hn in Hprop, Hfr. split; [|done].
    intros u v Hu Hv Hin. apply Hprop; [done..|]. apply Helem; [lia|].
    by left.
Qed.

(** X5: the two branches of the Zykov rule together are exactly the
    colourings of the graph: [g] can be coloured with [k] colours if and
    only if the graph with [i] and [j] merged or the graph with the edge
    [{i, j}] added can. *)
Theorem zykov_branching g i j k g_e :
  graph_inv g → 0 <= i < n g → 0 <= j < n g → i ≠ j →
  j ∉ nth_Z (adj g) i →
  addEdge g i j = Some g_e →
  colorable g k ↔ colorable (mergeVertices g i j) k ∨ colorable g_e k.
Proof.
  intros Hinv Hi Hj Hne Hnadj He. split.
  - by apply colorable_children.
  - by apply colorable_of_children.
Qed.

(** X10: the clique bound never exceeds the DSATUR bound. *)
Theorem lower_bound_le_upper_bound g lb clique ub col :
  wf g → symmetric g → loop_free g →
  heuristicMaxClique g = Some (lb, clique) →
  heuristicColoring g = (ub, col) →
  lb <= ub.
Proof.
  intros Hwf Hsym Hlf Hc Hh.
  destruct (heuristicMaxClique_spec g Hwf Hsym Hlf)
    as (size & C & Hc' & Hcl & ->).
  rewrite Hc in Hc'. injection Hc' as -> ->.
  destruct (heuristicColoring_spec g ub col Hwf Hsym Hlf Hh)
    as (_ & Hprop & Hrange & Hub & _).
  apply (clique_le_colors g). { done. }
  apply (proper_coloring_colorable g col); [lia|done..].
Qed.

(** ** What a run of [branchAndBound] does to the best solution *)

Lemma update_best_le g ub col best :
  numColors (update_best g ub col best) <= numColors best
  ∧ numColors (update_best g ub col best) <= ub.
Proof. unfold update_best. destruct (Z.ltb_spec ub (numColors best)); simpl; lia. Qed.

Lemma complete_needs_n_colors g k :
  0 <= n g → complete g → colorable g k → n g <= k.
Proof.
  intros Hn Hc Hcol.
  rewrite <- (size_seqZ 0 (n g)) by done.
  apply (clique_le_colors g); [|done].
  split; [apply NoDup_seqZ|]. split.
  - intros v Hv%elem_of_seqZ. lia.
  - intros u v Hu%elem_of_seqZ Hv%elem_of_seqZ Hne. apply Hc; lia.
Qed.

Lemma selectBranchingPair_sentinel g v2 :
  symmetric g → selectBranchingPair g = (-1, v2) → complete g.
Proof.
  intros Hsym Hsel. unfold selectBranchingPair in Hsel.
  destruct (foldl _ _ _) as [[u1 u2] best] eqn:Hf.
  injection Hsel as -> ->.
  apply select_fold_scan in Hf as [(_ & _ & Hall)|(H12 & _)]; [|lia].
  intros i j Hi Hj Hne. destruct (decide (i < j)).
  - apply Hall; lia.
  - apply Hsym; [lia..|]. apply Hall; lia.
Qed.

Lemma heuristicColoring_nonneg g : 0 <= (heuristicColoring g).1.
Proof. unfold heuristicColoring. simpl. apply used_colors_spec. Qed.

Lemma update_best_nonneg g ub col best :
  0 <= ub → 0 <= numColors best → 0 <= numColors (update_best g ub col best).
Proof. unfold update_best. by destruct (ub <? numColors best). Qed.

Section SearchBounds.
Context {seconds : Type}.
Variable time_ge : seconds → seconds → bool.
Variable elapsed : nat → seconds.

Local Opaque heuristicColoring heuristicMaxClique selectBranchingPair
  mergeVertices addEdge update_best.

(** The number of colours stored only goes down, and the flag only from
    true to false. *)
Lemma branchAndBound_mono fuel :
  ∀ g best timeLimit depth (w : Globals) best' w',
    branchAndBound time_ge elapsed fuel g best timeLimit depth w
      = Some (best', w') →
    numColors best' <= numColors best
    ∧ (searchCompleted w = false → searchCompleted w' = false).
Proof.
  induction fuel as [|fuel IH];
    intros g best timeLimit depth w best' w' Hrun; [done|].
  simpl in Hrun.
  destruct (time_ge _ _); [injection Hrun as <- <-; by split|].
  destruct (heuristicMaxClique g) as [[lb clique]|]; [|done]. simpl in Hrun.
  destruct (heuristicColoring g) as [ub col].
  pose proof (update_best_le g ub col best) as [Hle _].
  set (best1 := update_best g ub col best) in *.
  destruct (lb =? ub); [by injection Hrun as <- <-|].
  destruct (lb >=? numColors best1); [by injection Hrun as <- <-|].
  destruct (selectBranchingPair g) as [v1 v2].
  destruct (v1 =? -1); [by injection Hrun as <- <-|].
  destruct (addEdge g v1 v2) as [childEdge|]; [|done]. simpl in Hrun.
  assert (Hboth : ∀ w0 b3 w3,
    (branchAndBound time_ge elapsed fuel (mergeVertices g v1 v2) best1
       timeLimit (depth + 1) w0 ≫=
     λ '(b, w1), branchAndBound time_ge elapsed fuel childEdge b
                   timeLimit (depth + 1) w1) = Some (b3, w3) →
    numColors b3 <= numColors best1
    ∧ (searchCompleted w0 = false → searchCompleted w3 = false)).
  { clear Hrun. intros w0 b3 w3 Hr.
    destruct (branchAndBound _ _ fuel (mergeVertices g v1 v2) _ _ _ _)
      as [[b2 w2]|] eqn:Hm; simpl in Hr; [|done].
    apply IH in Hm as [Hm1 Hm2]. apply IH in Hr as [Hr1 Hr2].
    split; [lia|auto]. }
  destruct ((n g >=? MIN_VERTICES_FOR_TASK) && (depth <? MAX_TASK_DEPTH));
    apply Hboth in Hrun as [H1 H2]; (split; [lia|exact H2]).
Qed.

(** X15: a run of [branchAndBound] never raises [numColors], and never sets
    [searchCompleted] back to true. *)
Theorem branchAndBound_monotone fuel :
  ∀ g best timeLimit depth (w : Globals) best' w',
    branchAndBound time_ge elapsed fuel g best timeLimit depth w
      = Some (best', w') →
    numColors best' <= numColors best
    ∧ (searchCompleted w = false → searchCompleted w' = false).
Proof. exact (branchAndBound_mono fuel). Qed.

Lemma branchAndBound_nonneg fuel :
  ∀ g best timeLimit depth (w : Globals) best' w',
    branchAndBound time_ge elapsed fuel g best timeLimit depth w
      = Some (best', w') →
    0 <= numColors best → 0 <= numColors best'.
Proof.
  induction fuel as [|fuel IH];
    intros g best timeLimit depth w best' w' Hrun Hpos; [done|].
  simpl in Hrun.
  destruct (time_ge _ _); [by injection Hrun as <- <-|].
  destruct (heuristicMaxClique g) as [[lb clique]|]; [|done]. simpl in Hrun.
  pose proof (heuristicColoring_nonneg g) as Hub.
  destruct (heuristicColoring g) as [ub col]. simpl in Hub.
  pose proof (update_best_nonneg g ub col best Hub Hpos) as Hpos1.
  set (best1 := update_best g ub col best) in *.
  destruct (lb =? ub); [by injection Hrun as <- <-|].
  destruct (lb >=? numColors best1); [by injection Hrun as <- <-|].
  destruct (selectBranchingPair g) as [v1 v2].
  destruct (v1 =? -1); [by injection Hrun as <- <-|].
  destruct (addEdge g v1 v2) as [childEdge|]; [|done]. simpl in Hrun.
  assert (Hboth : ∀ w0 b3 w3,
    (branchAndBound time_ge elapsed fuel (mergeVertices g v1 v2) best1
       timeLimit (depth + 1) w0 ≫=
     λ '(b, w1), branchAndBound time_ge elapsed fuel childEdge b
                   timeLimit (depth + 1) w1) = Some (b3, w3) →
    0 <= numColors b3).
  { clear Hrun. intros w0 b3 w3 Hr.
    destruct (branchAndBound _ _ fuel (mergeVertices g v1 v2) _ _ _ _)
      as [[b2 w2]|] eqn:Hm; simpl in Hr; [|done].
    apply IH in Hm; [|done]. by apply IH in Hr. }
  destruct ((n g >=? MIN_VERTICES_FOR_TASK) && (depth <? MAX_TASK_DEPTH));
    by apply Hboth in Hrun.
Qed.

(** When no time-out occurred during the run, the number of colours
    stored is at most that of any colouring of the graph. *)
Lemma branchAndBound_optimal fuel :
  ∀ g best timeLimit depth (w : Globals) best' w' k,
    graph_inv g →
    branchAndBound time_ge elapsed fuel g best timeLimit depth w
      = Some (best', w') →
    searchCompleted w' = true →
    colorable g k →
    numColors best' <= k.
Proof.
  induction fuel as [|fuel IH];
    intros g best timeLimit depth w best' w' k Hinv Hrun Hflag Hcol; [done|].
  pose proof (inv_wf _ Hinv) as Hwf.
  pose proof (inv_symmetric _ Hinv) as Hsym.
  pose proof (inv_loop_free _ Hinv) as Hlf.
  simpl in Hrun.
  destruct (time_ge _ _); [by injection Hrun as <- <-|].
  destruct (heuristicMaxClique g) as [[lb clique]|] eqn:Hc; [|done].
  simpl in Hrun.
  destruct (heuristicMaxClique_spec g Hwf Hsym Hlf)
    as (size & C & Hc' & Hcl & ->).
  rewrite Hc in Hc'. injection Hc' as -> <-.
  pose proof (clique_le_colors g clique k Hcl Hcol) as Hlb.
  destruct (heuristicColoring g) as [ub col] eqn:Hh.
  destruct (heuristicColoring_spec g ub col Hwf Hsym Hlf Hh)
    as (_ & _ & _ & Hub & _).
  pose proof (update_best_le g ub col best) as [_ Hle].
  set (best1 := update_best g ub col best) in *.
  destruct (Z.eqb_spec (size_Z clique) ub); [injection Hrun as <- <-; lia|].
  destruct (Z.geb_spec (size_Z clique) (numColors best1));
    [injection Hrun as <- <-; lia|].
  destruct (selectBranchingPair g) as [v1 v2] eqn:Hsel.
  destruct (Z.eqb_spec v1 (-1)) as [->|Hv1].
  { injection Hrun as <- <-.
    pose proof (complete_needs_n_colors g k (wf_n _ Hwf)
                  (selectBranchingPair_sentinel g v2 Hsym Hsel) Hcol). lia. }
  destruct (selectBranchingPair_valid g v1 v2 Hsel Hv1) as (H12 & H2 & Hnadj).
  destruct (addEdge g v1 v2) as [childEdge|] eqn:He; [|done].
  simpl in Hrun.
  assert (HinvM : graph_inv (mergeVertices g v1 v2))
    by (apply merge_graph_inv; [done|lia..]).
  assert (HinvE : graph_inv childEdge).
  { destruct (addEdge_graph_inv g v1 v2 Hinv ltac:(lia) ltac:(lia) ltac:(lia))
      as (g1 & He1 & _ & _ & _ & _ & Hg1). congruence. }
  assert (Hz : colorable (mergeVertices g v1 v2) k ∨ colorable childEdge k).
  { apply (colorable_children g v1 v2 k childEdge); try done; lia. }
  assert (Hboth : ∀ w0,
    (branchAndBound time_ge elapsed fuel (mergeVertices g v1 v2) best1
       timeLimit (depth + 1) w0 ≫=
     λ '(b, w1), branchAndBound time_ge elapsed fuel childEdge b
                   timeLimit (depth + 1) w1) = Some (best', w') →
    numColors best' <= k).
  { clear Hrun. intros w0 Hr.
    destruct (branchAndBound _ _ fuel (mergeVertices g v1 v2) _ _ _ _)
      as [[b2 w2]|] eqn:Hm; simpl in Hr; [|done].
    pose proof (branchAndBound_mono fuel _ _ _ _ _ _ _ Hr) as [Hr1 Hr2].
    assert (Hflag2 : searchCompleted w2 = true).
    { destruct (searchCompleted w2); [done|]. rewrite Hr2 in Hflag; done. }
    destruct Hz as [Hzm|Hze].
    - pose proof (IH _ _ _ _ _ _ _ k HinvM Hm Hflag2 Hzm). lia.
    - exact (IH _ _ _ _ _ _ _ k HinvE Hr Hflag Hze). }
  destruct ((n g >=? MIN_VERTICES_FOR_TASK) && (depth <? MAX_TASK_DEPTH));
    by apply Hboth in Hrun.
Qed.

Local Transparent heuristicColoring heuristicMaxClique selectBranchingPair
  mergeVertices addEdge update_best.
End SearchBounds.

Section SearchExact.
Context {seconds : Type}.
Variable time_ge : seconds → seconds → bool.
Variable elapsed : nat → seconds.

(** X17: started on an input graph with fewer than [INF] vertices and the
    default solution, with fuel above the number of non-adjacent pairs,
    [branchAndBound] returns; and when [searchCompleted] is true at the
    end, the stored colouring is a proper colouring of the graph and no
    proper colouring uses fewer colours. *)
Theorem branchAndBound_exact (fuel : nat) g0 (timeLimit : seconds) depth
    (w : Globals) :
  input_graph g0 → n g0 < INF → (length (open_pairs g0) < fuel)%nat →
  ∃ best' w',
    branchAndBound time_ge elapsed fuel g0 ColoringSolution_default
                   timeLimit depth w = Some (best', w')
    ∧ (searchCompleted w' = true →
       solution_ok g0 best'
       ∧ colorable g0 (numColors best')
       ∧ ∀ k, colorable g0 k → numColors best' <= k).
Proof.
  intros Hin Hn Hfuel.
  pose proof (ri_inv _ _ (input_graph_inv g0 Hin)) as Hinv.
  destruct (branchAndBound_returns time_ge elapsed fuel g0
              ColoringSolution_default timeLimit depth w Hinv Hfuel)
    as [[best' w'] Hrun].
  exists best', w'. split; [done|]. intros Hflag.
  assert (Hopt : ∀ k, colorable g0 k → numColors best' <= k).
  { intros k Hk.
    exact (branchAndBound_optimal time_ge elapsed fuel g0 _ _ _ _ _ _ k
             Hinv Hrun Hflag Hk). }
  assert (Hok : solution_ok g0 best').
  { destruct (branchAndBound_solution_ok time_ge elapsed g0 Hin fuel g0 _ _ _
                _ _ _ (reach_root g0) Hrun) as [->|Hok]; [|done].
    exfalso. destruct (heuristicColoring g0) as [ub col] eqn:Hh.
    destruct (heuristicColoring_spec g0 ub col (inv_wf _ Hinv)
                (inv_symmetric _ Hinv) (inv_loop_free _ Hinv) Hh)
      as (_ & Hprop & Hrange & Hub & _).
    specialize (Hopt ub (proper_coloring_colorable g0 col ub ltac:(lia)
                           Hprop Hrange)).
    simpl in Hopt. lia. }
  split; [done|]. split; [|done].
  destruct Hok as (_ & Hprop & Hrange).
  apply (proper_coloring_colorable g0 (coloring best')); [|done..].
  apply (branchAndBound_nonneg time_ge elapsed fuel _ _ _ _ _ _ _ Hrun).
  done.
Qed.
End SearchExact.

(** ** [decomposeBnb] *)

Lemma reachable_trans r g h :
  reachable r g → reachable g h → reachable r h.
Proof.
  intros Hrg Hgh. induction Hgh as [|h i j _ IH Hi Hj Hne Hnadj
                                     |h h' i j _ IH Hi Hj Hne Hnadj He].
  - done.
  - by apply reach_merge.
  - exact (reach_addEdge r h h' i j IH Hi Hj Hne Hnadj He).
Qed.

Lemma reachable_reach_inv g0 r g :
  reach_inv g0 r → reachable r g → reach_inv g0 g.
Proof.
  intros Hr Hreach.
  induction Hreach as [|g i j _ IH Hi Hj Hne Hnadj
                        |g g' i j _ IH Hi Hj Hne Hnadj He].
  - done.
  - exact (merge_reach_inv g0 g i j IH Hi Hj Hne Hnadj).
  - exact (addEdge_reach_inv g0 g g' i j IH Hi Hj Hne He).
Qed.

Lemma reachable_graph_inv r g :
  graph_inv r → reachable r g → graph_inv g.
Proof.
  intros Hr Hreach.
  induction Hreach as [|g i j _ IH Hi Hj Hne Hnadj
                        |g g' i j _ IH Hi Hj Hne Hnadj He].
  - done.
  - by apply merge_graph_inv.
  - destruct (addEdge_graph_inv g i j IH Hi Hj Hne)
      as (g1 & He1 & _ & _ & _ & _ & Hg1). congruence.
Qed.

Section Decompose.
Context {seconds : Type}.
Variable time_ge : seconds → seconds → bool.
Variable elapsed : nat → seconds.

Local Opaque heuristicColoring heuristicMaxClique selectBranchingPair
  mergeVertices addEdge.

(** X18: [decomposeBnb] touches neither [searchCompleted] nor the log, even
    when the time limit has passed; the tasks it was given stay in front,
    and every task it appends is a graph of the search tree of [g]. *)
Theorem decomposeBnb_tasks fuel :
  ∀ g depth decompDepth tasks (timeLimit : seconds) dummy (w : Globals)
    tasks' w',
    decomposeBnb time_ge elapsed fuel g depth decompDepth tasks timeLimit
                 dummy w = Some (tasks', w') →
    searchCompleted w' = searchCompleted w
    ∧ logStream w' = logStream w
    ∧ ∃ new, tasks' = tasks ++ new ∧ ∀ t, t ∈ new → reachable g t.
Proof.
  induction fuel as [|fuel IH];
    intros g depth dd tasks timeLimit dummy w tasks' w' Hrun; [done|].
  simpl in Hrun.
  assert (Hsame : ∀ w1 : Globals,
    searchCompleted w1 = searchCompleted w → logStream w1 = logStream w →
    Some (tasks, w1) = Some (tasks', w') →
    searchCompleted w' = searchCompleted w ∧ logStream w' = logStream w
    ∧ ∃ new, tasks' = tasks ++ new ∧ ∀ t, t ∈ new → reachable g t).
  { intros w1 H1 H2 [= <- <-]. do 2 (split; [done|]). exists [].
    split; [by rewrite app_nil_r|]. by intros t ?%elem_of_nil. }
  destruct (time_ge _ _); [eapply Hsame; [..|exact Hrun]; done|].
  destruct (depth >=? dd).
  { injection Hrun as <- <-. do 2 (split; [done|]). exists [g].
    split; [done|]. intros t ->%list_elem_of_singleton. constructor. }
  destruct (heuristicMaxClique g) as [[lb clique]|]; [|done]. simpl in Hrun.
  destruct (heuristicColoring g) as [ub col].
  destruct (lb =? ub); [eapply Hsame; [..|exact Hrun]; done|].
  destruct (lb >=? numColors dummy); [eapply Hsame; [..|exact Hrun]; done|].
  destruct (selectBranchingPair g) as [v1 v2] eqn:Hsel.
  destruct (Z.eqb_spec v1 (-1)) as [|Hv1]; [eapply Hsame; [..|exact Hrun]; done|].
  destruct (selectBranchingPair_valid g v1 v2 Hsel Hv1) as (H12 & H2 & Hnadj).
  destruct (addEdge g v1 v2) as [childEdge|] eqn:He; [|done].
  simpl in Hrun.
  destruct (decomposeBnb _ _ fuel (mergeVertices g v1 v2) _ _ _ _ _ _)
    as [[tasks2 w2]|] eqn:Hm; simpl in Hrun; [|done].
  apply IH in Hm as (Hm1 & Hm2 & newM & -> & HnewM).
  apply IH in Hrun as (Hr1 & Hr2 & newE & -> & HnewE).
  split; [by rewrite Hr1, Hm1|]. split; [by rewrite Hr2, Hm2|].
  exists (newM ++ newE). split; [by rewrite app_assoc|].
  intros t [Ht|Ht]%elem_of_app.
  - apply (reachable_trans g (mergeVertices g v1 v2)); [|by apply HnewM].
    apply reach_merge; [constructor|lia..|done].
  - apply (reachable_trans g childEdge); [|by apply HnewE].
    apply (reach_addEdge g g childEdge v1 v2); [constructor|lia..|done|done].
Qed.

(** [decomposeBnb] returns when [fuel] exceeds the number of levels left
    down to [decompDepth]. *)
Lemma decomposeBnb_returns fuel :
  ∀ g depth decompDepth tasks (timeLimit : seconds) dummy (w : Globals),
    graph_inv g → (Z.to_nat (decompDepth - depth) < fuel)%nat →
    is_Some (decomposeBnb time_ge elapsed fuel g depth decompDepth tasks
                          timeLimit dummy w).
Proof.
  induction fuel as [|fuel IH];
    intros g depth dd tasks timeLimit dummy w Hinv Hfuel; [lia|].
  simpl. destruct (time_ge _ _); [done|].
  destruct (Z.geb_spec depth dd); [done|].
  destruct (heuristicMaxClique_spec g (inv_wf _ Hinv) (inv_symmetric _ Hinv)
              (inv_loop_free _ Hinv)) as (lb & clique & -> & _).
  simpl. destruct (heuristicColoring g) as [ub col].
  destruct (_ =? ub); [done|].
  destruct (_ >=? _); [done|].
  destruct (selectBranchingPair g) as [v1 v2] eqn:Hsel.
  destruct (Z.eqb_spec v1 (-1)) as [|Hv1]; [done|].
  destruct (selectBranchingPair_valid g v1 v2 Hsel Hv1) as (H12 & H2 & Hn12).
  destruct (addEdge_graph_inv g v1 v2 Hinv ltac:(lia) ltac:(lia) ltac:(lia))
    as (childEdge & He & _ & _ & _ & _ & HinvE).
  rewrite He. simpl.
  pose proof (merge_graph_inv g v1 v2 Hinv ltac:(lia) ltac:(lia) ltac:(lia))
    as HinvM.
  match goal with
  | |- context [decomposeBnb _ _ fuel (mergeVertices g v1 v2) ?d ?e ?t ?tl ?du ?w0] =>
      destruct (IH (mergeVertices g v1 v2) d e t tl du w0 HinvM ltac:(lia))
        as [[t2 w2] ->]
  end.
  simpl. apply IH; [done|lia].
Qed.

Local Transparent heuristicColoring heuristicMaxClique selectBranchingPair
  mergeVertices addEdge.
End Decompose.

(** ** [extractSubgraph] *)

Lemma nth_seqZ (m i : Z) : 0 <= i < m → nth_Z (seqZ 0 m) i = i.
Proof.
  intros Hi. unfold nth_Z. rewrite lookup_total_seqZ_lt by lia. lia.
Qed.

Lemma size_nonneg {A} (l : list A) : 0 <= size_Z l.
Proof. unfold size_Z. lia. Qed.

Lemma list_eq_by_nth {A} `{Inhabited A} (l k : list A) :
  size_Z l = size_Z k →
  (∀ i, 0 <= i < size_Z l → nth_Z l i = nth_Z k i) → l = k.
Proof.
  intros Hsz Hnth.
  rewrite (list_as_fmap_nth l), (list_as_fmap_nth k), <- Hsz.
  apply list_fmap_ext. intros i a Hi%lookup_seqZ. apply Hnth. lia.
Qed.

Lemma nth_replicate_empty (m : nat) (p : Z) :
  nth_Z (replicate m (∅ : gset Z)) p = ∅.
Proof.
  unfold nth_Z. destruct (decide (Z.to_nat p < m)%nat).
  - by apply lookup_total_replicate_2.
  - rewrite list_lookup_total_alt, (proj1 (lookup_replicate_None _ _ _)); [done|lia].
Qed.

Lemma extractSubgraph_mapping fullG vertices i :
  0 <= i < size_Z vertices →
  size_Z (mapping (extractSubgraph fullG vertices)) = size_Z vertices
  ∧ nth_Z (mapping (extractSubgraph fullG vertices)) i
    = nth_Z (mapping fullG) (nth_Z vertices i).
Proof.
  intros Hi. simpl.
  assert (Hsz0 : size_Z ((λ i, [i]) <$> seqZ 0 (size_Z vertices))
                 = size_Z vertices).
  { unfold size_Z at 1. rewrite length_fmap, length_seqZ. unfold size_Z. lia. }
  split.
  - by rewrite (foldl_upd_size _
      (λ i, nth_Z (mapping fullG) (nth_Z vertices i))).
  - rewrite (foldl_upd_nth _
      (λ i, nth_Z (mapping fullG) (nth_Z vertices i))); [|done| |lia].
    + rewrite decide_True; [done|]. apply elem_of_seqZ. lia.
    + intros a Ha%elem_of_seqZ. rewrite Hsz0. lia.
Qed.

Lemma extractSubgraph_mapping_size fullG vertices :
  size_Z (mapping (extractSubgraph fullG vertices)) = size_Z vertices.
Proof.
  simpl. rewrite (foldl_upd_size _
    (λ i, nth_Z (mapping fullG) (nth_Z vertices i))) by done.
  unfold size_Z at 1. rewrite length_fmap, length_seqZ. unfold size_Z. lia.
Qed.

Lemma extractSubgraph_adj_size fullG vertices :
  size_Z (adj (extractSubgraph fullG vertices)) = size_Z vertices.
Proof.
  simpl. rewrite insert_pairs_size. unfold size_Z at 1.
  rewrite length_replicate. unfold size_Z. lia.
Qed.

Lemma extractSubgraph_adj_elem fullG vertices p q :
  0 <= p →
  q ∈ nth_Z (adj (extractSubgraph fullG vertices)) p ↔
  ∃ a b, 0 <= a < b ∧ b < size_Z vertices
         ∧ nth_Z vertices b ∈ nth_Z (adj fullG) (nth_Z vertices a)
         ∧ ((p = a ∧ q = b) ∨ (p = b ∧ q = a)).
Proof.
  intros Hp. simpl. rewrite insert_pairs_elem; [| |done].
  2:{ intros a b Hab%elem_of_scan_pairs. unfold size_Z at 1 3.
      rewrite length_replicate. unfold size_Z in *. lia. }
  rewrite nth_replicate_empty. split.
  - intros [Hin|(a & b & Hab%elem_of_scan_pairs & Hc%bool_decide_eq_true & Hpq)];
      [set_solver|].
    exists a, b. tauto.
  - intros (a & b & Hab & Hb & Hc & Hpq). right. exists a, b.
    split; [apply elem_of_scan_pairs; lia|].
    split; [by apply bool_decide_eq_true|done].
Qed.

(** What [extractSubgraph] builds, field by field. *)
Lemma extractSubgraph_props fullG vertices :
  symmetric fullG →
  (∀ v, v ∈ vertices → 0 <= v < n fullG) →
  let subG := extractSubgraph fullG vertices in
  wf subG ∧ symmetric subG ∧ loop_free subG
  ∧ n subG = size_Z vertices ∧ orig_n subG = orig_n fullG
  ∧ (∀ i, 0 <= i < n subG →
       nth_Z (mapping subG) i = nth_Z (mapping fullG) (nth_Z vertices i))
  ∧ (∀ p q, 0 <= p < n subG → 0 <= q < n subG → p ≠ q →
       (q ∈ nth_Z (adj subG) p ↔
        nth_Z vertices q ∈ nth_Z (adj fullG) (nth_Z vertices p))).
Proof.
  intros Hsym Hrange subG. subst subG.
  assert (Hn : n (extractSubgraph fullG vertices) = size_Z vertices) by done.
  split; [|split; [|split; [|split; [|split; [|split]]]]]; try done.
  - split.
    + rewrite Hn. apply size_nonneg.
    + apply extractSubgraph_adj_size.
    + apply extractSubgraph_mapping_size.
    + intros p q Hp (a & b & Hab & Hb & _ & Hpq)%extractSubgraph_adj_elem;
        [|lia]. rewrite Hn. lia.
  - intros p q Hp Hq (a & b & Hab & Hb & Hc & Hpq)%extractSubgraph_adj_elem;
      [|lia].
    apply extractSubgraph_adj_elem; [lia|]. exists a, b. tauto.
  - intros p Hp (a & b & Hab & Hb & Hc & Hpq)%extractSubgraph_adj_elem; lia.
  - intros i Hi. rewrite Hn in Hi. by apply extractSubgraph_mapping.
  - intros p q Hp Hq Hne. rewrite Hn in Hp, Hq.
    assert (Hvr : ∀ i, 0 <= i < size_Z vertices →
                       0 <= nth_Z vertices i < n fullG).
    { intros i Hi. by apply Hrange, nth_elem_of. }
    rewrite extractSubgraph_adj_elem by lia. split.
    + intros (a & b & Hab & Hb & Hc & [[-> ->]|[-> ->]]); [done|].
      apply Hsym; auto with lia.
    + intros Hin. destruct (decide (p < q)).
      * exists p, q. tauto.
      * exists q, p. split; [lia|]. split; [lia|]. split; [|tauto].
        apply Hsym; auto with lia.
Qed.

(** X3: [extractSubgraph] always returns a well-formed graph with symmetric
    adjacency and no loop, with one vertex per entry of [vertices], the
    [orig_n] of the full graph and the mappings of the chosen vertices; on
    a full graph with symmetric adjacency, two distinct vertices of the
    result are adjacent exactly when the vertices they stand for are. *)
Theorem extractSubgraph_spec fullG vertices :
  symmetric fullG →
  (∀ v, v ∈ vertices → 0 <= v < n fullG) →
  let subG := extractSubgraph fullG vertices in
  wf subG ∧ symmetric subG ∧ loop_free subG
  ∧ n subG = size_Z vertices ∧ orig_n subG = orig_n fullG
  ∧ (∀ i, 0 <= i < n subG →
       nth_Z (mapping subG) i = nth_Z (mapping fullG) (nth_Z vertices i))
  ∧ (∀ p q, 0 <= p < n subG → 0 <= q < n subG → p ≠ q →
       (q ∈ nth_Z (adj subG) p ↔
        nth_Z vertices q ∈ nth_Z (adj fullG) (nth_Z vertices p))).
Proof. exact (extractSubgraph_props fullG vertices). Qed.

Lemma graph_eq (g h : Graph) :
  n g = n h → orig_n g = orig_n h → adj g = adj h → mapping g = mapping h →
  g = h.
Proof. destruct g, h. simpl. by intros -> -> -> ->. Qed.

(** X4: taking all the vertices in order gives the graph back. *)
Theorem extractSubgraph_all g :
  wf g → symmetric g → loop_free g →
  extractSubgraph g (seqZ 0 (n g)) = g.
Proof.
  intros Hwf Hsym Hlf.
  pose proof (wf_n _ Hwf) as Hn.
  assert (Hsz : size_Z (seqZ 0 (n g)) = n g) by by apply size_seqZ.
  destruct (extractSubgraph_props g (seqZ 0 (n g)) Hsym)
    as (Hwf' & _ & Hlf' & Hn' & Ho' & Hm' & Hadj').
  { intros v Hv%elem_of_seqZ. lia. }
  rewrite Hsz in Hn'. rewrite Hn' in Hm', Hadj'.
  apply graph_eq; [done..| |].
  - apply list_eq_by_nth.
    + by rewrite (wf_adj _ Hwf'), (wf_adj _ Hwf).
    + intros p Hp. rewrite (wf_adj _ Hwf'), Hn' in Hp.
      apply set_eq. intros q. split.
      * intros Hq.
        pose proof (wf_range _ Hwf' p q ltac:(lia) Hq) as Hqr.
        rewrite Hn' in Hqr.
        assert (Hpq : p ≠ q).
        { intros ->. apply (Hlf' q); [lia|done]. }
        apply Hadj' in Hq; [|done..]. by rewrite !nth_seqZ in Hq.
      * intros Hq. pose proof (wf_range _ Hwf p q Hp Hq) as Hqr.
        assert (Hpq : p ≠ q) by (intros ->; by apply (Hlf q)).
        apply Hadj'; [done..|]. by rewrite !nth_seqZ.
  - apply list_eq_by_nth.
    + by rewrite (wf_mapping _ Hwf'), (wf_mapping _ Hwf).
    + intros p Hp. rewrite (wf_mapping _ Hwf'), Hn' in Hp.
      rewrite Hm' by done. by rewrite nth_seqZ.
Qed.

(** ** [findConnectedComponents] *)

(** The scan of the neighbours [ws] appends to the queue and to the
    component, in order, the neighbours not yet visited, and marks them. *)
Lemma bfs_visit_fold_spec (m : Z) ws Q visited comp :
  size_Z visited = m → (∀ w, w ∈ ws → 0 <= w < m) →
  ∃ new visited',
    foldl bfs_visit (Q, visited, comp) ws = (Q ++ new, visited', comp ++ new)
    ∧ size_Z visited' = m
    ∧ NoDup new
    ∧ (∀ x, x ∈ new → (x ∈ ws) ∧ nth_Z visited x = false)
    ∧ (∀ x, 0 <= x →
         (nth_Z visited' x = true ↔ nth_Z visited x = true ∨ x ∈ new))
    ∧ (∀ w, w ∈ ws → nth_Z visited' w = true).
Proof.
  intros Hsz Hws. induction ws as [|w ws IH] using rev_ind.
  { exists [], visited. rewrite !app_nil_r. split; [done|]. split; [done|].
    split; [constructor|]. split; [by intros x ?%elem_of_nil|].
    split; [|by intros x ?%elem_of_nil].
    intros x _. split; [by left|]. by intros [?|?%elem_of_nil]. }
  destruct IH as (new & vis1 & Hf & Hsz1 & Hnd & Hnew & Hvis & Hall).
  { intros x Hx. apply Hws, elem_of_app. by left. }
  assert (Hw : 0 <= w < m).
  { apply Hws, elem_of_app. right. by apply list_elem_of_singleton. }
  rewrite foldl_snoc, Hf. simpl.
  destruct (nth_Z vis1 w) eqn:Hvw; simpl.
  - exists new, vis1. split; [done|]. split; [done|]. split; [done|]. split.
    { intros x Hx. destruct (Hnew x Hx). split; [|done].
      apply elem_of_app. by left. }
    split; [done|].
    intros x [Hx|Hx%list_elem_of_singleton]%elem_of_app; [auto|by subst].
  - assert (Hwnew : (w ∉ new) ∧ nth_Z visited w = false).
    { split.
      - intros Hin. assert (nth_Z vis1 w = true); [|congruence].
        apply Hvis; [lia|]. by right.
      - destruct (nth_Z visited w) eqn:Hv0; [|done].
        assert (nth_Z vis1 w = true); [|congruence].
        apply Hvis; [lia|]. by left. }
    destruct Hwnew as [Hwnew Hw0].
    exists (new ++ [w]), (upd_Z vis1 w true).
    rewrite !app_assoc. split; [done|]. split; [by rewrite size_upd_Z|].
    split.
    { apply NoDup_app. split; [done|]. split; [|apply NoDup_singleton].
      intros x Hx ->%list_elem_of_singleton. done. }
    split.
    { intros x [Hx|Hx%list_elem_of_singleton]%elem_of_app.
      - destruct (Hnew x Hx). split; [|done]. apply elem_of_app. by left.
      - subst. split; [|done]. apply elem_of_app. right.
        by apply list_elem_of_singleton. }
    split.
    { intros x Hx. rewrite nth_upd by lia. case_decide as Hwx.
      - subst x. split; [|done]. intros _. right. apply elem_of_app. right.
        by apply list_elem_of_singleton.
      - rewrite Hvis by done. rewrite elem_of_app, list_elem_of_singleton.
        split; [tauto|]. intros [?|[?|?]]; [tauto|tauto|congruence]. }
    intros x [Hx|Hx%list_elem_of_singleton]%elem_of_app.
    + assert (0 <= x < m) by (apply Hws, elem_of_app; by left).
      rewrite nth_upd by lia. case_decide; [done|]. by apply Hall.
    + subst. by rewrite nth_upd_eq by lia.
Qed.

Section Components.
Variable g : Graph.
Hypothesis Hwf : wf g.
Hypothesis Hsym : symmetric g.

Lemma bfs_loop_spec fuel done start :
  closed_under_adj g done →
  ∀ Q visited comp visited' comp',
    bfs_inv g done start Q visited comp →
    bfs_loop fuel g Q visited comp = Some (visited', comp') →
    bfs_inv g done start [] visited' comp' ∧ component_ok g comp'.
Proof.
  intros Hdone. induction fuel as [|fuel IH];
    intros Q visited comp visited' comp' Hinv Hrun; [done|].
  destruct Q as [|v Q]; simpl in Hrun.
  { injection Hrun as <- <-. split; [done|].
    destruct Hinv as [Hsz Hvis Hnd Hrange HQ Hscan Hstart Hconn].
    split; [|split; [done|]].
    - destruct Hstart as [rest ->]. by exists start, rest.
    - intros x w Hx Hw.
      pose proof (Hrange x Hx) as Hxr.
      pose proof (wf_range _ Hwf x w Hxr Hw) as Hwr.
      assert (Hvw : nth_Z visited w = true).
      { apply (Hscan x w); [done| |done]. by intros ?%elem_of_nil. }
      apply Hvis in Hvw; [|done].
      apply elem_of_app in Hvw as [Hwd|Hwc]; [|done].
      exfalso. assert (Hxd : x ∈ done).
      { apply (Hdone w x Hwd). by apply Hsym. }
      apply NoDup_app in Hnd as (_ & Hdisj & _). by apply (Hdisj x). }
  destruct Hinv as [Hsz Hvis Hnd Hrange HQ Hscan Hstart Hconn].
  assert (Hv : 0 <= v < n g) by (apply Hrange, HQ; by left).
  destruct (bfs_visit_fold_spec (n g) (elements (nth_Z (adj g) v)) Q visited
              comp Hsz)
    as (new & vis1 & Hf & Hsz1 & Hndn & Hnew & Hvis1 & Hall).
  { intros w Hw%elem_of_elements. by apply (wf_range _ Hwf v). }
  rewrite Hf in Hrun. apply IH in Hrun; [done|].
  assert (Hnewr : ∀ x, x ∈ new → 0 <= x < n g ∧ x ∈ nth_Z (adj g) v).
  { intros x Hx. destruct (Hnew x Hx) as [Hxw%elem_of_elements _].
    split; [|done]. by apply (wf_range _ Hwf v). }
  split.
  - done.
  - intros x Hx. rewrite Hvis1 by lia. rewrite Hvis by done.
    rewrite app_assoc, (elem_of_app _ new). done.
  - rewrite app_assoc. apply NoDup_app. split; [done|]. split; [|done].
    intros x Hx Hxn. destruct (Hnew x Hxn) as [_ Hx0].
    destruct (Hnewr x Hxn) as [Hxr _].
    apply Hvis in Hx; [|done]. congruence.
  - intros x [Hx|Hx]%elem_of_app; [by apply Hrange|by apply Hnewr].
  - intros x [Hx|Hx]%elem_of_app; apply elem_of_app; [left|by right].
    apply HQ. by right.
  - intros x w [Hx|Hx]%elem_of_app HxQ Hw.
    + destruct (decide (x = v)) as [->|Hxv].
      * apply Hall. by apply elem_of_elements.
      * apply Hvis1.
        { pose proof (wf_range _ Hwf x w (Hrange x Hx) Hw). lia. }
        left. apply (Hscan x w); [done| |done].
        intros [->|HxQ']%elem_of_cons; [done|].
        apply HxQ, elem_of_app. by left.
    + exfalso. apply HxQ, elem_of_app. by right.
  - destruct Hstart as [rest ->]. by exists (rest ++ new).
  - intros x [Hx|Hx]%elem_of_app; [by apply Hconn|].
    destruct (Hnewr x Hx) as [_ Hxv].
    apply (conn_step g start v x); [|done..].
    apply Hconn, HQ. by left.
Qed.

Lemma closed_join components :
  (∀ c, c ∈ components → closed_under_adj g c) →
  closed_under_adj g (mjoin components).
Proof.
  intros Hall v w (c & Hv & Hc)%list_elem_of_join Hw.
  apply list_elem_of_join. exists c. split; [|done]. by apply (Hall c Hc v).
Qed.

Lemma findConnectedComponents_inv comps :
  findConnectedComponents g = Some comps →
  ∃ visited, components_inv g (seqZ 0 (n g)) comps visited.
Proof.
  unfold findConnectedComponents.
  remember (S (Z.to_nat (n g))) as fuel eqn:Hfuel.
  set (step := λ (acc : option (list (list Z) * list bool)) (start : Z), _).
  assert (Hgen : ∀ l : list Z, (∀ s, s ∈ l → 0 <= s < n g) →
    ∀ comps visited,
      foldl step (Some ([], replicate (Z.to_nat (n g)) false)) l
        = Some (comps, visited) →
      components_inv g l comps visited).
  { induction l as [|s l IH] using rev_ind; intros Hl comps' visited Hf.
    - simpl in Hf. injection Hf as <- <-. split.
      + unfold size_Z. rewrite length_replicate.
        pose proof (wf_n _ Hwf). lia.
      + intros v Hv. rewrite nth_replicate by lia. simpl. split; [done|].
        by intros ?%elem_of_nil.
      + constructor.
      + by intros c ?%elem_of_nil.
      + by intros s ?%elem_of_nil.
    - rewrite foldl_snoc in Hf.
      destruct (foldl step _ l) as [[comps0 vis0]|] eqn:Hprev; [|done].
      assert (Hs : 0 <= s < n g).
      { apply Hl, elem_of_app. right. by apply list_elem_of_singleton. }
      destruct (IH ltac:(intros x Hx; apply Hl, elem_of_app; by left)
                   comps0 vis0 eq_refl)
        as [Hsz Hvis Hnd Hok Hseen].
      unfold step in Hf. simpl in Hf.
      destruct (nth_Z vis0 s) eqn:Hvs; simpl in Hf.
      + injection Hf as <- <-. split; try done.
        intros x [Hx|Hx%list_elem_of_singleton]%elem_of_app; [auto|by subst].
      + destruct (bfs_loop fuel g [s] (upd_Z vis0 s true) [s])
          as [[vis1 comp1]|] eqn:Hbfs; simpl in Hf; [|done].
        injection Hf as <- <-.
        assert (Hsnew : s ∉ mjoin comps0).
        { intros Hin. apply Hvis in Hin; [congruence|done]. }
        destruct (bfs_loop_spec fuel (mjoin comps0) s) with
          (Q := [s]) (visited := upd_Z vis0 s true) (comp := [s])
          (visited' := vis1) (comp' := comp1)
          as [[Hsz1 Hvis1 Hnd1 Hr1 _ _ Hst1 _] Hok1]; [| |done|].
        { apply closed_join. intros c Hc. apply (Hok c Hc). }
        { split.
          - by rewrite size_upd_Z.
          - intros v Hv. rewrite nth_upd by lia.
            rewrite elem_of_app, list_elem_of_singleton, <- Hvis by done.
            case_decide; [subst; tauto|]. split; [tauto|].
            intros [?|?]; [done|congruence].
          - apply NoDup_app. split; [done|]. split; [|apply NoDup_singleton].
            intros x Hx ->%list_elem_of_singleton. done.
          - by intros v ->%list_elem_of_singleton.
          - done.
          - intros v w Hv Hnq. by destruct Hnq.
          - by exists [].
          - intros v ->%list_elem_of_singleton. constructor. }
        assert (Hjoin : mjoin (comps0 ++ [comp1]) = mjoin comps0 ++ comp1).
        { rewrite join_app. simpl. by rewrite app_nil_r. }
        split.
        * done.
        * intros v Hv. by rewrite Hjoin, Hvis1.
        * by rewrite Hjoin.
        * intros c [Hc|Hc%list_elem_of_singleton]%elem_of_app;
            [auto|by subst].
        * intros x [Hx|Hx%list_elem_of_singleton]%elem_of_app.
          -- apply Hvis1; [apply Hl, elem_of_app; by left|].
             apply elem_of_app. left. apply Hvis; [|by apply Hseen].
             apply Hl, elem_of_app. by left.
          -- subst x. apply Hvis1; [done|]. apply elem_of_app. right.
             destruct Hst1 as [rest ->]. by left. }
  intros Hrun.
  destruct (foldl step _ (seqZ 0 (n g))) as [[comps0 vis0]|] eqn:Hf;
    simpl in Hrun; [|done].
  injection Hrun as <-. exists vis0. apply Hgen; [|done].
  intros s Hs%elem_of_seqZ. lia.
Qed.
End Components.

(** X2: on a well-formed graph with symmetric adjacency,
    [findConnectedComponents] returns a list of components in which every
    vertex occurs exactly once; every component is non-empty, all its
    members can be reached from its first member, and it contains every
    neighbour of each of its members. *)
Theorem findConnectedComponents_spec g :
  wf g → symmetric g →
  ∃ comps, findConnectedComponents g = Some comps
           ∧ mjoin comps ≡ₚ seqZ 0 (n g)
           ∧ ∀ c, c ∈ comps → component_ok g c.
Proof.
  intros Hwf Hsym.
  destruct (findConnectedComponents_returns g Hwf) as [comps Hrun].
  exists comps. split; [done|].
  destruct (findConnectedComponents_inv g Hwf Hsym comps Hrun)
    as [visited [Hsz Hvis Hnd Hok Hseen]].
  split; [|done].
  apply NoDup_Permutation; [done|apply NoDup_seqZ|].
  intros v. rewrite elem_of_seqZ. split.
  - intros (c & Hv & Hc)%list_elem_of_join.
    destruct (Hok c Hc) as (_ & Hr & _). specialize (Hr v Hv). lia.
  - intros Hv. apply Hvis; [lia|]. apply Hseen, elem_of_seqZ. lia.
Qed.

(** ** The input graph *)

Lemma insert_pairs_filter c l a0 :
  foldl (insert_pairs_step c) a0 l
  = foldl (insert_pairs_step c) a0 (filter (λ p, c p.1 p.2 = true) l).
Proof.
  revert a0. induction l as [|p l IH]; intros a0; [done|].
  rewrite filter_cons. simpl. destruct (decide (c p.1 p.2 = true)) as [Hc|Hc].
  - simpl. apply IH.
  - rewrite <- IH. f_equal. unfold insert_pairs_step.
    by destruct (c p.1 p.2).
Qed.

Lemma edge_in_range_true n_ u v :
  edge_in_range n_ u v = true ↔ 0 <= u < n_ ∧ 0 <= v < n_.
Proof. unfold edge_in_range. rewrite !andb_true_iff. lia. Qed.

Lemma graph_from_edges_elem n_ edges p q :
  0 <= n_ → 0 <= p →
  q ∈ nth_Z (adj (graph_from_edges n_ edges)) p ↔
  (0 <= p < n_ ∧ 0 <= q < n_) ∧ ((p, q) ∈ edges ∨ (q, p) ∈ edges).
Proof.
  intros Hn Hp. simpl. rewrite insert_pairs_filter.
  rewrite insert_pairs_elem; [| |done].
  2:{ intros a b [Hc%edge_in_range_true _]%list_elem_of_filter.
      unfold size_Z. rewrite length_replicate. simpl in Hc. lia. }
  rewrite nth_replicate_empty. split.
  - intros [?|(a & b & [_ Hin]%list_elem_of_filter
                 & Hc%edge_in_range_true & Hpq)]; [set_solver|].
    destruct Hpq as [[-> ->]|[-> ->]]; (split; [lia|tauto]).
  - intros [Hr [Hin|Hin]]; right.
    + exists p, q. rewrite list_elem_of_filter, edge_in_range_true. simpl.
      rewrite edge_in_range_true. tauto.
    + exists q, p. rewrite list_elem_of_filter, edge_in_range_true. simpl.
      rewrite edge_in_range_true. tauto.
Qed.

(** X1: the graph built from [n_ >= 0] and a list of edges is well formed
    with symmetric adjacency, has [n = orig_n = n_] and every vertex
    standing for itself; two vertices are adjacent exactly when the list
    holds the pair in one order or the other, so that edges with an
    endpoint outside [0, n_) are dropped and repeated edges count once.
    It is an input graph for the search unless the list joins a vertex to
    itself. *)
Theorem graph_from_edges_spec n_ edges :
  0 <= n_ →
  let g := graph_from_edges n_ edges in
  wf g ∧ symmetric g
  ∧ n g = n_ ∧ orig_n g = n_
  ∧ mapping g = (λ i, [i]) <$> seqZ 0 n_
  ∧ (∀ p q, 0 <= p < n_ → 0 <= q < n_ →
       (q ∈ nth_Z (adj g) p ↔ (p, q) ∈ edges ∨ (q, p) ∈ edges))
  ∧ ((∀ u, 0 <= u < n_ → (u, u) ∉ edges) → input_graph g).
Proof.
  intros Hn g. subst g.
  assert (Hwf : wf (graph_from_edges n_ edges)).
  { split; simpl.
    - done.
    - rewrite insert_pairs_size. unfold size_Z.
      rewrite length_replicate. lia.
    - unfold size_Z. rewrite length_fmap, length_seqZ. lia.
    - intros p q Hp Hq.
      change (q ∈ nth_Z (adj (graph_from_edges n_ edges)) p) in Hq.
      apply graph_from_edges_elem in Hq; lia. }
  assert (Hsym : symmetric (graph_from_edges n_ edges)).
  { intros p q Hp Hq Hin. simpl in Hp, Hq.
    apply graph_from_edges_elem in Hin; [|lia..].
    apply graph_from_edges_elem; [lia..|]. tauto. }
  do 5 (split; [done|]). split.
  - intros p q Hp Hq. rewrite graph_from_edges_elem by lia. tauto.
  - intros Hloop. split; try done.
    intros u Hu Hin. simpl in Hu.
    apply graph_from_edges_elem in Hin; [|lia..].
    apply (Hloop u Hu). tauto.
Qed.

(** ** More on DSATUR *)

Lemma pick_in_range nLocal col sat deg :
  let v := pickNextVertex nLocal col sat deg in
  v = -1 ∨ 0 <= v < nLocal.
Proof.
  unfold pickNextVertex.
  assert (Hgen : ∀ l : list Z,
    let r := foldl (pick_step col sat deg) (-1, -1, -1) l in
    r.1.1 = -1 ∨ r.1.1 ∈ l).
  { induction l as [|x l IH] using rev_ind; [by left|].
    rewrite foldl_snoc. simpl in IH.
    destruct (foldl _ _ l) as [[bV bS] bD]. simpl in *.
    assert (Hlast : x ∈ l ++ [x]).
    { apply elem_of_app. right. by apply list_elem_of_singleton. }
    destruct (nth_Z col x =? -1); simpl.
    - destruct (_ || _); simpl; [by right|].
      destruct IH as [?|?]; [by left|right]. apply elem_of_app. by left.
    - destruct IH as [?|?]; [by left|right]. apply elem_of_app. by left. }
  destruct (Hgen (seqZ 0 nLocal)) as [?|Hin%elem_of_seqZ]; [by left|right].
  lia.
Qed.

(** X12: on a well-formed graph with symmetric adjacency, a pass of the
    DSATUR loop leaves the vector [saturation] as it was, whatever the
    state: the vertex just coloured is itself found by the scan for its
    colour. *)
Theorem dsatur_step_saturation_unchanged g deg st st' :
  wf g → symmetric g → size_Z (color st) = n g →
  dsatur_step g deg st = Some st' →
  saturation st' = saturation st.
Proof.
  intros Hwf Hsym Hsz Hstep. unfold dsatur_step in Hstep.
  pose proof (pick_in_range (n g) (color st) (saturation st) deg) as Hv.
  simpl in Hv.
  destruct (Z.eqb_spec (pickNextVertex (n g) (color st) (saturation st) deg)
                       (-1)) as [|Hne]; [done|].
  injection Hstep as <-. simpl.
  apply update_saturation_unchanged; [done..|]. lia.
Qed.

Lemma dsatur_step_greedy g deg s st st' :
  wf g → dsatur_inv g s st → 0 <= s < n g →
  dsatur_step g deg st = Some st' →
  greedy_coloring g (color st) → greedy_coloring g (color st').
Proof.
  intros Hwf [Hsz Hsat Hrange Hprop Hcnt] Hs Hstep Hgr.
  unfold dsatur_step in Hstep.
  assert (Hsat0 : ∀ u, 0 <= u < n g → 0 <= nth_Z (saturation st) u).
  { intros u Hu. rewrite Hsat, nth_replicate by lia. lia. }
  pose proof (pickNextVertex_spec (n g) (color st) (saturation st) deg Hsat0)
    as Hpick. simpl in Hpick.
  set (v := pickNextVertex (n g) (color st) (saturation st) deg) in *.
  destruct Hpick as [[Hm1 _]|[Hv Hunc]].
  { rewrite Hm1 in Hstep. done. }
  destruct (Z.eqb_spec v (-1)) as [|_]; [lia|].
  injection Hstep as <-. simpl.
  destruct (mark_used_spec (n g) (color st) (elements (nth_Z (adj g) v)))
    as [Husz Hused]; [lia| |].
  { intros w Hw%elem_of_elements Hc.
    pose proof (wf_range _ Hwf v w Hv Hw) as Hwr.
    specialize (Hrange w Hwr). lia. }
  set (used := mark_used (n g) (color st) (elements (nth_Z (adj g) v))) in *.
  destruct (first_free_spec used 0) as (Hc0 & Hbelow & _).
  set (c := first_free used 0) in *.
  intros u k Hu Hk. rewrite nth_upd in Hk by lia.
  assert (Hkeep : ∀ w, nth_Z (color st) w = k → 0 <= w < n g →
                       nth_Z (upd_Z (color st) v c) w = k).
  { intros w Hw Hwr. rewrite nth_upd by lia.
    destruct (decide (v = w)) as [Hvw|Hvw]; [|done].
    rewrite <- Hvw in Hw. lia. }
  destruct (decide (v = u)) as [Hvu|Hvu].
  - pose proof (Hbelow k ltac:(lia)) as Hk'. rewrite Z.sub_0_r in Hk'.
    apply Hused in Hk' as (w & Hw%elem_of_elements & _ & Hwk); [|lia].
    exists w. rewrite <- Hvu. split; [done|].
    apply Hkeep; [done|]. by apply (wf_range _ Hwf v).
  - destruct (Hgr u k Hu Hk) as (w & Hw & Hwk).
    exists w. split; [done|]. apply Hkeep; [done|].
    by apply (wf_range _ Hwf u).
Qed.

Lemma dsatur_loop_greedy g deg k s st :
  wf g → symmetric g → loop_free g →
  dsatur_inv g s st → 0 <= s → s + Z.of_nat k = n g →
  greedy_coloring g (color st) →
  greedy_coloring g (color (dsatur_loop k g deg st)).
Proof.
  intros Hwf Hsym Hlf. revert s st.
  induction k as [|k IH]; intros s st Hinv Hs Hk Hgr; simpl; [done|].
  destruct (dsatur_step_inv g deg s st) as (st' & Hstep & Hinv');
    [done..|lia|].
  rewrite Hstep. apply (IH (s + 1)); [done|lia|lia|].
  apply (dsatur_step_greedy g deg s st st'); [done..|lia|done|done].
Qed.

(** X11: the colouring that [heuristicColoring] returns is greedy: every
    vertex has a neighbour of each colour below its own.  Hence some
    vertex has at least [k - 1] neighbours: the number of colours is at
    most the greatest degree plus one. *)
Theorem heuristicColoring_greedy g k colors :
  wf g → symmetric g → loop_free g →
  heuristicColoring g = (k, colors) →
  greedy_coloring g colors
  ∧ (0 < n g → ∃ v, 0 <= v < n g ∧ k <= degree_of g v + 1).
Proof.
  intros Hwf Hsym Hlf Hh.
  assert (Hgr : greedy_coloring g colors).
  { unfold heuristicColoring in Hh. injection Hh as _ <-.
    apply (dsatur_loop_greedy g _ _ 0); try done.
    - apply dsatur_init_inv, Hwf.
    - pose proof (wf_n _ Hwf). lia.
    - intros v c Hv Hc. simpl in Hc. rewrite nth_replicate in Hc by lia. lia. }
  split; [done|]. intros Hpos.
  destruct (heuristicColoring_spec g k colors Hwf Hsym Hlf Hh)
    as (_ & _ & _ & _ & _ & Hmax).
  destruct (Hmax Hpos) as (v & Hv & Hk). exists v. split; [done|].
  assert (Hsub : seqZ 0 (k - 1) ⊆+ nth_Z colors <$> elements (nth_Z (adj g) v)).
  { apply NoDup_submseteq; [apply NoDup_seqZ|].
    intros c Hc%elem_of_seqZ.
    destruct (Hgr v c Hv ltac:(lia)) as (w & Hw & Hwc).
    apply list_elem_of_fmap. exists w. split; [done|].
    by apply elem_of_elements. }
  apply submseteq_length in Hsub.
  rewrite length_fmap, length_seqZ in Hsub. unfold degree_of.
  change (length (elements (nth_Z (adj g) v))) with (size (nth_Z (adj g) v))
    in Hsub.
  lia.
Qed.

(** ** More on the two operators *)

(** X6: the merged graph is the quotient of [g]: two distinct vertices of
    it are adjacent exactly when some old vertex of the one is adjacent to
    some old vertex of the other. *)
Theorem mergeVertices_quotient g i j p q :
  symmetric g → 0 <= i < n g → 0 <= j < n g → i ≠ j →
  0 <= p < n g - 1 → 0 <= q < n g - 1 → p ≠ q →
  q ∈ nth_Z (adj (mergeVertices g i j)) p ↔
  ∃ x y, in_class i j p x ∧ in_class i j q y ∧ y ∈ nth_Z (adj g) x.
Proof.
  intros Hsym Hi Hj Hne Hp Hq Hpq. split.
  - intros (a & b & Hab & Hb & Hc & Hab')%merge_adj_elem; [|done|lia].
    apply merge_connected_inv in Hc as (x & y & Hx & Hy & Hadj).
    destruct Hab' as [[-> ->]|[-> ->]].
    + by exists x, y.
    + exists y, x. split; [done|]. split; [done|].
      apply Hsym; [by apply (in_class_range g i j a)
                  |by apply (in_class_range g i j b)|done].
  - intros (x & y & Hx & Hy & Hadj).
    by apply (merge_adj_class g i j p q x y).
Qed.

Lemma adj_vector_eq (a b : list (gset Z)) :
  size_Z a = size_Z b →
  (∀ p q, 0 <= p < size_Z a → q ∈ nth_Z a p ↔ q ∈ nth_Z b p) →
  a = b.
Proof.
  intros Hsz Helem. apply list_eq_by_nth; [done|].
  intros p Hp. apply set_eq. intros q. by apply Helem.
Qed.

(** X7: on vertices of the graph, [addEdge] does not depend on the order
    of its two arguments, and two calls can be exchanged. *)
Theorem addEdge_commutes g i j k l :
  size_Z (adj g) = n g →
  0 <= i < n g → 0 <= j < n g → 0 <= k < n g → 0 <= l < n g →
  addEdge g i j = addEdge g j i
  ∧ (addEdge g i j ≫= λ g1, addEdge g1 k l)
    = (addEdge g k l ≫= λ g1, addEdge g1 i j).
Proof.
  intros Hsz Hi Hj Hk Hl. split.
  - rewrite !addEdge_in_range by done. do 2 f_equal.
    apply adj_vector_eq; [by rewrite !size_set_insert_at|].
    intros p q Hp. rewrite !size_set_insert_at in Hp.
    rewrite !elem_of_set_insert_at by (rewrite ?size_set_insert_at; lia).
    tauto.
  - rewrite (addEdge_in_range g i j), (addEdge_in_range g k l) by done.
    simpl.
    rewrite !addEdge_in_range
      by (simpl; rewrite ?size_set_insert_at; done).
    simpl. do 2 f_equal.
    apply adj_vector_eq; [by rewrite !size_set_insert_at|].
    intros p q Hp. rewrite !size_set_insert_at in Hp.
    rewrite !elem_of_set_insert_at by (rewrite ?size_set_insert_at; lia).
    tauto.
Qed.

(** X8: adding an edge that is not there raises the degrees of its two
    endpoints by one and leaves every other degree as it was. *)
Theorem addEdge_degrees g i j g' :
  size_Z (adj g) = n g → 0 <= i < n g → 0 <= j < n g → i ≠ j →
  j ∉ nth_Z (adj g) i → i ∉ nth_Z (adj g) j →
  addEdge g i j = Some g' →
  degree_of g' i = degree_of g i + 1
  ∧ degree_of g' j = degree_of g j + 1
  ∧ ∀ v, 0 <= v → v ≠ i → v ≠ j → degree_of g' v = degree_of g v.
Proof.
  intros Hsz Hi Hj Hne Hji Hij He.
  rewrite addEdge_in_range in He by done. injection He as <-.
  unfold degree_of. simpl.
  assert (Helem : ∀ p q, 0 <= p →
    q ∈ nth_Z (set_insert_at (set_insert_at (adj g) i j) j i) p ↔
    q ∈ nth_Z (adj g) p ∨ (p = i ∧ q = j) ∨ (p = j ∧ q = i)).
  { intros p q Hp.
    rewrite !elem_of_set_insert_at by (rewrite ?size_set_insert_at; lia).
    tauto. }
  assert (Hai : nth_Z (set_insert_at (set_insert_at (adj g) i j) j i) i
                = {[j]} ∪ nth_Z (adj g) i).
  { apply set_eq. intros q. rewrite Helem by lia. set_solver. }
  assert (Haj : nth_Z (set_insert_at (set_insert_at (adj g) i j) j i) j
                = {[i]} ∪ nth_Z (adj g) j).
  { apply set_eq. intros q. rewrite Helem by lia. set_solver. }
  split; [|split].
  - rewrite Hai, size_union, size_singleton by set_solver. lia.
  - rewrite Haj, size_union, size_singleton by set_solver. lia.
  - intros v Hv Hvi Hvj. do 2 f_equal. apply set_eq. intros q.
    rewrite Helem by lia. tauto.
Qed.


(** ** The part of [main] around the search *)

Section Main.
Context {seconds : Type}.
Variable time_ge : seconds → seconds → bool.
Variable elapsed : nat → seconds.

Lemma foldl_None {A B} (f : option A → B → option A) (l : list B) :
  (∀ x, f None x = None) → foldl f None l = None.
Proof. intros Hf. induction l as [|x l IH]; simpl; [done|]. by rewrite Hf. Qed.

(** X23: when the time limit has already passed at the first clock reading
    and the graph has more than one component, [compBest.coloring] is
    still empty after the search of the first component, and the loop
    that copies it into [localColoring] reads it out of bounds. *)
Theorem solve_components_timeout fuel g (timeLimit : seconds) (w : Globals)
    comps :
  wf g → symmetric g →
  findConnectedComponents g = Some comps → 1 < size_Z comps →
  time_ge (elapsed (clock_reads w)) timeLimit = true →
  solve time_ge elapsed fuel g timeLimit w = None.
Proof.
  intros Hwf Hsym Hc Hsz Ht. unfold solve. rewrite Hc. simpl.
  destruct (Z.gtb_spec (size_Z comps) 1) as [_|]; [|lia].
  destruct (findConnectedComponents_inv g Hwf Hsym comps Hc)
    as [visited [_ _ _ Hok _]].
  destruct comps as [|c0 comps]; [unfold size_Z in Hsz; simpl in Hsz; lia|].
  destruct (Hok c0 ltac:(by left)) as [(start & rest & -> & _) _].
  match goal with |- context [foldl ?f _ (_ :: comps)] => set (step := f) end.
  assert (Hfirst : step (Some (0, replicate (Z.to_nat (orig_n g)) (-1), w))
                     (start :: rest) = None).
  { unfold step. simpl. destruct fuel as [|fuel]; [done|].
    simpl. rewrite Ht. simpl.
    assert (Hat : at_checked (@nil Z) start = None).
    { unfold at_checked. by destruct (in_bounds _ _). }
    rewrite Hat. simpl. rewrite foldl_None; [done|]. done. }
  match goal with |- context [foldl step ?a (?x :: ?l)] =>
    change (foldl step a (x :: l)) with (foldl step (step a x) l) end.
  rewrite Hfirst. rewrite foldl_None; [done|]. done.
Qed.

Local Opaque heuristicColoring heuristicMaxClique selectBranchingPair
  mergeVertices addEdge update_best.

(** A property of graphs that both branchings keep holds of every task
    that [decomposeBnb] emits. *)
Lemma decomposeBnb_tasks_inv (P : Graph → Prop) :
  (∀ g v1 v2 g', P g → 0 <= v1 < v2 → v2 < n g → v2 ∉ nth_Z (adj g) v1 →
     addEdge g v1 v2 = Some g' → P (mergeVertices g v1 v2) ∧ P g') →
  ∀ fuel g depth decompDepth tasks (timeLimit : seconds) dummy (w : Globals)
    tasks' w',
    P g → (∀ t, t ∈ tasks → P t) →
    decomposeBnb time_ge elapsed fuel g depth decompDepth tasks timeLimit
                 dummy w = Some (tasks', w') →
    ∀ t, t ∈ tasks' → P t.
Proof.
  intros Hstep. induction fuel as [|fuel IH];
    intros g depth dd tasks tl dummy w tasks' w' Hg Htasks Hrun; [done|].
  simpl in Hrun.
  destruct (time_ge _ _); [by injection Hrun as <- _|].
  destruct (depth >=? dd).
  { injection Hrun as <- _.
    intros t [Ht|Ht%list_elem_of_singleton]%elem_of_app; [auto|by subst]. }
  destruct (heuristicMaxClique g) as [[lb clique]|]; [|done]. simpl in Hrun.
  destruct (heuristicColoring g) as [ub col].
  destruct (lb =? ub); [by injection Hrun as <- _|].
  destruct (lb >=? numColors dummy); [by injection Hrun as <- _|].
  destruct (selectBranchingPair g) as [v1 v2] eqn:Hsel.
  destruct (Z.eqb_spec v1 (-1)) as [|Hv1]; [by injection Hrun as <- _|].
  destruct (selectBranchingPair_valid g v1 v2 Hsel Hv1) as (H12 & H2 & Hnadj).
  destruct (addEdge g v1 v2) as [childEdge|] eqn:He; [|done].
  simpl in Hrun.
  destruct (decomposeBnb _ _ fuel (mergeVertices g v1 v2) _ _ _ _ _ _)
    as [[tasks2 w2]|] eqn:Hm; simpl in Hrun; [|done].
  destruct (Hstep g v1 v2 childEdge Hg H12 H2 Hnadj He) as [HPm HPe].
  pose proof (IH _ _ _ _ _ _ _ _ _ HPm Htasks Hm) as Ht2.
  exact (IH _ _ _ _ _ _ _ _ _ HPe Ht2 Hrun).
Qed.

Lemma update_best_ok_inv g0 g ub col best :
  0 <= n g0 → reach_inv g0 g →
  heuristicColoring g = (ub, col) →
  update_best g ub col best = best
  ∨ solution_ok g0 (update_best g ub col best).
Proof.
  Local Transparent update_best.
  intros Hn0 Hr Hh. unfold update_best.
  destruct (Z.ltb_spec ub (numColors best)); [right|by left].
  pose proof (ri_inv _ _ Hr) as Hinv.
  destruct (heuristicColoring_spec g ub col (inv_wf _ Hinv)
              (inv_symmetric _ Hinv) (inv_loop_free _ Hinv) Hh)
    as (_ & Hprop & Hrange & _).
  exact (lift_coloring_proper g0 g col ub Hr Hn0 Hprop Hrange).
  Local Opaque update_best.
Qed.

(** Whatever [branchAndBound] stores is what it was given or a proper
    colouring of [g0], for every graph that satisfies the invariant of
    the search tree of [g0]. *)
Lemma branchAndBound_solution_ok_inv g0 fuel :
  0 <= n g0 →
  ∀ g best (timeLimit : seconds) depth (w : Globals) best' w',
    reach_inv g0 g →
    branchAndBound time_ge elapsed fuel g best timeLimit depth w
      = Some (best', w') →
    best' = best ∨ solution_ok g0 best'.
Proof.
  intros Hn0. induction fuel as [|fuel IH];
    intros g best timeLimit depth w best' w' Hreach Hrun; [done|].
  simpl in Hrun.
  destruct (time_ge _ _); [injection Hrun as <- _; by left|].
  destruct (heuristicMaxClique g) as [[lb clique]|]; [|done]. simpl in Hrun.
  destruct (heuristicColoring g) as [ub col] eqn:Hh.
  set (best1 := update_best g ub col best) in *.
  assert (Hb1 : best1 = best ∨ solution_ok g0 best1)
    by by apply update_best_ok_inv.
  destruct (lb =? ub); [by injection Hrun as <- _|].
  destruct (lb >=? numColors best1); [by injection Hrun as <- _|].
  destruct (selectBranchingPair g) as [v1 v2] eqn:Hsel.
  destruct (Z.eqb_spec v1 (-1)) as [|Hv1]; [by injection Hrun as <- _|].
  destruct (selectBranchingPair_valid g v1 v2 Hsel Hv1)
    as (H12 & H2 & Hnadj).
  assert (Hr1 : 0 <= v1 < n g) by lia.
  assert (Hr2 : 0 <= v2 < n g) by lia.
  assert (Hne : v1 ≠ v2) by lia.
  destruct (addEdge g v1 v2) as [childEdge|] eqn:He; [|done].
  simpl in Hrun.
  assert (Hboth : ∀ w0 r,
    (branchAndBound time_ge elapsed fuel (mergeVertices g v1 v2) best1
       timeLimit (depth + 1) w0 ≫=
     λ '(b, w1), branchAndBound time_ge elapsed fuel childEdge b
                   timeLimit (depth + 1) w1) = Some r →
    r.1 = best ∨ solution_ok g0 r.1).
  { clear Hrun. intros w0 [b3 w3] Hr. simpl.
    destruct (branchAndBound _ _ fuel (mergeVertices g v1 v2) _ _ _ _)
      as [[b2 w2]|] eqn:Hm; simpl in Hr; [|done].
    apply IH in Hm;
      [|exact (merge_reach_inv g0 g v1 v2 Hreach Hr1 Hr2 Hne Hnadj)].
    apply IH in Hr;
      [|exact (addEdge_reach_inv g0 g childEdge v1 v2 Hreach Hr1 Hr2 Hne He)].
    destruct Hr as [->|?]; [|by right].
    destruct Hm as [->|?]; [|by right]. done. }
  destruct ((n g >=? MIN_VERTICES_FOR_TASK) && (depth <? MAX_TASK_DEPTH));
    by apply Hboth in Hrun.
Qed.

(** A run without time-out leaves at most [n g] colours. *)
Lemma branchAndBound_le_n fuel g best (timeLimit : seconds) depth
    (w : Globals) best' w' :
  graph_inv g →
  branchAndBound time_ge elapsed fuel g best timeLimit depth w
    = Some (best', w') →
  searchCompleted w' = true →
  numColors best' <= n g.
Proof.
  intros Hinv Hrun Hflag.
  destruct (heuristicColoring g) as [ub col] eqn:Hh.
  destruct (heuristicColoring_spec g ub col (inv_wf _ Hinv)
              (inv_symmetric _ Hinv) (inv_loop_free _ Hinv) Hh)
    as (_ & Hprop & Hrange & Hub & _).
  pose proof (branchAndBound_optimal time_ge elapsed fuel g _ _ _ _ _ _ ub
                Hinv Hrun Hflag
                (proper_coloring_colorable g col ub ltac:(lia) Hprop Hrange)).
  lia.
Qed.

(** The loop of [main] over the tasks. *)
Lemma tasks_fold g0 fuel (timeLimit : seconds) :
  0 <= n g0 →
  ∀ tasks best (w : Globals),
    (∀ t, t ∈ tasks →
          reach_inv g0 t ∧ (length (open_pairs t) < fuel)%nat) →
    ∃ best' w',
      foldl (λ acc task,
               '(localBest, w) ← acc;
               branchAndBound time_ge elapsed fuel task localBest
                              timeLimit 2 w)
            (Some (best, w)) tasks = Some (best', w')
      ∧ (best' = best ∨ solution_ok g0 best')
      ∧ numColors best' <= numColors best
      ∧ (searchCompleted w = false → searchCompleted w' = false)
      ∧ (searchCompleted w' = true → tasks ≠ [] → numColors best' <= n g0).
Proof.
  intros Hn0. induction tasks as [|t tasks IH]; intros best w Htasks.
  { exists best, w. simpl. split; [done|]. split; [by left|].
    split; [lia|]. done. }
  destruct (Htasks t ltac:(by left)) as [Hr Hlen].
  pose proof (ri_inv _ _ Hr) as Hinv.
  destruct (branchAndBound_returns time_ge elapsed fuel t best timeLimit 2 w
              Hinv Hlen) as [[b1 w1] Hrun].
  destruct (IH b1 w1) as (best' & w' & Hf & Hok & Hle & Hflag & _).
  { intros t' Ht'. apply Htasks. by right. }
  exists best', w'. simpl.
  change (Some (best, w) ≫= _) with
    (branchAndBound time_ge elapsed fuel t best timeLimit 2 w).
  rewrite Hrun. split; [done|].
  destruct (branchAndBound_mono time_ge elapsed fuel t _ _ _ _ _ _ Hrun)
    as [Hle1 Hflag1].
  split; [|split; [lia|split; [auto|]]].
  - destruct Hok as [->|?]; [|by right].
    exact (branchAndBound_solution_ok_inv g0 fuel Hn0 t _ _ _ _ _ _ Hr Hrun).
  - intros Hw' _.
    assert (Hw1 : searchCompleted w1 = true).
    { destruct (searchCompleted w1); [done|]. by rewrite Hflag in Hw'. }
    pose proof (branchAndBound_le_n fuel t _ _ _ _ _ _ Hinv Hrun Hw1).
    pose proof (inv_n_le _ Hinv). pose proof (ri_orig _ _ Hr). lia.
Qed.

(** The single-component branch on a graph [subG] that satisfies the
    invariant of the search tree of [g0]. *)
Lemma solve_single_ok g0 subG fuel (timeLimit : seconds) (w : Globals) :
  0 <= n g0 < INF → reach_inv g0 subG →
  (length (open_pairs subG) < fuel)%nat → (2 < fuel)%nat →
  ∃ k col w',
    solve_single time_ge elapsed fuel subG timeLimit w = Some (k, col, w')
    ∧ (k = INF ∧ col = []
       ∨ solution_ok g0 {| numColors := k; coloring := col |})
    ∧ (searchCompleted w' = true →
       solution_ok g0 {| numColors := k; coloring := col |}).
Proof.
  intros Hn0 Hr Hlen H2. unfold solve_single.
  pose proof (ri_inv _ _ Hr) as Hinv.
  destruct (decomposeBnb_returns time_ge elapsed fuel subG 0 2 [] timeLimit
              {| numColors := INF; coloring := [] |} w Hinv ltac:(lia))
    as [[tasks w1] Hd].
  rewrite Hd. simpl.
  set (P := λ t, reach_inv g0 t
                 ∧ (length (open_pairs t) < fuel)%nat).
  assert (HP : ∀ t, t ∈ tasks → P t).
  { assert (Hstep : ∀ g v1 v2 g', P g → 0 <= v1 < v2 → v2 < n g →
      v2 ∉ nth_Z (adj g) v1 → addEdge g v1 v2 = Some g' →
      P (mergeVertices g v1 v2) ∧ P g').
    { intros g v1 v2 g' [Hg Hgl] H12 Hv2 Hnadj He.
      pose proof (ri_inv _ _ Hg) as Hgi.
      pose proof (merge_open_pairs g v1 v2 Hgi H12 Hv2 Hnadj).
      pose proof (addEdge_open_pairs g g' v1 v2 Hgi H12 Hv2 Hnadj He).
      split; (split; [|lia]).
      + apply merge_reach_inv; [done|lia..|done].
      + apply (addEdge_reach_inv g0 g g' v1 v2); [done|lia..|done]. }
    assert (Hnil : ∀ t : Graph, t ∈ @nil Graph → P t)
      by by intros t ?%elem_of_nil.
    exact (decomposeBnb_tasks_inv P Hstep fuel subG 0 2 [] timeLimit _ w
             tasks w1 (conj Hr Hlen) Hnil Hd). }
  set (tasks' := if bool_decide (tasks = []) then [subG] else tasks).
  assert (HP' : ∀ t, t ∈ tasks' → P t).
  { unfold tasks'. case_bool_decide; [|done].
    by intros t ->%list_elem_of_singleton. }
  assert (Hne : tasks' ≠ []).
  { unfold tasks'. by case_bool_decide. }
  destruct (tasks_fold g0 fuel timeLimit ltac:(lia) tasks'
              ColoringSolution_default w1 HP')
    as (best' & w' & Hf & Hok & _ & _ & Hbound).
  rewrite Hf. simpl. exists (numColors best'), (coloring best'), w'.
  split; [done|].
  assert (Heta : {| numColors := numColors best'; coloring := coloring best' |}
                 = best') by by destruct best'.
  rewrite Heta. split.
  - destruct Hok as [->|?]; [by left|by right].
  - intros Hw'. destruct Hok as [->|?]; [|done].
    specialize (Hbound Hw' Hne). simpl in Hbound. unfold INF in *. lia.
Qed.

Local Transparent heuristicColoring heuristicMaxClique selectBranchingPair
  mergeVertices addEdge update_best.

(** X19: on an input graph with fewer than [INF] vertices and with enough
    fuel, the single-component branch of [main] returns; what it returns
    is the default solution or a proper colouring of the graph with
    colours below the number reported, and it is such a colouring
    whenever [searchCompleted] is still true at the end. *)
Theorem solve_single_valid g0 fuel (timeLimit : seconds) (w : Globals) :
  input_graph g0 → n g0 < INF →
  (length (open_pairs g0) < fuel)%nat → (2 < fuel)%nat →
  ∃ k col w',
    solve_single time_ge elapsed fuel g0 timeLimit w = Some (k, col, w')
    ∧ (k = INF ∧ col = []
       ∨ solution_ok g0 {| numColors := k; coloring := col |})
    ∧ (searchCompleted w' = true →
       solution_ok g0 {| numColors := k; coloring := col |}).
Proof.
  intros Hin Hn Hlen H2.
  apply solve_single_ok; [|by apply input_graph_inv|done..].
  pose proof (wf_n _ (in_wf _ Hin)). lia.
Qed.

End Main.





(** ** The search on a subgraph *)

Lemma heuristicMaxClique_relabel c N h :
  heuristicMaxClique (relabel c N h) = heuristicMaxClique h.
Proof. reflexivity. Qed.

Lemma dsatur_step_relabel c N h deg st :
  dsatur_step (relabel c N h) deg st = dsatur_step h deg st.
Proof. reflexivity. Qed.

Lemma dsatur_loop_relabel c N h steps :
  ∀ deg st,
    dsatur_loop steps (relabel c N h) deg st = dsatur_loop steps h deg st.
Proof.
  induction steps as [|k IH]; intros deg st; simpl; [done|].
  rewrite dsatur_step_relabel. by destruct (dsatur_step h deg st).
Qed.

Lemma heuristicColoring_relabel c N h :
  heuristicColoring (relabel c N h) = heuristicColoring h.
Proof.
  unfold heuristicColoring. by rewrite dsatur_loop_relabel.
Qed.

Lemma selectBranchingPair_relabel c N h :
  selectBranchingPair (relabel c N h) = selectBranchingPair h.
Proof. reflexivity. Qed.

Lemma addEdge_relabel c N h i j :
  addEdge (relabel c N h) i j = relabel c N <$> addEdge h i j.
Proof.
  unfold addEdge. simpl. destruct ((i <? n h) && (j <? n h)); [|done].
  destruct (set_insert_checked (adj h) i j) as [a1|]; [|done]. simpl.
  by destruct (set_insert_checked a1 j i).
Qed.

Lemma nth_fmap_list {A B} `{Inhabited A} `{Inhabited B} (f : A → B)
    (l : list A) i :
  0 <= i < size_Z l → nth_Z (f <$> l) i = f (nth_Z l i).
Proof.
  intros Hi. unfold nth_Z, size_Z in *.
  apply list_lookup_total_correct. rewrite list_lookup_fmap.
  rewrite (list_lookup_lookup_total_lt l (Z.to_nat i)) by lia. done.
Qed.

Lemma mergeVertices_relabel c N h i j :
  wf h → 0 <= i < n h → 0 <= j < n h → i ≠ j →
  mergeVertices (relabel c N h) i j = relabel c N (mergeVertices h i j).
Proof.
  intros Hwf Hi Hj Hne. apply graph_eq; [done..|].
  pose proof (wf_mapping _ Hwf) as Hm.
  apply list_eq_by_nth.
  - rewrite merge_mapping_size by (simpl; lia). simpl.
    unfold size_Z. rewrite length_fmap.
    pose proof (merge_mapping_size h i j ltac:(lia)) as Hs.
    unfold size_Z in Hs. simpl in Hs. lia.
  - intros a Ha. rewrite merge_mapping_size in Ha by (simpl; lia).
    simpl in Ha.
    rewrite (merge_mapping_nth (relabel c N h)) by (simpl; lia).
    change (mapping (relabel c N (mergeVertices h i j)))
      with ((λ cls : list Z, nth_Z c <$> cls)
              <$> mapping (mergeVertices h i j)).
    rewrite nth_fmap_list by (rewrite merge_mapping_size; lia).
    rewrite merge_mapping_nth by lia.
    change (mapping (relabel c N h))
      with ((λ cls : list Z, nth_Z c <$> cls) <$> mapping h).
    assert (Ho : 0 <= old_index j a < n h)
      by (unfold old_index; destruct (a <? j); lia).
    case_decide.
    + rewrite !nth_fmap_list by lia. by rewrite fmap_app.
    + rewrite !nth_fmap_list by lia. done.
Qed.


Lemma nth_NoDup (l : list Z) i j :
  NoDup l → 0 <= i < size_Z l → 0 <= j < size_Z l →
  nth_Z l i = nth_Z l j → i = j.
Proof.
  intros Hnd Hi Hj Heq.
  pose proof (nth_lookup l i Hi) as Hli.
  pose proof (nth_lookup l j Hj) as Hlj. rewrite <- Heq in Hlj.
  pose proof (NoDup_lookup l _ _ _ Hnd Hli Hlj). lia.
Qed.

Lemma relabel_class c N h i x :
  wf h → 0 <= i < n h →
  x ∈ nth_Z (mapping (relabel c N h)) i ↔
  ∃ k, x = nth_Z c k ∧ k ∈ nth_Z (mapping h) i.
Proof.
  intros Hwf Hi. simpl.
  rewrite nth_fmap_list by (rewrite (wf_mapping _ Hwf); lia).
  by rewrite list_elem_of_fmap.
Qed.

(** Lifting through the renamed classes gives the lifted colouring of [h]
    at the places [c]. *)
Lemma lift_coloring_relabel c N h col :
  NoDup c → (∀ v, v ∈ c → 0 <= v < N) → 0 <= N →
  graph_inv h → orig_n h = size_Z c →
  scattered c N (lift_coloring (relabel c N h) col) (lift_coloring h col).
Proof.
  intros Hnd Hc HN Hinv Ho.
  pose proof (inv_wf _ Hinv) as Hwf.
  pose proof (inv_partition _ Hinv) as Hpart.
  pose proof (wf_mapping _ Hwf) as Hm.
  assert (Hcls : ∀ i k, 0 <= i < n h → k ∈ nth_Z (mapping h) i →
                        0 <= k < size_Z c).
  { intros i k Hi Hk. rewrite <- Ho.
    by apply (partition_range h i k Hpart Hm). }
  destruct (lift_coloring_spec (relabel c N h) col) as [Hsz Hlift]; [done| |].
  { intros i x Hi (k & -> & Hk)%relabel_class; [|done..].
    apply Hc, nth_elem_of. by apply (Hcls i). }
  simpl in Hsz, Hlift. split; [done| |].
  - intros k Hk.
    destruct (partition_cover h k Hpart Hm) as (i & Hi & Hki); [lia|].
    rewrite (lift_coloring_nth h col i k) by (done || lia).
    destruct (Hlift (nth_Z c k)) as [[_ Hnone]|(i' & Hi' & Hin & ->)].
    + by apply Hc, nth_elem_of.
    + exfalso. apply (Hnone i Hi).
      apply (relabel_class c N h i); [done..|]. by exists k.
    + apply (relabel_class c N h i') in Hin as (k' & Heq & Hk'); [|done..].
      assert (k = k').
      { apply (nth_NoDup c); [done|done| |done]. by apply (Hcls i'). }
      subst k'. by rewrite (partition_unique h i i' k).
  - intros v Hv Hnc.
    destruct (Hlift v Hv) as [[? _]|(i & Hi & Hin & _)]; [done|].
    apply (relabel_class c N h i) in Hin as (k & -> & Hk); [|done..].
    exfalso. apply Hnc, nth_elem_of. by apply (Hcls i).
Qed.

Lemma update_best_relabel c N h ub col bg bh :
  NoDup c → (∀ v, v ∈ c → 0 <= v < N) → 0 <= N →
  graph_inv h → orig_n h = size_Z c →
  best_rel c N bg bh →
  best_rel c N (update_best (relabel c N h) ub col bg)
               (update_best h ub col bh).
Proof.
  intros Hnd Hc HN Hinv Ho [Hnum Hcol]. unfold update_best. rewrite Hnum.
  destruct (ub <? numColors bh); [|done].
  split; [done|]. right. simpl. by apply lift_coloring_relabel.
Qed.

Section Simulation.
Context {seconds : Type}.
Variable time_ge : seconds → seconds → bool.
Variable elapsed : nat → seconds.
Variable c : list Z.
Variable N : Z.
Hypothesis Hnd : NoDup c.
Hypothesis Hc : ∀ v, v ∈ c → 0 <= v < N.
Hypothesis HN : 0 <= N.

Local Opaque heuristicColoring heuristicMaxClique selectBranchingPair
  mergeVertices addEdge update_best relabel.

(** [branchAndBound] on the renamed graph goes through the same nodes,
    reads the clock as often and writes the same log; the colouring it
    stores is the one stored for [h], moved to the places [c]. *)
Lemma branchAndBound_relabel fuel :
  ∀ h bg bh (timeLimit : seconds) depth (w : Globals),
    graph_inv h → orig_n h = size_Z c → best_rel c N bg bh →
    run_rel c N
      (branchAndBound time_ge elapsed fuel (relabel c N h) bg timeLimit
                      depth w)
      (branchAndBound time_ge elapsed fuel h bh timeLimit depth w).
Proof.
  induction fuel as [|fuel IH]; intros h bg bh timeLimit depth w Hinv Ho Hb;
    [done|].
  simpl. destruct (time_ge _ _); [done|].
  rewrite heuristicMaxClique_relabel, heuristicColoring_relabel,
    selectBranchingPair_relabel.
  destruct (heuristicMaxClique h) as [[lb clique]|]; [|done]. simpl.
  destruct (heuristicColoring h) as [ub col].
  pose proof (update_best_relabel c N h ub col bg bh Hnd Hc HN Hinv Ho Hb)
    as Hb1.
  set (bg1 := update_best (relabel c N h) ub col bg) in *.
  set (bh1 := update_best h ub col bh) in *.
  destruct (lb =? ub); [done|].
  rewrite (proj1 Hb1).
  destruct (lb >=? numColors bh1); [done|].
  destruct (selectBranchingPair h) as [v1 v2] eqn:Hsel.
  destruct (Z.eqb_spec v1 (-1)) as [|Hv1]; [done|].
  destruct (selectBranchingPair_valid h v1 v2 Hsel Hv1) as (H12 & H2 & Hn12).
  rewrite addEdge_relabel.
  destruct (addEdge_graph_inv h v1 v2 Hinv ltac:(lia) ltac:(lia) ltac:(lia))
    as (childEdge & He & _ & HoE & _ & _ & HinvE).
  rewrite He. simpl.
  rewrite mergeVertices_relabel by (apply Hinv || lia).
  pose proof (merge_graph_inv h v1 v2 Hinv ltac:(lia) ltac:(lia) ltac:(lia))
    as HinvM.
  assert (HoM : orig_n (mergeVertices h v1 v2) = size_Z c).
  { Local Transparent mergeVertices. simpl. Local Opaque mergeVertices.
    done. }
  assert (Hn : n (relabel c N h) = n h).
  { Local Transparent relabel. simpl. Local Opaque relabel. done. }
  rewrite Hn.
  assert (Hboth : ∀ w0,
    run_rel c N
      (branchAndBound time_ge elapsed fuel
         (relabel c N (mergeVertices h v1 v2)) bg1 timeLimit (depth + 1) w0 ≫=
       λ '(b, w1), branchAndBound time_ge elapsed fuel
                     (relabel c N childEdge) b timeLimit (depth + 1) w1)
      (branchAndBound time_ge elapsed fuel (mergeVertices h v1 v2) bh1
         timeLimit (depth + 1) w0 ≫=
       λ '(b, w1), branchAndBound time_ge elapsed fuel childEdge b
                     timeLimit (depth + 1) w1)).
  { intros w0.
    pose proof (IH (mergeVertices h v1 v2) bg1 bh1 timeLimit (depth + 1) w0
                   HinvM HoM Hb1) as Hm.
    destruct (branchAndBound _ _ fuel (relabel c N (mergeVertices h v1 v2))
                _ _ _ _) as [[bg2 wg2]|];
      destruct (branchAndBound _ _ fuel (mergeVertices h v1 v2) _ _ _ _)
        as [[bh2 wh2]|]; simpl in Hm |- *; try done.
    destruct Hm as [-> Hb2].
    apply IH; [done|congruence|done]. }
  destruct ((n h >=? MIN_VERTICES_FOR_TASK) && (depth <? MAX_TASK_DEPTH));
    apply Hboth.
Qed.

Local Transparent heuristicColoring heuristicMaxClique selectBranchingPair
  mergeVertices addEdge update_best relabel.
End Simulation.


(** ** The components of the input graph, one after the other *)

Lemma unmapped_input g :
  wf g → symmetric g → loop_free g → input_graph (unmapped g).
Proof.
  intros Hwf Hsym Hlf. split; try done.
  split; simpl; try apply Hwf.
  unfold size_Z. rewrite length_fmap, length_seqZ.
  pose proof (wf_n _ Hwf). lia.
Qed.

Lemma extractSubgraph_relabel g c :
  input_graph g → (∀ v, v ∈ c → 0 <= v < n g) →
  extractSubgraph g c = relabel c (orig_n g) (unmapped (extractSubgraph g c)).
Proof.
  intros Hin Hc. apply graph_eq; [done..|].
  destruct (extractSubgraph_props g c (in_symmetric _ Hin) Hc)
    as (Hwf & _ & _ & Hn & _ & Hmap & _).
  apply list_eq_by_nth.
  - rewrite (wf_mapping _ Hwf). simpl.
    unfold size_Z. rewrite !length_fmap, length_seqZ. unfold size_Z. lia.
  - rewrite (wf_mapping _ Hwf), Hn. intros i Hi.
    rewrite Hmap by lia. rewrite (in_mapping _ Hin).
    assert (Hci : 0 <= nth_Z c i < n g) by by apply Hc, nth_elem_of.
    rewrite nth_fmap_seqZ by done.
    simpl. rewrite <- list_fmap_compose.
    change (n (Graph_of_size (size_Z c))) with (size_Z c).
    by rewrite nth_fmap_seqZ.
Qed.

Lemma NoDup_range_size (c : list Z) m :
  0 <= m → NoDup c → (∀ v, v ∈ c → 0 <= v < m) → size_Z c <= m.
Proof.
  intros Hm Hnd Hc.
  rewrite <- (size_seqZ 0 m) by done. unfold size_Z.
  apply Nat2Z.inj_le, submseteq_length, NoDup_submseteq; [done|].
  intros v Hv. apply elem_of_seqZ. specialize (Hc v Hv). lia.
Qed.

Lemma at_checked_Some (l : list Z) i x :
  at_checked l i = Some x → 0 <= i < size_Z l ∧ x = nth_Z l i.
Proof.
  unfold at_checked. destruct (in_bounds l i) eqn:Hb; [|done].
  apply in_bounds_true in Hb. rewrite nth_lookup by done.
  intros [= <-]. done.
Qed.

Lemma at_checked_in_range (l : list Z) i :
  0 <= i < size_Z l → at_checked l i = Some (nth_Z l i).
Proof.
  intros Hi. unfold at_checked.
  rewrite (proj2 (in_bounds_true l i) Hi). by apply nth_lookup.
Qed.

(** The loop [for (int v : components[i]) localColoring[v] =
    compBest.coloring[v]]. *)
Lemma copy_fold (src : list Z) :
  ∀ vs lc lc',
    foldl (λ acc v,
             lc ← acc;
             c ← at_checked src v;
             if in_bounds lc v then Some (upd_Z lc v c) else None)
          (Some lc) vs = Some lc' →
    size_Z lc' = size_Z lc
    ∧ (∀ v, v ∈ vs → nth_Z lc' v = nth_Z src v)
    ∧ (∀ v, 0 <= v → v ∉ vs → nth_Z lc' v = nth_Z lc v).
Proof.
  induction vs as [|v vs IH]; intros lc lc' Hf.
  { injection Hf as <-. split; [done|]. split; [|done].
    by intros v ?%elem_of_nil. }
  simpl in Hf.
  destruct (at_checked src v) as [x|] eqn:Hat; simpl in Hf;
    [|by rewrite foldl_None in Hf].
  apply at_checked_Some in Hat as [Hv ->].
  destruct (in_bounds lc v) eqn:Hb; [|by rewrite foldl_None in Hf].
  apply in_bounds_true in Hb.
  apply IH in Hf as (Hsz & Hin & Hout).
  rewrite size_upd_Z in Hsz. split; [done|]. split.
  - intros u [->|Hu]%elem_of_cons; [|by apply Hin].
    destruct (decide (v ∈ vs)) as [Hu|Hu]; [by apply Hin|].
    rewrite Hout by (done || lia). by rewrite nth_upd_eq.
  - intros u Hu0 Hu. rewrite Hout; [|done|].
    + apply nth_upd_ne; [lia|done|]. intros ->. apply Hu. by left.
    + intros ?. apply Hu. by right.
Qed.

Lemma copy_fold_returns (src : list Z) :
  ∀ vs lc,
    (∀ v, v ∈ vs → 0 <= v < size_Z src ∧ v < size_Z lc) →
    is_Some
      (foldl (λ acc v,
                lc ← acc;
                c ← at_checked src v;
                if in_bounds lc v then Some (upd_Z lc v c) else None)
             (Some lc) vs).
Proof.
  induction vs as [|v vs IH]; intros lc Hvs; [done|].
  simpl. destruct (Hvs v ltac:(by left)) as [Hv1 Hv2].
  rewrite at_checked_in_range by done. simpl.
  rewrite (proj2 (in_bounds_true lc v)) by lia.
  apply IH. intros u Hu. rewrite size_upd_Z. apply Hvs. by right.
Qed.

Lemma scan_pairs_length m : (length (scan_pairs m) <= Z.to_nat (m * m))%nat.
Proof.
  destruct (decide (0 <= m)) as [Hm|Hm].
  2: { unfold scan_pairs. rewrite (seqZ_nil 0 m) by lia. simpl. lia. }
  unfold scan_pairs.
  assert (Hgen : ∀ l : list Z, (∀ a, a ∈ l → 0 <= a) →
    (length (l ≫= λ a, (λ b, (a, b)) <$> seqZ (a + 1) (m - (a + 1)))
     <= length l * Z.to_nat m)%nat).
  { induction l as [|a l IH]; intros Hl; [simpl; lia|].
    rewrite bind_cons, length_app, length_fmap, length_seqZ.
    specialize (IH ltac:(intros x Hx; apply Hl; by right)).
    specialize (Hl a ltac:(by left)). simpl. lia. }
  specialize (Hgen (seqZ 0 m) ltac:(intros a Ha%elem_of_seqZ; lia)).
  rewrite length_seqZ in Hgen. nia.
Qed.

Lemma open_pairs_length g :
  (length (open_pairs g) <= Z.to_nat (n g * n g))%nat.
Proof.
  unfold open_pairs.
  pose proof (length_filter (λ p : Z * Z, p.2 ∉ nth_Z (adj g) p.1)
                (scan_pairs (n g))).
  pose proof (scan_pairs_length (n g)). lia.
Qed.

Section NoTimeout.
Context {seconds : Type}.
Variable time_ge : seconds → seconds → bool.
Variable elapsed : nat → seconds.

Local Opaque heuristicColoring heuristicMaxClique selectBranchingPair
  mergeVertices addEdge update_best.

(** When the time limit has not passed at the first clock reading, the
    call records a colouring of the node: at most [n g] colours remain. *)
Lemma branchAndBound_first fuel g best (timeLimit : seconds) depth
    (w : Globals) best' w' :
  graph_inv g →
  time_ge (elapsed (clock_reads w)) timeLimit = false →
  branchAndBound time_ge elapsed fuel g best timeLimit depth w
    = Some (best', w') →
  numColors best' <= n g.
Proof.
  intros Hinv Ht Hrun. destruct fuel as [|fuel]; [done|].
  simpl in Hrun. rewrite Ht in Hrun.
  destruct (heuristicMaxClique g) as [[lb clique]|]; [|done]. simpl in Hrun.
  destruct (heuristicColoring g) as [ub col] eqn:Hh.
  destruct (heuristicColoring_spec g ub col (inv_wf _ Hinv)
              (inv_symmetric _ Hinv) (inv_loop_free _ Hinv) Hh)
    as (_ & _ & _ & Hub & _).
  pose proof (update_best_le g ub col best) as [_ Hle].
  set (best1 := update_best g ub col best) in *.
  destruct (lb =? ub); [injection Hrun as <- _; lia|].
  destruct (lb >=? numColors best1); [injection Hrun as <- _; lia|].
  destruct (selectBranchingPair g) as [v1 v2].
  destruct (v1 =? -1); [injection Hrun as <- _; lia|].
  destruct (addEdge g v1 v2) as [childEdge|]; [|done]. simpl in Hrun.
  assert (Hboth : ∀ w0,
    (branchAndBound time_ge elapsed fuel (mergeVertices g v1 v2) best1
       timeLimit (depth + 1) w0 ≫=
     λ '(b, w1), branchAndBound time_ge elapsed fuel childEdge b
                   timeLimit (depth + 1) w1) = Some (best', w') →
    numColors best' <= numColors best1).
  { clear Hrun. intros w0 Hr.
    destruct (branchAndBound _ _ fuel (mergeVertices g v1 v2) _ _ _ _)
      as [[b2 w2]|] eqn:Hm; simpl in Hr; [|done].
    apply branchAndBound_mono in Hm as [Hm _].
    apply branchAndBound_mono in Hr as [Hr _]. lia. }
  destruct ((n g >=? MIN_VERTICES_FOR_TASK) && (depth <? MAX_TASK_DEPTH));
    apply Hboth in Hrun; lia.
Qed.

(** When the time limit never passes, [searchCompleted] stays as it is. *)
Lemma branchAndBound_no_timeout (timeLimit : seconds) fuel :
  (∀ i, time_ge (elapsed i) timeLimit = false) →
  ∀ g best depth (w : Globals) best' w',
    branchAndBound time_ge elapsed fuel g best timeLimit depth w
      = Some (best', w') →
    searchCompleted w' = searchCompleted w.
Proof.
  intros Hnt. induction fuel as [|fuel IH];
    intros g best depth w best' w' Hrun; [done|].
  simpl in Hrun. rewrite Hnt in Hrun.
  destruct (heuristicMaxClique g) as [[lb clique]|]; [|done]. simpl in Hrun.
  destruct (heuristicColoring g) as [ub col].
  set (best1 := update_best g ub col best) in *.
  destruct (lb =? ub); [by injection Hrun as _ <-|].
  destruct (lb >=? numColors best1); [by injection Hrun as _ <-|].
  destruct (selectBranchingPair g) as [v1 v2].
  destruct (v1 =? -1); [by injection Hrun as _ <-|].
  destruct (addEdge g v1 v2) as [childEdge|]; [|done]. simpl in Hrun.
  assert (Hboth : ∀ w0,
    (branchAndBound time_ge elapsed fuel (mergeVertices g v1 v2) best1
       timeLimit (depth + 1) w0 ≫=
     λ '(b, w1), branchAndBound time_ge elapsed fuel childEdge b
                   timeLimit (depth + 1) w1) = Some (best', w') →
    searchCompleted w' = searchCompleted w0).
  { clear Hrun. intros w0 Hr.
    destruct (branchAndBound _ _ fuel (mergeVertices g v1 v2) _ _ _ _)
      as [[b2 w2]|] eqn:Hm; simpl in Hr; [|done].
    apply IH in Hm. apply IH in Hr. congruence. }
  destruct ((n g >=? MIN_VERTICES_FOR_TASK) && (depth <? MAX_TASK_DEPTH));
    by apply Hboth in Hrun.
Qed.

Local Transparent heuristicColoring heuristicMaxClique selectBranchingPair
  mergeVertices addEdge update_best.
End NoTimeout.

Section ComponentSearch.
Context {seconds : Type}.
Variable time_ge : seconds → seconds → bool.
Variable elapsed : nat → seconds.
Variable g : Graph.
Hypothesis Hin : input_graph g.
Hypothesis HINF : n g < INF.
Variable c : list Z.
Hypothesis Hnd : NoDup c.
Hypothesis Hne : c ≠ [].
Hypothesis Hc : ∀ v, v ∈ c → 0 <= v < n g.

Local Abbreviation h0 := (unmapped (extractSubgraph g c)).

Lemma component_root : input_graph h0 ∧ n h0 = size_Z c.
Proof.
  destruct (extractSubgraph_props g c (in_symmetric _ Hin) Hc)
    as (Hwf & Hsym & Hlf & Hn & _).
  split; [by apply unmapped_input|done].
Qed.

Lemma component_adj p q :
  0 <= p < size_Z c → 0 <= q < size_Z c → p ≠ q →
  q ∈ nth_Z (adj h0) p ↔ nth_Z c q ∈ nth_Z (adj g) (nth_Z c p).
Proof.
  intros Hp Hq Hpq.
  destruct (extractSubgraph_props g c (in_symmetric _ Hin) Hc)
    as (_ & _ & _ & Hn & _ & _ & Hadj).
  apply Hadj; [lia..|done].
Qed.

Lemma component_size : 0 < size_Z c <= n g.
Proof.
  split.
  - destruct c; [done|]. unfold size_Z. simpl. lia.
  - apply NoDup_range_size; [apply (in_wf _ Hin)|done..].
Qed.

(** A colouring of the graph colours each of its subgraphs. *)
Lemma restrict_colorable k : colorable g k → colorable h0 k.
Proof.
  intros (Hk & f & Hprop & Hr). split; [done|].
  destruct component_root as [Hin0 Hn0].
  exists (λ p, f (nth_Z c p)). rewrite Hn0. split.
  - intros p q Hp Hq Hpq.
    assert (p ≠ q).
    { intros ->. apply (in_loop_free _ Hin0 q); [lia|done]. }
    apply Hprop; [by apply Hc, nth_elem_of..|].
    by apply component_adj.
  - intros p Hp. by apply Hr, Hc, nth_elem_of.
Qed.

Local Opaque heuristicColoring heuristicMaxClique selectBranchingPair
  mergeVertices addEdge update_best relabel extractSubgraph unmapped.

Lemma component_sim fuel (timeLimit : seconds) (w : Globals) :
  run_rel c (orig_n g)
    (branchAndBound time_ge elapsed fuel (extractSubgraph g c)
                    ColoringSolution_default timeLimit 0 w)
    (branchAndBound time_ge elapsed fuel h0 ColoringSolution_default
                    timeLimit 0 w).
Proof.
  destruct component_root as [Hin0 Hn0].
  pose proof (ri_inv _ _ (input_graph_inv h0 Hin0)) as Hinv0.
  rewrite (extractSubgraph_relabel g c Hin Hc) at 1.
  apply branchAndBound_relabel; [done| | |done| |].
  - intros v Hv. rewrite (in_orig_n _ Hin). by apply Hc.
  - rewrite (in_orig_n _ Hin). apply (in_wf _ Hin).
  - by rewrite (in_orig_n _ Hin0).
  - split; [done|]. by left.
Qed.

(** The search of one component. *)
Lemma component_search fuel (timeLimit : seconds) (w : Globals) cb w1 :
  branchAndBound time_ge elapsed fuel (extractSubgraph g c)
                 ColoringSolution_default timeLimit 0 w = Some (cb, w1) →
  (searchCompleted w = false → searchCompleted w1 = false)
  ∧ (searchCompleted w1 = true
     ∨ time_ge (elapsed (clock_reads w)) timeLimit = false →
     ∃ colh, scattered c (orig_n g) (coloring cb) colh
             ∧ proper_coloring h0 colh
             ∧ ∀ p, 0 <= p < size_Z c → 0 <= nth_Z colh p < numColors cb)
  ∧ (searchCompleted w1 = true → ∀ k, colorable g k → numColors cb <= k).
Proof.
  intros Hrun.
  destruct component_root as [Hin0 Hn0].
  pose proof (ri_inv _ _ (input_graph_inv h0 Hin0)) as Hinv0.
  pose proof component_size as Hsize.
  pose proof (component_sim fuel timeLimit w) as Hsim.
  rewrite Hrun in Hsim.
  destruct (branchAndBound time_ge elapsed fuel h0 _ _ _ _)
    as [[bh wh]|] eqn:Hh; [|done].
  destruct Hsim as [-> [Hnum Hcol]].
  pose proof (branchAndBound_mono time_ge elapsed fuel _ _ _ _ _ _ _ Hh)
    as [_ Hflag].
  split; [done|]. split.
  - intros Hcase.
    assert (Hle : numColors bh <= n h0).
    { destruct Hcase as [Hw|Ht].
      - exact (branchAndBound_le_n time_ge elapsed fuel h0 _ _ _ _ _ _ Hinv0
                 Hh Hw).
      - exact (branchAndBound_first time_ge elapsed fuel h0 _ _ _ _ _ _ Hinv0
                 Ht Hh). }
    destruct (branchAndBound_solution_ok time_ge elapsed h0 Hin0 fuel h0 _ _ _
                _ _ _ (reach_root h0) Hh) as [->|(Hsz & Hprop & Hrange)].
    { simpl in Hle. unfold INF in *. lia. }
    destruct Hcol as [[_ Hnil]|Hsc].
    { rewrite Hnil in Hsz. unfold size_Z in Hsz at 1. simpl in Hsz. lia. }
    exists (coloring bh). split; [done|]. split; [done|].
    intros p Hp. rewrite Hnum. apply Hrange. lia.
  - intros Hw k Hk. rewrite Hnum.
    exact (branchAndBound_optimal time_ge elapsed fuel h0 _ _ _ _ _ _ k
             Hinv0 Hh Hw (restrict_colorable k Hk)).
Qed.

Lemma component_returns fuel (timeLimit : seconds) (w : Globals) :
  (Z.to_nat (n g * n g) < fuel)%nat →
  is_Some (branchAndBound time_ge elapsed fuel (extractSubgraph g c)
                          ColoringSolution_default timeLimit 0 w).
Proof.
  intros Hfuel.
  destruct component_root as [Hin0 Hn0].
  pose proof (ri_inv _ _ (input_graph_inv h0 Hin0)) as Hinv0.
  pose proof component_size as Hsize.
  pose proof (component_sim fuel timeLimit w) as Hsim.
  destruct (branchAndBound_returns time_ge elapsed fuel h0
              ColoringSolution_default timeLimit 0 w Hinv0)
    as [[bh wh] Hh].
  { pose proof (open_pairs_length h0). rewrite Hn0 in *.
    assert (Z.to_nat (size_Z c * size_Z c) <= Z.to_nat (n g * n g))%nat
      by (apply Z2Nat.inj_le; nia).
    lia. }
  rewrite Hh in Hsim.
  by destruct (branchAndBound time_ge elapsed fuel (extractSubgraph g c)
                 _ _ _ _).
Qed.

Local Transparent heuristicColoring heuristicMaxClique selectBranchingPair
  mergeVertices addEdge update_best relabel extractSubgraph unmapped.
End ComponentSearch.

Section SolveComponents.
Context {seconds : Type}.
Variable time_ge : seconds → seconds → bool.
Variable elapsed : nat → seconds.
Variable g : Graph.
Hypothesis Hin : input_graph g.
Hypothesis HINF : n g < INF.

Lemma solve_components_unfold fuel (timeLimit : seconds) (w : Globals) comps :
  findConnectedComponents g = Some comps → 1 < size_Z comps →
  solve time_ge elapsed fuel g timeLimit w
  = foldl (component_step time_ge elapsed fuel g timeLimit)
          (Some (0, replicate (Z.to_nat (orig_n g)) (-1), w)) comps.
Proof.
  intros Hc Hsz. unfold solve. rewrite Hc. simpl.
  destruct (Z.gtb_spec (size_Z comps) 1) as [_|]; [|lia].
  fold (component_step time_ge elapsed fuel g timeLimit).
  by destruct (foldl _ _ comps) as [[[a b] w']|].
Qed.

Local Opaque branchAndBound extractSubgraph.

(** One pass of the loop over the components. *)
Lemma component_step_spec fuel (timeLimit : seconds) cs c lbc lc
    (w : Globals) lbc' lc' w' :
  component_ok g c → NoDup c →
  (∀ u, u ∈ mjoin cs → 0 <= u < n g) →
  (∀ u, u ∈ mjoin cs → u ∉ c) →
  closed_under_adj g (mjoin cs) →
  size_Z lc = n g →
  component_step time_ge elapsed fuel g timeLimit (Some (lbc, lc, w)) c
    = Some (lbc', lc', w') →
  size_Z lc' = n g
  ∧ (searchCompleted w = false → searchCompleted w' = false)
  ∧ (searchCompleted w' = true →
     components_done g cs lbc lc → components_done g (cs ++ [c]) lbc' lc').
Proof.
  intros [(start & rest & Hstart & _) [Hc Hclosed]] Hnd Hcs Hdisj Hcsclosed
    Hsz Hstep.
  assert (Hne : c ≠ []) by by rewrite Hstart.
  unfold component_step in Hstep. simpl in Hstep.
  destruct (branchAndBound time_ge elapsed fuel (extractSubgraph g c) _ _ _ _)
    as [[cb w1]|] eqn:Hrun; simpl in Hstep; [|done].
  destruct (foldl _ (Some lc) c) as [lc1|] eqn:Hcopy; simpl in Hstep; [|done].
  injection Hstep as <- <- <-.
  apply copy_fold in Hcopy as (Hsz1 & Hcin & Hcout).
  destruct (component_search time_ge elapsed g Hin HINF c Hnd Hne Hc fuel
              timeLimit w cb w1 Hrun) as (Hflag & Hcol & Hopt).
  split; [lia|]. split; [done|].
  intros Hw1 [Hnn Hrange Hproper Hoptimal].
  destruct (Hcol (or_introl Hw1)) as (colh & Hsc & Hprop & Hcr).
  destruct (component_root g Hin c Hc) as [Hin0 Hn0].
  assert (Hjoin : ∀ u, u ∈ mjoin (cs ++ [c]) ↔ u ∈ mjoin cs ∨ u ∈ c).
  { intros u. rewrite join_app, elem_of_app. simpl. by rewrite app_nil_r. }
  assert (Hat : ∀ u, u ∈ c →
    ∃ p, 0 <= p < size_Z c ∧ nth_Z c p = u ∧ nth_Z lc1 u = nth_Z colh p).
  { intros u Hu. destruct (elem_of_nth c u Hu) as (p & Hp & Hpu).
    exists p. split; [done|]. split; [done|].
    rewrite (Hcin u Hu), <- Hpu. by apply (sc_in _ _ _ _ Hsc). }
  assert (Hold : ∀ u, u ∈ mjoin cs → nth_Z lc1 u = nth_Z lc u).
  { intros u Hu. apply Hcout; [|by apply Hdisj]. apply (Hcs u Hu). }
  split.
  - lia.
  - intros u [Hu|Hu]%Hjoin.
    + rewrite (Hold u Hu). specialize (Hrange u Hu). lia.
    + destruct (Hat u Hu) as (p & Hp & _ & ->). specialize (Hcr p Hp). lia.
  - intros u v [Hu|Hu]%Hjoin Hv.
    + rewrite (Hold u Hu), (Hold v (Hcsclosed u v Hu Hv)).
      by apply Hproper.
    + pose proof (Hclosed u v Hu Hv) as Hvc.
      destruct (Hat u Hu) as (p & Hp & Hpu & ->).
      destruct (Hat v Hvc) as (q & Hq & Hqv & ->).
      assert (Hpq : p ≠ q).
      { intros ->. rewrite Hpu in Hqv. subst v.
        by apply (in_loop_free _ Hin u (Hc u Hu)). }
      apply Hprop; [lia..|].
      apply (component_adj g Hin c Hc p q Hp Hq Hpq). by rewrite Hpu, Hqv.
  - intros k Hk. specialize (Hoptimal k Hk). specialize (Hopt Hw1 k Hk). lia.
Qed.

Lemma component_step_returns fuel (timeLimit : seconds) c lbc lc
    (w : Globals) :
  (∀ i, time_ge (elapsed i) timeLimit = false) →
  (Z.to_nat (n g * n g) < fuel)%nat →
  component_ok g c → NoDup c → size_Z lc = n g →
  ∃ lbc' lc' w',
    component_step time_ge elapsed fuel g timeLimit (Some (lbc, lc, w)) c
      = Some (lbc', lc', w')
    ∧ searchCompleted w' = searchCompleted w.
Proof.
  intros Hnt Hfuel [(start & rest & Hstart & _) [Hc Hclosed]] Hnd Hsz.
  assert (Hne : c ≠ []) by by rewrite Hstart.
  unfold component_step. simpl.
  destruct (component_returns time_ge elapsed g Hin c Hnd Hne Hc fuel
              timeLimit w Hfuel) as [[cb w1] Hrun].
  rewrite Hrun. simpl.
  destruct (component_search time_ge elapsed g Hin HINF c Hnd Hne Hc fuel
              timeLimit w cb w1 Hrun) as (_ & Hcol & _).
  destruct (Hcol (or_intror (Hnt _))) as (colh & Hsc & _).
  pose proof (sc_size _ _ _ _ Hsc) as Hcsz.
  rewrite (in_orig_n _ Hin) in Hcsz.
  destruct (copy_fold_returns (coloring cb) c lc) as [lc1 Hcopy].
  { intros v Hv. specialize (Hc v Hv). lia. }
  rewrite Hcopy. simpl. eexists _, _, _. split; [done|].
  Local Transparent branchAndBound.
  exact (branchAndBound_no_timeout time_ge elapsed timeLimit fuel Hnt _ _ _ _
           _ _ Hrun).
  Local Opaque branchAndBound.
Qed.

Lemma join_snoc (cs : list (list Z)) (c : list Z) :
  mjoin (cs ++ [c]) = mjoin cs ++ c.
Proof. rewrite join_app. simpl. by rewrite app_nil_r. Qed.

(** The loop over the components, as far as it has got. *)
Lemma components_fold fuel (timeLimit : seconds) (w : Globals) :
  ∀ cs,
    (∀ c, c ∈ cs → component_ok g c) → NoDup (mjoin cs) →
    ∀ lbc lc w',
      foldl (component_step time_ge elapsed fuel g timeLimit)
            (Some (0, replicate (Z.to_nat (orig_n g)) (-1), w)) cs
        = Some (lbc, lc, w') →
      size_Z lc = n g
      ∧ (searchCompleted w = false → searchCompleted w' = false)
      ∧ (searchCompleted w' = true → components_done g cs lbc lc).
Proof.
  induction cs as [|c cs IH] using rev_ind; intros Hok Hnd lbc lc w' Hf.
  { injection Hf as <- <- <-. split.
    - unfold size_Z. rewrite length_replicate, (in_orig_n _ Hin).
      pose proof (wf_n _ (in_wf _ Hin)). lia.
    - split; [done|]. intros _. split; [lia| | |].
      + by intros u ?%elem_of_nil.
      + by intros u v ?%elem_of_nil.
      + by intros k [? _]. }
  rewrite foldl_snoc in Hf.
  rewrite join_snoc in Hnd. apply NoDup_app in Hnd as (Hnd1 & Hdisj & Hnd2).
  assert (Hok1 : ∀ c', c' ∈ cs → component_ok g c').
  { intros c' Hc'. apply Hok, elem_of_app. by left. }
  assert (Hokc : component_ok g c).
  { apply Hok, elem_of_app. right. by apply list_elem_of_singleton. }
  destruct (foldl _ _ cs) as [[[lbc0 lc0] w0]|] eqn:Hprev; [|done].
  destruct (IH Hok1 Hnd1 lbc0 lc0 w0 eq_refl) as (Hsz0 & Hflag0 & Hdone0).
  assert (Hrange : ∀ u, u ∈ mjoin cs → 0 <= u < n g).
  { intros u (c' & Hu & Hc')%list_elem_of_join.
    destruct (Hok1 c' Hc') as (_ & Hr & _). by apply Hr. }
  assert (Hclosed : closed_under_adj g (mjoin cs)).
  { apply closed_join. intros c' Hc'. apply (Hok1 c' Hc'). }
  destruct (component_step_spec fuel timeLimit cs c lbc0 lc0 w0 lbc lc w'
              Hokc Hnd2 Hrange Hdisj Hclosed Hsz0 Hf)
    as (Hsz & Hflag & Hdone).
  split; [done|]. split; [auto|].
  intros Hw'. apply Hdone; [done|]. apply Hdone0.
  destruct (searchCompleted w0); [done|]. by rewrite Hflag in Hw'.
Qed.

Lemma components_fold_returns fuel (timeLimit : seconds) (w : Globals) :
  (∀ i, time_ge (elapsed i) timeLimit = false) →
  (Z.to_nat (n g * n g) < fuel)%nat →
  ∀ cs,
    (∀ c, c ∈ cs → component_ok g c) → NoDup (mjoin cs) →
    ∃ lbc lc w',
      foldl (component_step time_ge elapsed fuel g timeLimit)
            (Some (0, replicate (Z.to_nat (orig_n g)) (-1), w)) cs
        = Some (lbc, lc, w')
      ∧ searchCompleted w' = searchCompleted w.
Proof.
  intros Hnt Hfuel.
  induction cs as [|c cs IH] using rev_ind; intros Hok Hnd.
  { by eexists _, _, _. }
  rewrite join_snoc in Hnd. apply NoDup_app in Hnd as (Hnd1 & Hdisj & Hnd2).
  assert (Hok1 : ∀ c', c' ∈ cs → component_ok g c').
  { intros c' Hc'. apply Hok, elem_of_app. by left. }
  assert (Hokc : component_ok g c).
  { apply Hok, elem_of_app. right. by apply list_elem_of_singleton. }
  destruct (IH Hok1 Hnd1) as (lbc0 & lc0 & w0 & Hprev & Hw0).
  destruct (components_fold fuel timeLimit w cs Hok1 Hnd1 lbc0 lc0 w0 Hprev)
    as (Hsz0 & _).
  destruct (component_step_returns fuel timeLimit c lbc0 lc0 w0 Hnt Hfuel
              Hokc Hnd2 Hsz0) as (lbc & lc & w' & Hstep & Hw').
  exists lbc, lc, w'. rewrite foldl_snoc, Hprev. split; [done|congruence].
Qed.

Local Transparent branchAndBound extractSubgraph.

(** What [findConnectedComponents] returns, in the form the loop needs. *)
Lemma components_facts comps :
  findConnectedComponents g = Some comps →
  (∀ c, c ∈ comps → component_ok g c)
  ∧ NoDup (mjoin comps)
  ∧ ∀ v, 0 <= v < n g → v ∈ mjoin comps.
Proof.
  intros Hc.
  destruct (findConnectedComponents_inv g (in_wf _ Hin) (in_symmetric _ Hin)
              comps Hc) as [visited [_ Hvis Hnd Hok Hseen]].
  split; [done|]. split; [done|].
  intros v Hv. apply Hvis; [done|]. apply Hseen, elem_of_seqZ. lia.
Qed.

End SolveComponents.

(** X22: the branch of [main] for a graph with several components.  On an
    input graph with fewer than [INF] vertices: whenever it returns with
    [searchCompleted] still true, [globalColoring] is a proper colouring
    of the whole graph with colours below [globalBestColors], and no
    proper colouring uses fewer colours; and when the time limit never
    passes and the fuel exceeds [n * n], it returns and leaves
    [searchCompleted] as it was. *)
Theorem solve_components_exact {seconds : Type}
    (time_ge : seconds → seconds → bool) (elapsed : nat → seconds)
    fuel g (timeLimit : seconds) (w : Globals) comps :
  input_graph g → n g < INF →
  findConnectedComponents g = Some comps → 1 < size_Z comps →
  (∀ k col w',
     solve time_ge elapsed fuel g timeLimit w = Some (k, col, w') →
     searchCompleted w' = true →
     solution_ok g {| numColors := k; coloring := col |}
     ∧ ∀ k', colorable g k' → k <= k')
  ∧ ((∀ i, time_ge (elapsed i) timeLimit = false) →
     (Z.to_nat (n g * n g) < fuel)%nat →
     ∃ k col w',
       solve time_ge elapsed fuel g timeLimit w = Some (k, col, w')
       ∧ searchCompleted w' = searchCompleted w).
Proof.
  intros Hin HINF Hc Hsz.
  rewrite (solve_components_unfold time_ge elapsed g fuel timeLimit w comps
             Hc Hsz).
  destruct (components_facts g Hin comps Hc) as (Hok & Hnd & Hall).
  split.
  - intros k col w' Hf Hw'.
    destruct (components_fold time_ge elapsed g Hin HINF fuel timeLimit w
                comps Hok Hnd k col w' Hf) as (Hsize & _ & Hdone).
    destruct (Hdone Hw') as [Hnn Hrange Hproper Hopt].
    split; [|done]. split; [done|]. split.
    + intros u v Hu Hv Huv. apply Hproper; [by apply Hall|done].
    + intros v Hv. by apply Hrange, Hall.
  - intros Hnt Hfuel.
    exact (components_fold_returns time_ge elapsed g Hin HINF fuel timeLimit w
             Hnt Hfuel comps Hok Hnd).
Qed.

(** ** [main] on a connected graph *)




(** ** The clique search is complete *)

Lemma length_filter_mono {A} (P Q : A → Prop) `{!∀ x, Decision (P x)}
    `{!∀ x, Decision (Q x)} (l : list A) :
  (∀ x, P x → Q x) → (length (filter P l) <= length (filter Q l))%nat.
Proof.
  intros HPQ. induction l as [|a l IH]; [done|].
  rewrite !filter_cons. repeat case_decide; simpl; try lia.
  exfalso. auto.
Qed.

Lemma length_filter_strict {A} (P Q : A → Prop) `{!∀ x, Decision (P x)}
    `{!∀ x, Decision (Q x)} (l : list A) x :
  (∀ y, P y → Q y) → x ∈ l → Q x → ¬ P x →
  (length (filter P l) < length (filter Q l))%nat.
Proof.
  intros HPQ Hx HQ HP. induction l as [|a l IH]; [by apply elem_of_nil in Hx|].
  pose proof (length_filter_mono P Q l HPQ) as Hmono.
  rewrite !filter_cons.
  apply elem_of_cons in Hx as [<-|Hx].
  - repeat case_decide; simpl; try lia; done.
  - specialize (IH Hx). repeat case_decide; simpl; try lia.
    exfalso. auto.
Qed.

(** The pivot is a member of [P ++ X]. *)
Lemma choose_pivot_in ad P X : P ++ X ≠ [] → choose_pivot ad P X ∈ P ++ X.
Proof.
  unfold choose_pivot.
  assert (Hgen : ∀ l : list Z,
    let r := foldl (λ '(pivot, maxCount) u,
                      let count := pivot_count ad P u in
                      if count >? maxCount then (u, count) else (pivot, maxCount))
                   (-1, -1) l in
    (l = [] ∧ r = (-1, -1)) ∨ r.1 ∈ l).
  { induction l as [|x l IH] using rev_ind; [by left|].
    right. rewrite foldl_snoc. simpl in IH.
    destruct (foldl _ _ l) as [pv mc]. simpl.
    pose proof (pivot_count_nonneg ad P x) as Hx.
    destruct (Z.gtb_spec (pivot_count ad P x) mc) as [Hgt|Hle]; simpl.
    - apply elem_of_app. right. by apply list_elem_of_singleton.
    - destruct IH as [[_ Heq]|Hin].
      + injection Heq as -> ->. lia.
      + apply elem_of_app. by left. }
  intros Hne. by destruct (Hgen (P ++ X)) as [[? _]|?].
Qed.

Section BronKerboschComplete.
Variable g : Graph.
Hypothesis Hwf : wf g.
Hypothesis Hsym : symmetric g.
Hypothesis Hlf : loop_free g.

Lemma is_clique_cons K v :
  is_clique g K → 0 <= v < n g → (∀ y, y ∈ K → y ∈ nth_Z (adj g) v) →
  is_clique g (v :: K).
Proof.
  intros (Hnd & Hrange & Hadj) Hv Hvadj.
  assert (Hfresh : v ∉ K).
  { intros Hin. apply (Hlf v Hv). by apply Hvadj. }
  split; [|split].
  - by apply NoDup_cons.
  - intros x [->|Hx]%elem_of_cons; auto.
  - intros x y [->|Hx]%elem_of_cons [->|Hy]%elem_of_cons Hne.
    + done.
    + by apply Hvadj.
    + apply Hsym; [done|by apply Hrange|]. by apply Hvadj.
    + by apply Hadj.
Qed.

Lemma dominated_mono K K' X X' :
  (∀ y, y ∈ K → y ∈ K') → (∀ x, x ∈ X' → x ∈ X) →
  dominated g K' X' → dominated g K X.
Proof. intros HK HX (x & Hx & Hdom). exists x. split; auto. Qed.

Lemma size_cons (v : Z) (K : list Z) : size_Z (v :: K) = size_Z K + 1.
Proof. unfold size_Z. simpl. lia. Qed.

(** The loop reaches every clique that holds one of the vertices it
    goes through. *)
Lemma bk_loop_complete rec R :
  (∀ R' P' X' b b',
     NoDup P' → candidates g P' R' → candidates g X' R' →
     rec R' P' X' b = Some b' →
     b.1 <= b'.1 ∧ bk_covers g R' P' X' b'.1) →
  ∀ vs P X best best',
    NoDup vs → (∀ v, v ∈ vs → v ∈ P) → NoDup P →
    candidates g P R → candidates g X R →
    bk_loop rec (adj g) R vs P X best = Some best' →
    best.1 <= best'.1
    ∧ ∀ K, is_clique g K → (∀ r, r ∈ R → r ∈ K) →
           (∀ k, k ∈ K → k ∈ R ∨ k ∈ P) →
           (∃ v, v ∈ vs ∧ v ∈ K) →
           size_Z K <= best'.1 ∨ dominated g K X.
Proof.
  intros Hrec. induction vs as [|v vs IH];
    intros P X best best' Hndvs Hvs HndP HP HX Hrun; simpl in Hrun.
  { injection Hrun as <-. split; [lia|].
    intros K _ _ _ (v & Hv & _). by apply elem_of_nil in Hv. }
  apply NoDup_cons in Hndvs as [Hvfresh Hndvs].
  assert (HvP : v ∈ P) by (apply Hvs; by left).
  destruct (rec _ _ _ _) as [b1|] eqn:Hcall; simpl in Hrun; [|done].
  apply Hrec in Hcall as [Hle1 Hcov1]; [|by apply NoDup_filter| |].
  2: { by apply candidates_filter. }
  2: { by apply candidates_filter. }
  assert (HA : ∀ K, is_clique g K → (∀ r, r ∈ R → r ∈ K) →
    (∀ k, k ∈ K → k ∈ R ∨ k ∈ P) → v ∈ K →
    size_Z K <= b1.1 ∨ dominated g K X).
  { intros K HK HRK HKP HvK.
    destruct (Hcov1 K HK) as [?|Hdom]; [| |by left|].
    - intros r [Hr|Hr%list_elem_of_singleton]%elem_of_app; [auto|by subst].
    - intros k Hk. destruct (decide (k = v)) as [->|Hkv].
      { left. apply elem_of_app. right. by apply list_elem_of_singleton. }
      destruct (HKP k Hk) as [Hr|Hp]; [left; apply elem_of_app; by left|].
      right. apply list_elem_of_filter. split; [|done].
      destruct HK as (_ & _ & Hadj). apply Hadj; done.
    - right. apply (dominated_mono K K X _ ltac:(done)) in Hdom; [done|].
      by intros x [_ ?]%list_elem_of_filter. }
  case_bool_decide as Hbreak.
  { injection Hrun as <-. split; [done|].
    intros K HK HRK HKP (v0 & Hv0 & Hv0K).
    destruct (decide (v ∈ K)) as [HvK|HvK]; [by apply HA|].
    exfalso. apply elem_of_cons in Hv0 as [->|Hv0]; [done|].
    assert (Hin : v0 ∈ filter (λ w, w ≠ v) P).
    { apply list_elem_of_filter. split; [by intros ->|]. apply Hvs. by right. }
    rewrite Hbreak in Hin. by apply elem_of_nil in Hin. }
  apply IH in Hrun as [Hle2 Hcov2]; [|done| |by apply NoDup_filter| |].
  2: { intros v' Hv'. apply list_elem_of_filter. split; [by intros ->|].
       apply Hvs. by right. }
  2: { intros p [_ Hp]%list_elem_of_filter. by apply HP. }
  2: { intros x [Hx|Hx%list_elem_of_singleton]%elem_of_app; [by apply HX|].
       subst. by apply HP. }
  split; [lia|].
  intros K HK HRK HKP (v0 & Hv0 & Hv0K).
  destruct (decide (v ∈ K)) as [HvK|HvK].
  { destruct (HA K HK HRK HKP HvK) as [?|?]; [left; lia|by right]. }
  apply elem_of_cons in Hv0 as [->|Hv0]; [done|].
  destruct (Hcov2 K HK HRK) as [?|(x & Hx & Hdom)]; [|by exists v0|by left|].
  { intros k Hk. destruct (HKP k Hk) as [?|Hp]; [by left|right].
    apply list_elem_of_filter. split; [by intros ->|done]. }
  apply elem_of_app in Hx as [Hx|Hx%list_elem_of_singleton].
  { right. by exists x. }
  subst x.
  assert (HvK' : is_clique g (v :: K)).
  { apply is_clique_cons; [done| |done]. by apply HP. }
  destruct (HA (v :: K) HvK') as [Hsz|Hd].
  - intros r Hr. right. by apply HRK.
  - intros k [->|Hk]%elem_of_cons; [by right|by apply HKP].
  - by left.
  - left. rewrite size_cons in Hsz. lia.
  - right. apply (dominated_mono K (v :: K) X X); [|done..].
    intros y Hy. by right.
Qed.

(** A call of [bronKerbosch] never lowers [bestSize], and reaches every
    clique between [R] and [R ∪ P] that no member of [X] extends. *)
Lemma bronKerbosch_complete fuel :
  ∀ R P X best best',
    NoDup P → candidates g P R → candidates g X R →
    bronKerbosch fuel (adj g) R P X best = Some best' →
    best.1 <= best'.1 ∧ bk_covers g R P X best'.1.
Proof.
  induction fuel as [|fuel IH]; intros R P X best best' HndP HP HX Hrun;
    simpl in Hrun; [done|].
  destruct (bool_decide (P = []) && bool_decide (X = [])) eqn:Hb.
  { apply andb_true_iff in Hb as [->%bool_decide_eq_true ->%bool_decide_eq_true].
    assert (Hsub : ∀ K, is_clique g K → (∀ k, k ∈ K → k ∈ R ∨ k ∈ []) →
                        size_Z K <= size_Z R).
    { intros K (HndK & _) HKR. unfold size_Z.
      apply Nat2Z.inj_le, submseteq_length, NoDup_submseteq; [done|].
      intros k Hk. destruct (HKR k Hk) as [?|Hn]; [done|].
      by apply elem_of_nil in Hn. }
    destruct (Z.gtb_spec (size_Z R) best.1); injection Hrun as <-; simpl.
    - split; [lia|]. intros K HK _ HKR. left. by apply Hsub.
    - split; [lia|]. intros K HK _ HKR. left.
      specialize (Hsub K HK HKR). lia. }
  assert (Hne : P ++ X ≠ []).
  { apply andb_false_iff in Hb as [Hb|Hb]; apply bool_decide_eq_false in Hb.
    - by destruct P.
    - destruct P; [by destruct X|done]. }
  pose proof (choose_pivot_in (adj g) P X Hne) as Hu.
  set (u := choose_pivot (adj g) P X) in *.
  set (vs := filter (λ v, v ∉ nth_Z (adj g) u) P) in *.
  destruct (bk_loop_complete (bronKerbosch fuel (adj g)) R IH vs P X best
              best') as [Hle Hloop]; try done.
  { by apply NoDup_filter. }
  { by intros v [_ ?]%list_elem_of_filter. }
  split; [done|].
  assert (Hur : 0 <= u < n g ∧ ∀ r, r ∈ R → u ∈ nth_Z (adj g) r).
  { apply elem_of_app in Hu as [Hu|Hu]; [by apply HP|by apply HX]. }
  assert (Hm : ∀ m K, length (filter (λ p, p ∉ K) P) = m →
    is_clique g K → (∀ r, r ∈ R → r ∈ K) → (∀ k, k ∈ K → k ∈ R ∨ k ∈ P) →
    size_Z K <= best'.1 ∨ dominated g K X).
  { induction m as [m IHm] using lt_wf_ind. intros K Hlen HK HRK HKP.
    destruct (decide (Exists (λ v, v ∈ K) vs)) as [Hex|Hnex].
    { apply Exists_exists in Hex as (v & Hv & HvK).
      apply Hloop; [done..|]. by exists v. }
    assert (Hdom : ∀ y, y ∈ K → y ∈ nth_Z (adj g) u).
    { intros y Hy. destruct (decide (y ∈ nth_Z (adj g) u)) as [|Hn]; [done|].
      destruct (HKP y Hy) as [Hr|Hp].
      - apply Hsym; [by apply HK|apply Hur|]. by apply Hur.
      - exfalso. apply Hnex, Exists_exists. exists y. split; [|done].
        by apply list_elem_of_filter. }
    assert (HuK : u ∉ K).
    { intros HuK. apply (Hlf u); [apply Hur|]. by apply Hdom. }
    apply elem_of_app in Hu as [HuP|HuX]; [|right; by exists u].
    assert (HK' : is_clique g (u :: K)).
    { apply is_clique_cons; [done|apply Hur|done]. }
    destruct (IHm (length (filter (λ p, p ∉ u :: K) P))) with (K := u :: K)
      as [Hsz|Hd]; try done.
    - rewrite <- Hlen.
      apply (length_filter_strict _ _ P u); [|done|done|].
      + intros y Hy HyK. apply Hy. by right.
      + intros Hn. apply Hn. by left.
    - intros r Hr. right. by apply HRK.
    - intros k [->|Hk]%elem_of_cons; [by right|by apply HKP].
    - left. rewrite size_cons in Hsz. lia.
    - right. apply (dominated_mono K (u :: K) X X); [|done..].
      intros y Hy. by right. }
  intros K HK HRK HKP. by apply (Hm _ K eq_refl).
Qed.
End BronKerboschComplete.

(** No clique has more members than the one [heuristicMaxClique]
    returns. *)
Lemma heuristicMaxClique_bound g lb C :
  wf g → symmetric g → loop_free g →
  heuristicMaxClique g = Some (lb, C) →
  ∀ K, is_clique g K → size_Z K <= lb.
Proof.
  intros Hwf Hsym Hlf Hrun K HK. unfold heuristicMaxClique in Hrun.
  apply (bronKerbosch_complete g Hsym Hlf) in Hrun as [_ Hcov].
  - destruct (Hcov K HK) as [?|(x & Hx & _)]; [| |done|].
    + by intros r ?%elem_of_nil.
    + intros k Hk. right. apply elem_of_seqZ. rewrite (wf_adj _ Hwf).
      destruct HK as (_ & Hr & _). specialize (Hr k Hk). lia.
    + by apply elem_of_nil in Hx.
  - apply NoDup_seqZ.
  - intros p Hp%elem_of_seqZ. rewrite (wf_adj _ Hwf) in Hp. split; [lia|].
    by intros r ?%elem_of_nil.
  - by intros x ?%elem_of_nil.
Qed.

(** X9: [heuristicMaxClique] is exact.  On a well-formed graph with
    symmetric adjacency and no loop it returns a clique of the graph with
    its size, and no clique of the graph has more members: the lower
    bound of the search is the clique number. *)
Theorem heuristicMaxClique_maximum g :
  wf g → symmetric g → loop_free g →
  ∃ lb C, heuristicMaxClique g = Some (lb, C)
          ∧ is_clique g C ∧ lb = size_Z C
          ∧ ∀ K, is_clique g K → size_Z K <= lb.
Proof.
  intros Hwf Hsym Hlf.
  destruct (heuristicMaxClique_spec g Hwf Hsym Hlf)
    as (lb & C & Hrun & HC & Hlb).
  exists lb, C. do 3 (split; [done|]).
  by apply (heuristicMaxClique_bound g lb C).
Qed.

(** X14: the test [if (v1 == -1) return;] of [branchAndBound] and
    [decomposeBnb] never fires.  It is reached only when the two bounds
    differ, and then [selectBranchingPair] finds a pair: on a graph
    without a non-adjacent pair the clique bound and the DSATUR bound are
    both [n]. *)
Theorem clique_test_unreachable g lb C ub col v1 v2 :
  wf g → symmetric g → loop_free g →
  heuristicMaxClique g = Some (lb, C) →
  heuristicColoring g = (ub, col) →
  selectBranchingPair g = (v1, v2) →
  lb ≠ ub → v1 ≠ -1.
Proof.
  intros Hwf Hsym Hlf Hc Hh Hsel Hne ->.
  pose proof (selectBranchingPair_sentinel g v2 Hsym Hsel) as Hcomplete.
  destruct (heuristicColoring_spec g ub col Hwf Hsym Hlf Hh)
    as (_ & Hprop & Hrange & Hub & _).
  pose proof (wf_n _ Hwf) as Hn.
  assert (Hall : is_clique g (seqZ 0 (n g))).
  { split; [apply NoDup_seqZ|]. split.
    - intros v Hv%elem_of_seqZ. lia.
    - intros u v Hu%elem_of_seqZ Hv%elem_of_seqZ Huv.
      apply Hcomplete; lia. }
  pose proof (heuristicMaxClique_bound g lb C Hwf Hsym Hlf Hc _ Hall) as Hlb.
  rewrite size_seqZ in Hlb by done.
  destruct (heuristicMaxClique_spec g Hwf Hsym Hlf)
    as (size & C' & Hc' & Hcl & ->).
  rewrite Hc in Hc'. injection Hc' as -> ->.
  pose proof (clique_le_colors g C' ub Hcl
                (proper_coloring_colorable g col ub ltac:(lia) Hprop Hrange)).
  lia.
Qed.

(** ** The order in which DSATUR colours the vertices *)

(** With all saturations at zero, [pickNextVertex] returns the first
    uncoloured vertex of greatest degree. *)
Lemma pick_largest_first col sat deg (m : nat) :
  (∀ v, 0 <= v < Z.of_nat m → nth_Z sat v = 0) →
  ∀ bV bS bD,
    foldl (pick_step col sat deg) (-1, -1, -1) (seqZ 0 (Z.of_nat m))
      = (bV, bS, bD) →
    (bV = -1 ∧ bS = -1 ∧ ∀ w, 0 <= w < Z.of_nat m → nth_Z col w ≠ -1)
    ∨ (0 <= bV < Z.of_nat m ∧ nth_Z col bV = -1
       ∧ bS = 0 ∧ bD = nth_Z deg bV
       ∧ ∀ w, 0 <= w < Z.of_nat m → nth_Z col w = -1 →
              nth_Z deg w <= nth_Z deg bV
              ∧ (nth_Z deg w = nth_Z deg bV → bV <= w)).
Proof.
  induction m as [|m IH]; intros Hsat bV bS bD Hf.
  { injection Hf as <- <- <-. left. repeat split; try done.
    intros w Hw. lia. }
  replace (Z.of_nat (S m)) with (Z.of_nat m + 1) in * by lia.
  rewrite seqZ_app in Hf by lia.
  change (seqZ (0 + Z.of_nat m) 1) with [0 + Z.of_nat m] in Hf.
  rewrite foldl_snoc, Z.add_0_l in Hf.
  destruct (foldl _ _ (seqZ 0 (Z.of_nat m))) as [[pV pS] pD] eqn:Hprev.
  specialize (IH ltac:(intros v Hv; apply Hsat; lia) pV pS pD eq_refl).
  pose proof (Hsat (Z.of_nat m) ltac:(lia)) as Hsm.
  unfold pick_step in Hf. rewrite Hsm in Hf.
  destruct (Z.eqb_spec (nth_Z col (Z.of_nat m)) (-1)) as [Hunc|Hcol].
  - destruct IH as [(-> & -> & Hall)|(Hr & Hc & -> & -> & Hmax)].
    + simpl in Hf. injection Hf as <- <- <-. right.
      split; [lia|]. do 3 (split; [done|]).
      intros w Hw Hwu.
      assert (w = Z.of_nat m) as ->; [|lia].
      destruct (decide (w = Z.of_nat m)) as [|Hne]; [done|].
      exfalso. apply (Hall w); [lia|done].
    + simpl in Hf.
      destruct (Z.gtb_spec (nth_Z deg (Z.of_nat m)) (nth_Z deg pV));
        injection Hf as <- <- <-; right.
      * split; [lia|]. do 3 (split; [done|]).
        intros w Hw Hwu. destruct (decide (w = Z.of_nat m)) as [->|]; [lia|].
        destruct (Hmax w ltac:(lia) Hwu). lia.
      * split; [lia|]. do 3 (split; [done|]).
        intros w Hw Hwu. destruct (decide (w = Z.of_nat m)) as [->|]; [lia|].
        destruct (Hmax w ltac:(lia) Hwu). lia.
  - injection Hf as <- <- <-.
    destruct IH as [(-> & -> & Hall)|(Hr & Hc & -> & -> & Hmax)].
    + left. repeat split; try done. intros w Hw.
      destruct (decide (w = Z.of_nat m)) as [->|]; [done|].
      apply Hall. lia.
    + right. split; [lia|]. do 3 (split; [done|]).
      intros w Hw Hwu. destruct (decide (w = Z.of_nat m)) as [->|]; [done|].
      destruct (Hmax w ltac:(lia) Hwu). lia.
Qed.

(** What one pass of the loop does to the state. *)
Lemma dsatur_step_shape g deg st st' :
  wf g → symmetric g → size_Z (color st) = n g →
  dsatur_step g deg st = Some st' →
  ∃ c, 0 <= c
       ∧ color st'
         = upd_Z (color st)
                 (pickNextVertex (n g) (color st) (saturation st) deg) c
       ∧ saturation st' = saturation st.
Proof.
  intros Hwf Hsym Hsz Hstep. unfold dsatur_step in Hstep.
  pose proof (pick_in_range (n g) (color st) (saturation st) deg) as Hv.
  simpl in Hv.
  destruct (Z.eqb_spec (pickNextVertex (n g) (color st) (saturation st) deg)
                       (-1)) as [|Hne]; [done|].
  injection Hstep as <-. simpl.
  eexists. split; [|split; [reflexivity|]].
  - match goal with |- 0 <= first_free ?u 0 =>
      pose proof (first_free_spec u 0) as (Hc & _) end. simpl in Hc. lia.
  - apply update_saturation_unchanged; [done..|]. lia.
Qed.

Lemma dsatur_loop_saturation g deg k :
  wf g → symmetric g →
  ∀ st, size_Z (color st) = n g →
        saturation (dsatur_loop k g deg st) = saturation st
        ∧ size_Z (color (dsatur_loop k g deg st)) = n g.
Proof.
  intros Hwf Hsym. induction k as [|k IH]; intros st Hsz; simpl; [done|].
  destruct (dsatur_step g deg st) as [st1|] eqn:Hstep; [|done].
  destruct (dsatur_step_shape g deg st st1 Hwf Hsym Hsz Hstep)
    as (c & _ & Hcol & Hsat).
  destruct (IH st1) as [Hs1 Hz1].
  { by rewrite Hcol, size_upd_Z. }
  split; [congruence|done].
Qed.

(** X13: DSATUR as the code runs it is the greedy colouring in the order
    of decreasing degree.  At every pass of the loop of
    [heuristicColoring] the vertex coloured is an uncoloured vertex of
    greatest degree, the one of smallest index among those; the pass
    changes the colour of that vertex only. *)
Theorem heuristicColoring_largest_first g k st' :
  wf g → symmetric g →
  dsatur_step g (dsatur_degree g)
              (dsatur_loop k g (dsatur_degree g) (dsatur_init g)) = Some st' →
  ∃ v c,
    0 <= v < n g ∧ 0 <= c
    ∧ nth_Z (color (dsatur_loop k g (dsatur_degree g) (dsatur_init g))) v = -1
    ∧ (∀ w, 0 <= w < n g →
         nth_Z (color (dsatur_loop k g (dsatur_degree g) (dsatur_init g))) w
           = -1 →
         degree_of g w <= degree_of g v
         ∧ (degree_of g w = degree_of g v → v <= w))
    ∧ color st'
      = upd_Z (color (dsatur_loop k g (dsatur_degree g) (dsatur_init g))) v c.
Proof.
  intros Hwf Hsym Hstep.
  pose proof (wf_n _ Hwf) as Hn.
  assert (Hsz0 : size_Z (color (dsatur_init g)) = n g).
  { simpl. unfold size_Z. rewrite length_replicate. lia. }
  destruct (dsatur_loop_saturation g (dsatur_degree g) k Hwf Hsym
              (dsatur_init g) Hsz0) as [Hsat Hsz].
  set (st := dsatur_loop k g (dsatur_degree g) (dsatur_init g)) in *.
  destruct (dsatur_step_shape g (dsatur_degree g) st st' Hwf Hsym Hsz Hstep)
    as (c & Hc & Hcol & _).
  set (v := pickNextVertex (n g) (color st) (saturation st) (dsatur_degree g))
    in *.
  assert (Hdeg : ∀ w, 0 <= w < n g →
            nth_Z (dsatur_degree g) w = degree_of g w).
  { intros w Hw. unfold dsatur_degree. by rewrite nth_fmap_seqZ. }
  assert (Hv : v = -1 ∨ (0 <= v < n g ∧ nth_Z (color st) v = -1
            ∧ ∀ w, 0 <= w < n g → nth_Z (color st) w = -1 →
                   nth_Z (dsatur_degree g) w <= nth_Z (dsatur_degree g) v
                   ∧ (nth_Z (dsatur_degree g) w = nth_Z (dsatur_degree g) v →
                      v <= w))).
  { unfold v, pickNextVertex.
    destruct (foldl _ _ (seqZ 0 (n g))) as [[bV bS] bD] eqn:Hf. simpl.
    rewrite <- (Z2Nat.id (n g)) in Hf by done.
    apply pick_largest_first in Hf.
    - rewrite Z2Nat.id in Hf by done.
      destruct Hf as [(-> & _)|(Hr & Hunc & _ & _ & Hmax)]; [by left|].
      by right.
    - rewrite Z2Nat.id by done. intros w Hw. rewrite Hsat. simpl.
      by rewrite nth_replicate by lia. }
  destruct Hv as [Hm1|(Hr & Hunc & Hmax)].
  { exfalso. unfold dsatur_step in Hstep. fold v in Hstep.
    rewrite Hm1 in Hstep. done. }
  exists v, c. do 3 (split; [done|]). split; [|done].
  intros w Hw Hwu. rewrite <- !Hdeg by lia. by apply Hmax.
Qed.

(** ** The edge count of the report *)

Lemma foldl_add_snoc (f : Z → Z) (l : list Z) (x : Z) :
  foldl (λ acc i, acc + f i) 0 (l ++ [x])
  = foldl (λ acc i, acc + f i) 0 l + f x.
Proof. by rewrite foldl_snoc. Qed.

Lemma foldl_add_ext (f h : Z → Z) (l : list Z) :
  (∀ i, i ∈ l → f i = h i) →
  foldl (λ acc i, acc + f i) 0 l = foldl (λ acc i, acc + h i) 0 l.
Proof.
  induction l as [|x l IH] using rev_ind; intros Hl; [done|].
  rewrite !foldl_add_snoc, IH, Hl; [done| |].
  - apply elem_of_app. right. by apply list_elem_of_singleton.
  - intros i Hi. apply Hl, elem_of_app. by left.
Qed.

Lemma foldl_add_plus (f h : Z → Z) (l : list Z) :
  foldl (λ acc i, acc + (f i + h i)) 0 l
  = foldl (λ acc i, acc + f i) 0 l + foldl (λ acc i, acc + h i) 0 l.
Proof.
  induction l as [|x l IH] using rev_ind; [done|].
  rewrite !foldl_add_snoc, IH. lia.
Qed.

Lemma foldl_add_indicator (P : Z → Prop) `{!∀ x, Decision (P x)}
    (l : list Z) :
  foldl (λ acc i, acc + (if decide (P i) then 1 else 0)) 0 l
  = size_Z (filter P l).
Proof.
  induction l as [|x l IH] using rev_ind; [done|].
  rewrite foldl_add_snoc, IH, filter_app. unfold size_Z.
  rewrite length_app, filter_cons, filter_nil.
  case_decide; simpl; lia.
Qed.

Lemma size_filter_ext (P Q : Z → Prop) `{!∀ x, Decision (P x)}
    `{!∀ x, Decision (Q x)} (l : list Z) :
  (∀ x, x ∈ l → P x ↔ Q x) → size_Z (filter P l) = size_Z (filter Q l).
Proof.
  induction l as [|x l IH]; intros Hl; [done|].
  rewrite !filter_cons. unfold size_Z in *.
  assert (Hx : P x ↔ Q x) by (apply Hl; by left).
  assert (Hr : Z.of_nat (length (filter P l)) = Z.of_nat (length (filter Q l))).
  { apply IH. intros y Hy. apply Hl. by right. }
  repeat case_decide; simpl; try lia; tauto.
Qed.

Lemma size_filter_fmap_pair (P : Z * Z → Prop) `{!∀ p, Decision (P p)}
    (m : Z) (l : list Z) :
  size_Z (filter P ((λ a, (a, m)) <$> l))
  = size_Z (filter (λ a, P (a, m)) l).
Proof.
  induction l as [|x l IH]; [done|].
  rewrite fmap_cons, !filter_cons. unfold size_Z in *.
  repeat case_decide; simpl; try lia; done.
Qed.

Lemma scan_pairs_succ (m : Z) :
  0 <= m →
  scan_pairs (m + 1) ≡ₚ scan_pairs m ++ ((λ a, (a, m)) <$> seqZ 0 m).
Proof.
  intros Hm. apply NoDup_Permutation.
  - apply scan_pairs_NoDup.
  - apply NoDup_app. split; [apply scan_pairs_NoDup|]. split.
    + intros [a b] Hab%elem_of_scan_pairs
        (x & [= -> ->] & Hx)%list_elem_of_fmap. lia.
    + apply NoDup_fmap_2; [|apply NoDup_seqZ]. by intros x y [= ->].
  - intros [a b]. rewrite elem_of_app, !elem_of_scan_pairs, list_elem_of_fmap.
    split.
    + intros Hab. destruct (decide (b = m)) as [->|].
      * right. exists a. split; [done|]. apply elem_of_seqZ. lia.
      * left. lia.
    + intros [Hab|(x & [= -> ->] & Hx%elem_of_seqZ)]; lia.
Qed.

Lemma length_filter_split {A} (P : A → Prop) `{!∀ x, Decision (P x)}
    (l : list A) :
  (length (filter P l) + length (filter (λ x, ¬ P x) l) = length l)%nat.
Proof.
  induction l as [|x l IH]; [done|].
  rewrite !filter_cons. repeat case_decide; simpl; try lia; done.
Qed.

Section EdgeCount.
Variable g : Graph.
Hypothesis Hwf : wf g.
Hypothesis Hsym : symmetric g.
Hypothesis Hlf : loop_free g.

(** The number of neighbours of a vertex is the number of vertices it is
    adjacent to. *)
Lemma degree_as_filter i :
  0 <= i < n g →
  Z.of_nat (size (nth_Z (adj g) i))
  = size_Z (filter (λ j, j ∈ nth_Z (adj g) i) (seqZ 0 (n g))).
Proof.
  intros Hi. unfold size_Z. f_equal.
  change (size (nth_Z (adj g) i)) with (length (elements (nth_Z (adj g) i))).
  apply Permutation_length, NoDup_Permutation.
  - apply NoDup_elements.
  - apply NoDup_filter, NoDup_seqZ.
  - intros x. rewrite elem_of_elements, list_elem_of_filter, elem_of_seqZ.
    split; [|tauto]. intros Hx. split; [done|].
    pose proof (wf_range _ Hwf i x Hi Hx). lia.
Qed.

(** Counted among the first [m] vertices, the degrees add up to twice the
    number of edges. *)
Lemma handshake (m : nat) :
  Z.of_nat m <= n g →
  foldl (λ acc i,
           acc + size_Z (filter (λ j, j ∈ nth_Z (adj g) i)
                                (seqZ 0 (Z.of_nat m))))
        0 (seqZ 0 (Z.of_nat m))
  = 2 * size_Z (filter (λ p : Z * Z, p.2 ∈ nth_Z (adj g) p.1)
                       (scan_pairs (Z.of_nat m))).
Proof.
  induction m as [|m IH]; intros Hm; [done|].
  replace (Z.of_nat (S m)) with (Z.of_nat m + 1) by lia.
  set (M := Z.of_nat m) in *.
  assert (Hpairs :
    size_Z (filter (λ p : Z * Z, p.2 ∈ nth_Z (adj g) p.1)
                   (scan_pairs (M + 1)))
    = size_Z (filter (λ p : Z * Z, p.2 ∈ nth_Z (adj g) p.1) (scan_pairs M))
      + size_Z (filter (λ a, M ∈ nth_Z (adj g) a) (seqZ 0 M))).
  { transitivity
      (size_Z (filter (λ p : Z * Z, p.2 ∈ nth_Z (adj g) p.1)
                      (scan_pairs M ++ ((λ a, (a, M)) <$> seqZ 0 M)))).
    - unfold size_Z. f_equal. apply Permutation_length.
      by rewrite (scan_pairs_succ M) by lia.
    - rewrite filter_app. unfold size_Z.
      rewrite length_app, Nat2Z.inj_add. f_equal.
      exact (size_filter_fmap_pair
               (λ p : Z * Z, p.2 ∈ nth_Z (adj g) p.1) M (seqZ 0 M)). }
  rewrite Hpairs.
  rewrite seqZ_app by lia.
  change (seqZ (0 + M) 1) with [0 + M]. rewrite Z.add_0_l.
  rewrite foldl_add_snoc.
  assert (Hsplit : ∀ i,
    size_Z (filter (λ j, j ∈ nth_Z (adj g) i) (seqZ 0 M ++ [M]))
    = size_Z (filter (λ j, j ∈ nth_Z (adj g) i) (seqZ 0 M))
      + (if decide (M ∈ nth_Z (adj g) i) then 1 else 0)).
  { intros i. rewrite filter_app. unfold size_Z. rewrite length_app.
    rewrite filter_cons, filter_nil. case_decide; simpl; lia. }
  rewrite (foldl_add_ext _ _ (seqZ 0 M) (λ i _, Hsplit i)).
  rewrite foldl_add_plus, (IH ltac:(lia)).
  rewrite (foldl_add_indicator (λ i, M ∈ nth_Z (adj g) i)).
  rewrite Hsplit.
  rewrite (decide_False (P := M ∈ nth_Z (adj g) M)) by (apply Hlf; lia).
  rewrite (size_filter_ext (λ j, j ∈ nth_Z (adj g) M)
             (λ a, M ∈ nth_Z (adj g) a) (seqZ 0 M)).
  - lia.
  - intros x Hx%elem_of_seqZ. split; apply Hsym; lia.
Qed.
End EdgeCount.

(** X24: the number of edges that [main] reports is the number of pairs
    of adjacent vertices: every edge is counted once, whatever the number
    of times it occurs in the file. *)
Theorem edgeCount_spec g :
  wf g → symmetric g → loop_free g →
  edgeCount g = size_Z (edges_of g)
  ∧ size_Z (edges_of g) + size_Z (open_pairs g) = size_Z (scan_pairs (n g)).
Proof.
  intros Hwf Hsym Hlf. pose proof (wf_n _ Hwf) as Hn. split.
  - unfold edgeCount, edges_of.
    rewrite (foldl_add_ext _ _ (seqZ 0 (n g))
               (λ i Hi, degree_as_filter g Hwf i
                          ltac:(apply elem_of_seqZ in Hi; lia))).
    pose proof (handshake g Hsym Hlf (Z.to_nat (n g))) as Hh.
    rewrite Z2Nat.id in Hh by done. rewrite Hh by lia.
    rewrite Z.mul_comm. apply Z.quot_mul. lia.
  - unfold edges_of, open_pairs, size_Z.
    pose proof (length_filter_split
                  (λ p : Z * Z, p.2 ∈ nth_Z (adj g) p.1)
                  (scan_pairs (n g))) as Hc.
    lia.
Qed.


(** * Instances *)

Lemma graph_from_edges_spec_witness :
  let g := graph_from_edges 3 [(0, 1); (1, 2); (5, 0); (1, 0)] in
  wf g ∧ symmetric g
  ∧ n g = 3 ∧ orig_n g = 3
  ∧ mapping g = (λ i, [i]) <$> seqZ 0 3
  ∧ (∀ p q, 0 <= p < 3 → 0 <= q < 3 →
       (q ∈ nth_Z (adj g) p ↔
        (p, q) ∈ [(0, 1); (1, 2); (5, 0); (1, 0)]
        ∨ (q, p) ∈ [(0, 1); (1, 2); (5, 0); (1, 0)]))
  ∧ ((∀ u, 0 <= u < 3 → (u, u) ∉ [(0, 1); (1, 2); (5, 0); (1, 0)]) →
     input_graph g).
Proof.
  apply (graph_from_edges_spec 3 [(0, 1); (1, 2); (5, 0); (1, 0)]). lia.
Defined.

Lemma findConnectedComponents_spec_witness :
  ∃ comps, findConnectedComponents two_edges = Some comps
           ∧ mjoin comps ≡ₚ seqZ 0 (n two_edges)
           ∧ ∀ c, c ∈ comps → component_ok two_edges c.
Proof.
  apply (findConnectedComponents_spec two_edges).
  - apply wfb_sound. reflexivity.
  - apply symmetricb_sound. reflexivity.
Defined.

Lemma extractSubgraph_spec_witness :
  let subG := extractSubgraph C5 [0; 1; 3] in
  wf subG ∧ symmetric subG ∧ loop_free subG
  ∧ n subG = size_Z [0; 1; 3] ∧ orig_n subG = orig_n C5
  ∧ (∀ i, 0 <= i < n subG →
       nth_Z (mapping subG) i = nth_Z (mapping C5) (nth_Z [0; 1; 3] i))
  ∧ (∀ p q, 0 <= p < n subG → 0 <= q < n subG → p ≠ q →
       (q ∈ nth_Z (adj subG) p ↔
        nth_Z [0; 1; 3] q ∈ nth_Z (adj C5) (nth_Z [0; 1; 3] p))).
Proof.
  apply (extractSubgraph_spec C5 [0; 1; 3]).
  - apply symmetricb_sound. reflexivity.
  - intros v Hv.
    repeat (apply elem_of_cons in Hv as [->|Hv]; [simpl; lia|]).
    by apply elem_of_nil in Hv.
Defined.

Lemma extractSubgraph_all_witness :
  extractSubgraph C5 (seqZ 0 (n C5)) = C5.
Proof.
  apply (extractSubgraph_all C5).
  - apply wfb_sound. reflexivity.
  - apply symmetricb_sound. reflexivity.
  - apply loop_freeb_sound. reflexivity.
Defined.

Lemma zykov_branching_witness :
  colorable P3 2 ↔
  colorable (mergeVertices P3 0 2) 2
  ∨ colorable {| n := 3; orig_n := 3;
                 adj := [ {[1; 2]} ; {[0; 2]} ; {[0; 1]} ];
                 mapping := [[0]; [1]; [2]] |} 2.
Proof.
  apply (zykov_branching P3 0 2 2).
  - apply graph_invb_sound. vm_compute. reflexivity.
  - simpl. lia.
  - simpl. lia.
  - lia.
  - vm_compute. intros H. discriminate H.
  - reflexivity.
Defined.

Lemma mergeVertices_quotient_witness :
  1 ∈ nth_Z (adj (mergeVertices C5 3 1)) 0 ↔
  ∃ x y, in_class 3 1 0 x ∧ in_class 3 1 1 y ∧ y ∈ nth_Z (adj C5) x.
Proof.
  apply (mergeVertices_quotient C5 3 1 0 1).
  - apply symmetricb_sound. reflexivity.
  - simpl. lia.
  - simpl. lia.
  - lia.
  - simpl. lia.
  - simpl. lia.
  - lia.
Defined.

Lemma addEdge_commutes_witness :
  addEdge C5 0 2 = addEdge C5 2 0
  ∧ (addEdge C5 0 2 ≫= λ g1, addEdge g1 1 3)
    = (addEdge C5 1 3 ≫= λ g1, addEdge g1 0 2).
Proof.
  apply (addEdge_commutes C5 0 2 1 3).
  - reflexivity.
  - simpl. lia.
  - simpl. lia.
  - simpl. lia.
  - simpl. lia.
Defined.

Lemma addEdge_degrees_witness :
  degree_of {| n := 3; orig_n := 3;
               adj := [ {[1; 2]} ; {[0; 2]} ; {[0; 1]} ];
               mapping := [[0]; [1]; [2]] |} 0
  = degree_of P3 0 + 1
  ∧ degree_of {| n := 3; orig_n := 3;
                 adj := [ {[1; 2]} ; {[0; 2]} ; {[0; 1]} ];
                 mapping := [[0]; [1]; [2]] |} 2
    = degree_of P3 2 + 1
  ∧ ∀ v, 0 <= v → v ≠ 0 → v ≠ 2 →
         degree_of {| n := 3; orig_n := 3;
                      adj := [ {[1; 2]} ; {[0; 2]} ; {[0; 1]} ];
                      mapping := [[0]; [1]; [2]] |} v
         = degree_of P3 v.
Proof.
  apply (addEdge_degrees P3 0 2).
  - reflexivity.
  - simpl. lia.
  - simpl. lia.
  - lia.
  - vm_compute. intros H. discriminate H.
  - vm_compute. intros H. discriminate H.
  - reflexivity.
Defined.

Lemma lower_bound_le_upper_bound_witness :
  heuristicMaxClique C5 = Some (2, [0; 1])
  ∧ heuristicColoring C5 = (3, [0; 1; 0; 1; 2])
  ∧ 2 <= 3.
Proof.
  split; [reflexivity|]. split; [reflexivity|].
  apply (lower_bound_le_upper_bound C5 2 [0; 1] 3 [0; 1; 0; 1; 2]).
  - apply wfb_sound. reflexivity.
  - apply symmetricb_sound. reflexivity.
  - apply loop_freeb_sound. reflexivity.
  - reflexivity.
  - reflexivity.
Defined.

Lemma heuristicColoring_greedy_witness :
  greedy_coloring C5 [0; 1; 0; 1; 2]
  ∧ (0 < n C5 → ∃ v, 0 <= v < n C5 ∧ 3 <= degree_of C5 v + 1).
Proof.
  apply (heuristicColoring_greedy C5 3 [0; 1; 0; 1; 2]).
  - apply wfb_sound. reflexivity.
  - apply symmetricb_sound. reflexivity.
  - apply loop_freeb_sound. reflexivity.
  - reflexivity.
Defined.

Lemma dsatur_step_saturation_unchanged_witness :
  saturation {| color := [0; -1]; saturation := [0; 0] |}
  = saturation (dsatur_init K2).
Proof.
  apply (dsatur_step_saturation_unchanged K2 (dsatur_degree K2)
           (dsatur_init K2) {| color := [0; -1]; saturation := [0; 0] |}).
  - apply wfb_sound. reflexivity.
  - apply symmetricb_sound. reflexivity.
  - reflexivity.
  - reflexivity.
Defined.

Lemma branchAndBound_monotone_witness :
  numColors {| numColors := 2; coloring := [0; 1] |}
  <= numColors ColoringSolution_default
  ∧ (searchCompleted (@globals_init Z) = false →
     searchCompleted
       {| searchCompleted := true;
          logStream := [mkLogLine 0 0 2 [0; 1] 2 [0; 1]];
          clock_reads := 2 |} = false).
Proof.
  apply (branchAndBound_monotone Z.geb (λ _, 0) 1 K2 ColoringSolution_default
           10 0 globals_init).
  reflexivity.
Defined.

Lemma branchAndBound_anytime_witness :
  {| numColors := 2; coloring := [0; 1; 0] |} = ColoringSolution_default
  ∨ solution_ok P3 {| numColors := 2; coloring := [0; 1; 0] |}.
Proof.
  apply (branchAndBound_anytime Z.geb (λ _, 0) P3 1 (mergeVertices P3 0 2)
           ColoringSolution_default 10 1 globals_init
           {| numColors := 2; coloring := [0; 1; 0] |}
           {| searchCompleted := true;
              logStream := [mkLogLine 0 1 2 [0; 1] 2 [0; 1]];
              clock_reads := 2 |}).
  - apply input_graphb_sound. vm_compute. reflexivity.
  - apply reach_merge; [apply reach_root|simpl; lia|simpl; lia|lia|].
    vm_compute. intros H. discriminate H.
  - vm_compute. reflexivity.
Defined.

Lemma branchAndBound_exact_witness :
  ∃ best' (w' : Globals),
    branchAndBound Z.geb (λ _, 0) 100 C5 ColoringSolution_default 10 0
                   globals_init = Some (best', w')
    ∧ (searchCompleted w' = true →
       solution_ok C5 best'
       ∧ colorable C5 (numColors best')
       ∧ ∀ k, colorable C5 k → numColors best' <= k).
Proof.
  apply (branchAndBound_exact Z.geb (λ _, 0) 100 C5 10 0 globals_init).
  - apply input_graphb_sound. vm_compute. reflexivity.
  - reflexivity.
  - vm_compute. lia.
Defined.

Lemma decomposeBnb_tasks_witness :
  searchCompleted
    {| searchCompleted := true; logStream := @nil (@LogLine Z);
       clock_reads := 3 |}
  = searchCompleted (@globals_init Z)
  ∧ logStream
      {| searchCompleted := true; logStream := @nil (@LogLine Z);
         clock_reads := 3 |}
    = logStream (@globals_init Z)
  ∧ ∃ new,
      [mergeVertices C5 0 2; default C5 (addEdge C5 0 2)] = [] ++ new
      ∧ ∀ t, t ∈ new → reachable C5 t.
Proof.
  apply (decomposeBnb_tasks Z.geb (λ _, 0) 2 C5 1 2 [] 10
           ColoringSolution_default globals_init).
  vm_compute. reflexivity.
Defined.

Lemma solve_single_valid_witness :
  ∃ k col (w' : Globals),
    solve_single Z.geb (λ _, 0) 100 C5 10 globals_init = Some (k, col, w')
    ∧ (k = INF ∧ col = []
       ∨ solution_ok C5 {| numColors := k; coloring := col |})
    ∧ (searchCompleted w' = true →
       solution_ok C5 {| numColors := k; coloring := col |}).
Proof.
  apply (solve_single_valid Z.geb (λ _, 0) C5 100 10 globals_init).
  - apply input_graphb_sound. vm_compute. reflexivity.
  - reflexivity.
  - vm_compute. lia.
  - lia.
Defined.

Lemma solve_components_timeout_witness :
  solve Z.geb (λ _, 5) 10 two_edges 3 globals_init = None.
Proof.
  apply (solve_components_timeout Z.geb (λ _, 5) 10 two_edges 3 globals_init
           [[0; 1]; [2; 3]]).
  - apply wfb_sound. reflexivity.
  - apply symmetricb_sound. reflexivity.
  - reflexivity.
  - reflexivity.
  - reflexivity.
Defined.


Lemma solve_components_exact_witness :
  (∀ k col (w' : Globals),
     solve Z.geb (λ _, 0) 100 two_edges 10 globals_init = Some (k, col, w') →
     searchCompleted w' = true →
     solution_ok two_edges {| numColors := k; coloring := col |}
     ∧ ∀ k', colorable two_edges k' → k <= k')
  ∧ ((∀ i : nat, Z.geb ((λ _ : nat, 0) i) 10 = false) →
     (Z.to_nat (n two_edges * n two_edges) < 100)%nat →
     ∃ k col (w' : Globals),
       solve Z.geb (λ _, 0) 100 two_edges 10 globals_init = Some (k, col, w')
       ∧ searchCompleted w' = searchCompleted (@globals_init Z)).
Proof.
  apply (solve_components_exact Z.geb (λ _, 0) 100 two_edges 10 globals_init
           [[0; 1]; [2; 3]]).
  - apply input_graphb_sound. vm_compute. reflexivity.
  - reflexivity.
  - reflexivity.
  - reflexivity.
Defined.



Lemma heuristicMaxClique_maximum_witness :
  ∃ lb C, heuristicMaxClique C5 = Some (lb, C)
          ∧ is_clique C5 C ∧ lb = size_Z C
          ∧ ∀ K, is_clique C5 K → size_Z K <= lb.
Proof.
  apply (heuristicMaxClique_maximum C5).
  - apply wfb_sound. reflexivity.
  - apply symmetricb_sound. reflexivity.
  - apply loop_freeb_sound. reflexivity.
Defined.

Lemma clique_test_unreachable_witness :
  selectBranchingPair C5 = (0, 2) ∧ 0 ≠ -1.
Proof.
  split; [reflexivity|].
  apply (clique_test_unreachable C5 2 [0; 1] 3 [0; 1; 0; 1; 2] 0 2).
  - apply wfb_sound. reflexivity.
  - apply symmetricb_sound. reflexivity.
  - apply loop_freeb_sound. reflexivity.
  - reflexivity.
  - reflexivity.
  - reflexivity.
  - lia.
Defined.

Lemma heuristicColoring_largest_first_witness :
  ∃ v c,
    0 <= v < n P3 ∧ 0 <= c
    ∧ nth_Z (color (dsatur_loop 1 P3 (dsatur_degree P3) (dsatur_init P3))) v
      = -1
    ∧ (∀ w, 0 <= w < n P3 →
         nth_Z (color (dsatur_loop 1 P3 (dsatur_degree P3) (dsatur_init P3))) w
           = -1 →
         degree_of P3 w <= degree_of P3 v
         ∧ (degree_of P3 w = degree_of P3 v → v <= w))
    ∧ color {| color := [1; 0; -1]; saturation := [0; 0; 0] |}
      = upd_Z (color (dsatur_loop 1 P3 (dsatur_degree P3) (dsatur_init P3)))
              v c.
Proof.
  apply (heuristicColoring_largest_first P3 1
           {| color := [1; 0; -1]; saturation := [0; 0; 0] |}).
  - apply wfb_sound. reflexivity.
  - apply symmetricb_sound. reflexivity.
  - reflexivity.
Defined.


Lemma edgeCount_spec_witness :
  edgeCount C5 = size_Z (edges_of C5)
  ∧ size_Z (edges_of C5) + size_Z (open_pairs C5)
    = size_Z (scan_pairs (n C5)).
Proof.
  apply (edgeCount_spec C5).
  - apply wfb_sound. reflexivity.
  - apply symmetricb_sound. reflexivity.
  - apply loop_freeb_sound. reflexivity.
Defined.
